(** * The DAX Go client core: a shallow embedding and its properties

    Part I embeds the code, one module per source file or concern:

    - [GoBase]: Go values shared by every package (errors and their
      wrapping, machine integers, the [DaxAPI] interface value);
    - [Health]: [dax/internal/client/health_status.go];
    - [Seeds]: seed-endpoint parsing of [dax/internal/client/cluster.go];
    - [Cluster]: roster update and health-check replacement of [cluster.go];
    - [Single]: the per-node client of [single.go] (execute pipeline,
      per-node retry loop, attribute-list definitions);
    - [ClusterClient]: the cluster retry loop of [cluster.go];
    - [Cbor]: the attribute-value codec of [cbor/attrval.go];
    - [NewCluster], [ClusterLife], [Refresh]: configuration, closing and
      refreshing of [cluster.go];
    - [HealthCalls], [RetryTrace], [NodeTrace], [CborFacts]: the
      vocabulary of Part III.

    Part II states and proves the properties of the specification;
    Part III proves further properties of the same code.

    Stateful Go code is written in explicit state-passing style; calls that
    leave the modelled component (route listener, tube pool, io.Closer) are
    recorded in an event trace so that "is called / is not called" can be
    stated. *)

From Stdlib Require Import ZArith List String Ascii Lia Bool.
From Stdlib Require Import Strings.Byte.
From Stdlib Require Import Decimal DecimalString DecimalZ DecimalFacts.
From stdpp Require Import gmap strings list.

Import ListNotations.
#[local] Set Warnings "-register-all".
#[local] Set Warnings "-notation-overridden".
#[local] Set Warnings "-notation-incompatible-prefix".
Local Open Scope string_scope.
Local Open Scope list_scope.
Local Open Scope Z_scope.

(** * Part I: the embedding *)

(** ** Go values shared by all packages *)

Module GoBase.

(** Go's [int] on the 64-bit targets the client is built for: the
    mathematical result reduced to the signed 64-bit range. *)
Definition maxInt : Z := 2 ^ 63 - 1.
Definition minInt : Z := - 2 ^ 63.
Definition int_wrap (z : Z) : Z := (z + 2 ^ 63) mod 2 ^ 64 - 2 ^ 63.
Definition int_add (a b : Z) : Z := int_wrap (a + b).

(** The error values the core produces or inspects.  [CanceledError] and
    [OperationError] are smithy's wrappers (both implement [Unwrap]);
    the two context errors are the sentinels of package [context];
    [UrlError] is what [net/url] reports. *)
Inductive error : Type :=
| ContextCanceled
| ContextDeadlineExceeded
| CanceledError (Err : error)
| OperationError (ServiceID OperationName : string) (Err : error)
| SerializationError (msg : string)
| DeserializationError (msg : string)
| GenericAPIError (Code Message : string)
| DaxRequestFailure (codes : list Z) (Code Message : string)
| DaxTransactionCanceledFailure (codes : list Z) (Code Message : string)
| UrlError (msg : string)
| ErrorString (msg : string).

(** Go's [==] on two error values of the kinds above. *)
Fixpoint error_eqb (a b : error) : bool :=
  match a, b with
  | ContextCanceled, ContextCanceled => true
  | ContextDeadlineExceeded, ContextDeadlineExceeded => true
  | CanceledError x, CanceledError y => error_eqb x y
  | OperationError s1 o1 x, OperationError s2 o2 y =>
      String.eqb s1 s2 && String.eqb o1 o2 && error_eqb x y
  | SerializationError m1, SerializationError m2 => String.eqb m1 m2
  | DeserializationError m1, DeserializationError m2 => String.eqb m1 m2
  | GenericAPIError c1 m1, GenericAPIError c2 m2 =>
      String.eqb c1 c2 && String.eqb m1 m2
  | DaxRequestFailure cs1 c1 m1, DaxRequestFailure cs2 c2 m2 =>
      bool_decide (cs1 = cs2) && String.eqb c1 c2 && String.eqb m1 m2
  | DaxTransactionCanceledFailure cs1 c1 m1,
    DaxTransactionCanceledFailure cs2 c2 m2 =>
      bool_decide (cs1 = cs2) && String.eqb c1 c2 && String.eqb m1 m2
  | UrlError m1, UrlError m2 => String.eqb m1 m2
  | ErrorString m1, ErrorString m2 => String.eqb m1 m2
  | _, _ => false
  end.

(** [errors.Is(err, context.Canceled)]: walk the [Unwrap] chain. *)
Fixpoint errors_Is_Canceled (err : error) : bool :=
  match err with
  | ContextCanceled => true
  | CanceledError e => errors_Is_Canceled e
  | OperationError _ _ e => errors_Is_Canceled e
  | _ => false
  end.

(** [errors.Is(err, context.DeadlineExceeded)]. *)
Fixpoint errors_Is_DeadlineExceeded (err : error) : bool :=
  match err with
  | ContextDeadlineExceeded => true
  | CanceledError e => errors_Is_DeadlineExceeded e
  | OperationError _ _ e => errors_Is_DeadlineExceeded e
  | _ => false
  end.

(** [_, ok := err.( *daxRequestFailure)]: the dynamic type is exactly the
    request failure (a transaction-canceled failure is a type of its
    own). *)
Definition is_daxRequestFailure (err : error) : bool :=
  match err with
  | DaxRequestFailure _ _ _ => true
  | _ => false
  end.

(** A Go function result [(T, error)] whose [T] is meaningless on error. *)
Inductive result (A : Type) : Type :=
| Ok (a : A)
| Err (e : error).
Arguments Ok {A} a.
Arguments Err {A} e.

(** A value of interface type [DaxAPI]: [None] is the nil interface, a
    client is identified by its address [cid]; the two flags say whether
    its dynamic type implements [io.Closer] and [HealthCheckDaxAPI]. *)
Record client : Type := mkClient {
  cid : nat;
  implementsCloser : bool;
  implementsHealthCheck : bool
}.

Definition DaxAPI : Type := option client.

#[global] Instance client_eq_dec : EqDecision client.
Proof. solve_decision. Defined.

#[global] Instance byte_eq_dec : EqDecision byte := Byte.byte_eq_dec.

(** [strings.Index(s, sep)]: the byte offset of the first [sep], or -1. *)
Definition strings_Index (s sep : string) : Z :=
  match String.index 0 sep s with
  | Some n => Z.of_nat n
  | None => -1
  end.

(** Base-10 digits of [strconv.ParseInt], [strconv.Atoi] and
    [big.Int.SetString]: an optional sign, then one digit or more. *)
Definition parseSigned (s : string) : option Z :=
  match s with
  | EmptyString => None
  | String c s' =>
      if Ascii.eqb c "+"
      then option_map (fun d => Z.of_int (Pos d)) (NilZero.uint_of_string s')
      else option_map Z.of_int (NilZero.int_of_string s)
  end.

(** [strconv.ParseInt(s, 10, 64)]; [None] stands for the syntax and range
    errors alike. *)
Definition ParseInt64 (s : string) : option Z :=
  match parseSigned s with
  | Some z => if (minInt <=? z) && (z <=? maxInt) then Some z else None
  | None => None
  end.

(** [strconv.Atoi]. *)
Definition Atoi (s : string) : option Z := ParseInt64 s.

(** [strconv.FormatInt(z, 10)], and [String()] of a [big.Int]. *)
Definition FormatInt (z : Z) : string := NilZero.string_of_int (Z.to_int z).

End GoBase.

Import GoBase.

(** ** health_status.go *)

Module Health.

Definition timeoutErrorThreshold : Z := 5.

(** The fields of [enabledHealthStatus] that change; the lock is the
    serialisation this sequential model assumes. *)
Record enabledHealthStatus : Type := mkHealth {
  endpoint : string;
  isHealthy : bool;
  curReadTimeoutCount : Z
}.

(** Calls made on the [RouteListener] held by the health status. *)
Inductive listenerCall : Type :=
| removeRoute (endpoint : string) (route : DaxAPI)
| addRoute (endpoint : string) (route : DaxAPI).

Definition newHealthStatus (ep : string) : enabledHealthStatus :=
  {| endpoint := ep; isHealthy := true; curReadTimeoutCount := 0 |}.

Definition set_count (hs : enabledHealthStatus) (n : Z) :=
  {| endpoint := endpoint hs; isHealthy := isHealthy hs;
     curReadTimeoutCount := n |}.

Definition set_healthy (hs : enabledHealthStatus) (b : bool) :=
  {| endpoint := endpoint hs; isHealthy := b;
     curReadTimeoutCount := curReadTimeoutCount hs |}.

Section WithIOErrorTest.

(** [isIOError] lives in the client's error file, which is not among the
    sources at hand; the health status only branches on its verdict. *)
Variable isIOError : error -> bool.

Definition onErrorInReadRequest (err : error) (route : DaxAPI)
    (hs : enabledHealthStatus) : enabledHealthStatus * list listenerCall :=
  if negb (isIOError err) then (hs, [])
  else if negb (isHealthy hs) then (hs, [])
  else
    let hs1 := set_count hs (int_add (curReadTimeoutCount hs) 1) in
    if curReadTimeoutCount hs1 >=? timeoutErrorThreshold
    then (set_healthy hs1 false, [removeRoute (endpoint hs1) route])
    else (hs1, []).

Definition onSuccessInReadRequest (hs : enabledHealthStatus)
    : enabledHealthStatus :=
  if (curReadTimeoutCount hs =? 0) || negb (isHealthy hs) then hs
  else set_count hs 0.

Definition onHealthCheckSuccess (route : DaxAPI)
    (hs : enabledHealthStatus) : enabledHealthStatus * list listenerCall :=
  if (curReadTimeoutCount hs =? 0) && isHealthy hs then (hs, [])
  else
    let hs1 := set_count hs 0 in
    if negb (isHealthy hs1)
    then (set_healthy hs1 true, [addRoute (endpoint hs1) route])
    else (hs1, []).

(** The notifications a health status receives during its life. *)
Inductive notification : Type :=
| ErrorInReadRequest (err : error) (route : DaxAPI)
| SuccessInReadRequest
| HealthCheckSuccess (route : DaxAPI).

Definition notify (n : notification) (hs : enabledHealthStatus)
    : enabledHealthStatus * list listenerCall :=
  match n with
  | ErrorInReadRequest err route => onErrorInReadRequest err route hs
  | SuccessInReadRequest => (onSuccessInReadRequest hs, [])
  | HealthCheckSuccess route => onHealthCheckSuccess route hs
  end.

(** A whole life: the state and the listener calls after a sequence of
    notifications, oldest first. *)
Fixpoint run (ns : list notification) (hs : enabledHealthStatus)
    : enabledHealthStatus * list listenerCall :=
  match ns with
  | [] => (hs, [])
  | n :: ns' =>
      let '(hs1, calls1) := notify n hs in
      let '(hs2, calls2) := run ns' hs1 in
      (hs2, calls1 ++ calls2)
  end.

End WithIOErrorTest.

(** What holds of a health status all its life: the count stays between
    0 and the threshold, and reaches the threshold only by the error that
    makes the route unhealthy. *)
Definition health_invariant (hs : enabledHealthStatus) : Prop :=
  0 <= curReadTimeoutCount hs <= timeoutErrorThreshold
  /\ (isHealthy hs = true -> curReadTimeoutCount hs < timeoutErrorThreshold).

End Health.

(** ** cluster.go: seed endpoints *)

Module Seeds.

Definition hostPort : Type := (string * Z)%type.
Definition host (hp : hostPort) : string := fst hp.
Definition port (hp : hostPort) : Z := snd hp.

Definition defaultPorts : gmap string Z :=
  <["dax" := 8111]> (<["daxs" := 9111]> ∅).

(** What [parseHostPort] reads off a parsed [*url.URL]: [u.Scheme],
    [u.Hostname()] and [u.Port()]. *)
Record URL : Type := mkURL {
  Scheme : string;
  Hostname : string;
  Port : string
}.

Section WithURLParser.

(** [url.ParseRequestURI] of Go's standard library. *)
Variable ParseRequestURI : string -> result URL.

(** The error-code constant of the client's error file. *)
Variable ErrCodeInvalidParameter : string.

Definition invalidHostport1 (hostPort : string) : error :=
  GenericAPIError ErrCodeInvalidParameter (hostPort ++ "Invalid hostport.")%string.
Definition invalidHostport2 : error :=
  GenericAPIError ErrCodeInvalidParameter "Invalid hostport".
(** The message lists the keys of [defaultPorts] in map order, which Go
    leaves unspecified; one order is shown. *)
Definition invalidScheme : error :=
  GenericAPIError ErrCodeInvalidParameter
    "URL scheme must be one of [dax,daxs]".
Definition inconsistentSchemes : error :=
  GenericAPIError ErrCodeInvalidParameter
    "Inconsistency between the schemes of provided endpoints".
Definition tooManyEncrypted : error :=
  GenericAPIError ErrCodeInvalidParameter
    "Only one cluster discovery endpoint may be provided for encrypted cluster".

Definition parseHostPort (hostPort : string)
    : result (string * Z * string) :=
  let colon := strings_Index hostPort "://" in
  if (colon =? -1) && (strings_Index hostPort ":" =? -1)
  then Err (invalidHostport1 hostPort)
  else
    let uriString :=
      if colon =? -1 then ("dax://" ++ hostPort)%string else hostPort in
    match ParseRequestURI uriString with
    | Err e => Err e
    | Ok u =>
        let host := Hostname u in
        let scheme := Scheme u in
        let portStr := Port u in
        if String.eqb host "" then Err invalidHostport2
        else
          let port :=
            match Atoi portStr with
            | Some p => p
            | None => default 0 (defaultPorts !! scheme)
            end in
          match defaultPorts !! scheme with
          | None => Err invalidScheme
          | Some _ => Ok (host, port, scheme)
          end
    end.

(** The body of [for i, hp := range hosts]; [out[i] = ...] on a slice
    made with [len(hosts)] slots fills it front to back. *)
Fixpoint getHostPorts_loop (i : nat) (hosts : list string)
    (out : list hostPort) (hostname : string) (isEncrypted : bool)
    : result (list hostPort * string * bool) :=
  match hosts with
  | [] => Ok (out, hostname, isEncrypted)
  | hp :: rest =>
      match parseHostPort hp with
      | Err e => Err e
      | Ok (host, port, scheme) =>
          let daxs := String.eqb scheme "daxs" in
          let differs := negb (Bool.eqb isEncrypted daxs) in
          if differs && negb (Nat.eqb i 0) then Err inconsistentSchemes
          else
            let isEncrypted' := if differs then true else isEncrypted in
            if daxs && negb (Nat.eqb i 0) then Err tooManyEncrypted
            else
              getHostPorts_loop (S i) rest (out ++ [(host, port)]) host
                isEncrypted'
      end
  end.

Definition getHostPorts (hosts : list string)
    : result (list hostPort * string * bool) :=
  getHostPorts_loop 0 hosts [] "" false.

(** After the two guards, [parseHostPort] is a function of the parsed
    URL alone. *)
Definition ofURL (u : URL) : result (string * Z * string) :=
  if String.eqb (Hostname u) "" then Err invalidHostport2
  else
    match defaultPorts !! Scheme u with
    | None => Err invalidScheme
    | Some dflt =>
        Ok (Hostname u,
            match Atoi (Port u) with Some p => p | None => dflt end,
            Scheme u)
    end.

End WithURLParser.

(** A reading of [url.ParseRequestURI] on the seed grammar
    [scheme://host[:port]] (no user info, path, query or IPv6 literal),
    enough to run the repository's own test seeds. *)
Definition lower_ascii (c : ascii) : ascii :=
  let n := nat_of_ascii c in
  if (Nat.leb 65 n && Nat.leb n 90)%bool then ascii_of_nat (n + 32) else c.

Fixpoint lower (s : string) : string :=
  match s with
  | EmptyString => EmptyString
  | String c s' => String (lower_ascii c) (lower s')
  end.

Definition is_digit (c : ascii) : bool :=
  let n := nat_of_ascii c in (Nat.leb 48 n && Nat.leb n 57)%bool.

Fixpoint all_digits (s : string) : bool :=
  match s with
  | EmptyString => true
  | String c s' => is_digit c && all_digits s'
  end.

Definition seedParseRequestURI (raw : string) : result URL :=
  match String.index 0 "://" raw with
  | None => Err (UrlError "invalid URI for request")
  | Some n =>
      let scheme := lower (String.substring 0 n raw) in
      let rest := String.substring (n + 3) (String.length raw - (n + 3)) raw in
      if Nat.eqb n 0 then Err (UrlError "missing protocol scheme")
      else
        match String.index 0 ":" rest with
        | None => Ok (mkURL scheme rest "")
        | Some k =>
            let h := String.substring 0 k rest in
            let p := String.substring (k + 1) (String.length rest - (k + 1)) rest in
            if all_digits p then Ok (mkURL scheme h p)
            else Err (UrlError "invalid port after host")
        end
  end.

End Seeds.

(** ** cluster.go: the roster *)

Module Cluster.

Import Seeds.

Record serviceEndpoint : Type := mkEndpoint {
  nodeId : Z;
  hostname : string;
  address : list byte;
  ep_port : Z;
  role : Z;
  availabilityZone : string;
  leaderSessionId : Z
}.

Record clientAndConfig : Type := mkClientAndConfig {
  cc_client : DaxAPI;
  cfg : serviceEndpoint
}.

(** What the cluster does to the clients it owns. *)
Inductive effect : Type :=
| Close (c : client)
| StartHealthChecks (c : client) (hp : hostPort).

Section WithCollaborators.

(** [net.IP(b).String()] of Go's standard library. *)
Variable IP_String : list byte -> string.

(** The route manager (its file is not among the sources at hand): the
    cluster holds one and hands it the new routes. *)
Variable RouteManager : Type.
Variable setRoutes : list DaxAPI -> RouteManager -> RouteManager.

(** The [clientBuilder] interface; [B] is whatever the builder remembers
    between calls.  A Go builder returns the pair [(DaxAPI, error)]. *)
Variable B : Type.
Variable newClient : list byte -> Z -> B -> (DaxAPI * option error) * B.

(** The fields of [cluster] under its lock. *)
Record cluster : Type := mkCluster {
  active : gmap hostPort clientAndConfig;
  routeManager : RouteManager;
  closed : bool;
  lastRefreshErr : option error
}.

Definition endpoint_hostPort (e : serviceEndpoint) : hostPort :=
  (IP_String (address e), ep_port e).

Definition newSingleClient (cfg : serviceEndpoint) (b : B)
    : (DaxAPI * option error) * B :=
  newClient (address cfg) (ep_port cfg) b.

(** [closeClient]: [Close] is called when the dynamic type is an
    [io.Closer]; a nil interface is not. *)
Definition closeClient (cl : DaxAPI) : list effect :=
  match cl with
  | Some c => if implementsCloser c then [Close c] else []
  | None => []
  end.

(** [if singleCli, ok := cli.(HealthCheckDaxAPI); ok { ... }] *)
Definition startHealthChecks (cl : DaxAPI) (hp : hostPort) : list effect :=
  match cl with
  | Some c => if implementsHealthCheck c then [StartHealthChecks c hp] else []
  | None => []
  end.

(** The locals of [update] that its second loop changes. *)
Record updateLocals : Type := mkLocals {
  newActive : gmap hostPort clientAndConfig;
  newRoutes : list DaxAPI;
  shouldUpdateRoutes : bool;
  newCliCfg : list clientAndConfig;
  builder : B;
  started : list effect
}.

(** [for i, ep := range config]: reuse the client of a known endpoint,
    build one for a new endpoint, stop at the first build error. *)
Fixpoint update_create (oldActive : gmap hostPort clientAndConfig)
    (i : nat) (config : list serviceEndpoint) (l : updateLocals)
    : updateLocals :=
  match config with
  | [] => l
  | ep :: rest =>
      let hp := endpoint_hostPort ep in
      match oldActive !! hp with
      | Some cliAndCfg =>
          update_create oldActive (S i) rest
            {| newActive := <[hp := cliAndCfg]> (newActive l);
               newRoutes := <[i := cc_client cliAndCfg]> (newRoutes l);
               shouldUpdateRoutes := shouldUpdateRoutes l;
               newCliCfg := newCliCfg l;
               builder := builder l;
               started := started l |}
      | None =>
          let '((cli, err), b') := newSingleClient ep (builder l) in
          match err with
          | Some _ =>
              {| newActive := newActive l;
                 newRoutes := newRoutes l;
                 shouldUpdateRoutes := false;
                 newCliCfg := newCliCfg l;
                 builder := b';
                 started := started l |}
          | None =>
              let cliAndCfg := mkClientAndConfig cli ep in
              update_create oldActive (S i) rest
                {| newActive := <[hp := cliAndCfg]> (newActive l);
                   newRoutes := <[i := cli]> (newRoutes l);
                   shouldUpdateRoutes := shouldUpdateRoutes l;
                   newCliCfg := newCliCfg l ++ [cliAndCfg];
                   builder := b';
                   started := started l ++ startHealthChecks cli hp |}
          end
      end
  end.

(** The clients of [oldActive] whose endpoint left the roster, in the
    order the map is ranged over (which Go leaves unspecified). *)
Definition leftRoster (newEndpoints : gset hostPort)
    (oldActive : gmap hostPort clientAndConfig) : list clientAndConfig :=
  (map_to_list (filter (fun kv => fst kv ∉ newEndpoints) oldActive)).*2.

(** [update]: the new cluster fields, the builder afterwards, and the
    effects on clients: health checks started under the lock, then the
    [Close] calls of the goroutine that drains [toClose]. *)
Definition update (config : list serviceEndpoint) (c : cluster) (b : B)
    : cluster * B * list effect :=
  let newEndpoints : gset hostPort :=
    list_to_set (endpoint_hostPort <$> config) in
  let init :=
    {| newActive := ∅;
       newRoutes := replicate (length config) None;
       shouldUpdateRoutes := true;
       newCliCfg := [];
       builder := b;
       started := [] |} in
  let oldActive := active c in
  let '(toClose, l) :=
    if closed c
    then ([],
          {| newActive := newActive init; newRoutes := newRoutes init;
             shouldUpdateRoutes := false; newCliCfg := [];
             builder := b; started := [] |})
    else (leftRoster newEndpoints oldActive,
          update_create oldActive 0 config init) in
  let '(c', toClose') :=
    if shouldUpdateRoutes l
    then ({| active := newActive l;
             routeManager := setRoutes (newRoutes l) (routeManager c);
             closed := closed c;
             lastRefreshErr := lastRefreshErr c |}, toClose)
    else (c, toClose ++ newCliCfg l) in
  (c', builder l,
   started l ++ concat ((fun cl => closeClient (cc_client cl)) <$> toClose')).

(** [onHealthCheckFailed]: replace the client registered under [host]. *)
Definition onHealthCheckFailed (host : hostPort) (c : cluster) (b : B)
    : cluster * B * list effect :=
  match active c !! host with
  | Some oldClientConfig =>
      let '((cli, err), b') := newSingleClient (cfg oldClientConfig) b in
      let hc := startHealthChecks cli host in
      match err with
      | None =>
          let active' :=
            <[host := mkClientAndConfig cli (cfg oldClientConfig)]> (active c) in
          let newRoutes := cc_client <$> (map_to_list active').*2 in
          ({| active := active';
              routeManager := setRoutes newRoutes (routeManager c);
              closed := closed c;
              lastRefreshErr := lastRefreshErr c |},
           b',
           hc ++ closeClient (cc_client oldClientConfig))
      | Some _ => (c, b', hc)
      end
  | None =>
      (* shouldCloseOldClient is still true; oldClientConfig is the zero
         value, whose client is the nil interface *)
      (c, b, closeClient None)
  end.

(** [hasChanged] *)
Definition hasChanged (config : list serviceEndpoint) (c : cluster) : bool :=
  existsb (fun se => bool_decide (active c !! endpoint_hostPort se = None))
          config
  || negb (Nat.eqb (length config) (size (active c))).

(** The clients an effect list closes. *)
Definition closedClients (es : list effect) : list client :=
  omap (fun e => match e with Close c => Some c | _ => None end) es.

(** The locals of [update] when its second loop is left. *)
Definition update_locals (config : list serviceEndpoint) (c : cluster)
    (b : B) : updateLocals :=
  update_create (active c) 0 config
    {| newActive := ∅;
       newRoutes := replicate (length config) None;
       shouldUpdateRoutes := true;
       newCliCfg := [];
       builder := b;
       started := [] |}.

(** The endpoints of a roster, as [update] collects them. *)
Definition rosterKeys (config : list serviceEndpoint) : gset hostPort :=
  list_to_set (endpoint_hostPort <$> config).

End WithCollaborators.

Arguments active {RouteManager} c.
Arguments routeManager {RouteManager} c.
Arguments closed {RouteManager} c.
Arguments lastRefreshErr {RouteManager} c.
Arguments newActive {B} u.
Arguments newRoutes {B} u.
Arguments shouldUpdateRoutes {B} u.
Arguments newCliCfg {B} u.
Arguments builder {B} u.
Arguments started {B} u.
Arguments update_locals IP_String {RouteManager} B newClient config c b.

(** A reading of [net.IP.String] on the addresses the roster carries:
    dotted decimal for four bytes, ["<nil>"] for none. *)
Definition byte_decimal (b : byte) : string := FormatInt (Z.of_N (Byte.to_N b)).

Definition ipv4_String (a : list byte) : string :=
  match a with
  | [] => "<nil>"
  | [a; b; c; d] =>
      (byte_decimal a ++ "." ++ byte_decimal b ++ "." ++ byte_decimal c
       ++ "." ++ byte_decimal d)%string
  | _ => "?"
  end.

(** The roster of the spec's third scenario: nodes A, B and C, a route
    manager that just keeps the routes it is given, and a builder that
    numbers the clients it builds and cannot reach node C. *)
Module Scenario.

Definition epA : serviceEndpoint :=
  mkEndpoint 1 "a.example.com" [x0a; x00; x00; x01] 8111 1 "az1" 0.
Definition epB : serviceEndpoint :=
  mkEndpoint 2 "b.example.com" [x0a; x00; x00; x02] 8111 2 "az1" 0.
Definition epC : serviceEndpoint :=
  mkEndpoint 3 "c.example.com" [x0a; x00; x00; x03] 8111 2 "az2" 0.

Definition setRoutes (routes : list DaxAPI) (_ : list DaxAPI) : list DaxAPI :=
  routes.

Definition unreachable : error := ErrorString "dial tcp 10.0.0.3:8111: i/o timeout".

Definition newClient (ip : list byte) (port : Z) (built : nat)
    : (DaxAPI * option error) * nat :=
  if bool_decide (ip = address epC) then ((None, Some unreachable), built)
  else ((Some (mkClient built true true), None), S built).

Definition emptyCluster : cluster (list DaxAPI) :=
  {| active := ∅; routeManager := []; closed := false;
     lastRefreshErr := None |}.

Definition update :=
  Cluster.update ipv4_String (list DaxAPI) setRoutes nat newClient.

Definition hp (e : serviceEndpoint) : hostPort :=
  endpoint_hostPort ipv4_String e.

Definition clientA : client := mkClient 0 true true.
Definition clientB : client := mkClient 1 true true.

(** The cluster and the builder after a first roster [{A, B}]. *)
Definition clusterAB : cluster (list DaxAPI) * nat * list effect :=
  update [epA; epB] emptyCluster 0%nat.
Definition c1 : cluster (list DaxAPI) := fst (fst clusterAB).
Definition b1 : nat := snd (fst clusterAB).

(** The next roster is [{A, C}]. *)
Definition afterFailure : cluster (list DaxAPI) * nat * list effect :=
  update [epA; epC] c1 b1.

End Scenario.

End Cluster.

(** ** State, collaborators and traces *)

(** A computation over a world [W] (connections, clocks, the pool: all
    that the modelled code reaches through its collaborators) that also
    extends a trace of events [E].  Collaborators act on the world only;
    the trace is written by the modelled code alone. *)
Module Eff.

Definition M (W E A : Type) : Type := W -> list E -> A * W * list E.

Definition ret {W E A} (a : A) : M W E A := fun w t => (a, w, t).

Definition bind {W E A B} (m : M W E A) (k : A -> M W E B) : M W E B :=
  fun w t => let '(a, w', t') := m w t in k a w' t'.

Definition lift {W E A} (f : W -> A * W) : M W E A :=
  fun w t => let '(a, w') := f w in (a, w', t).

Definition read {W E A} (f : W -> A) : M W E A :=
  fun w t => (f w, w, t).

Definition modify {W E} (f : W -> W) : M W E unit :=
  fun w t => (tt, f w, t).

Definition emit {W E} (e : E) : M W E unit :=
  fun w t => (tt, w, t ++ [e]).

Declare Scope eff_scope.
Delimit Scope eff_scope with eff.
Notation "x <- m ;; k" := (bind m (fun x => k))
  (at level 20, m at level 99, k at level 200, only parsing) : eff_scope.
Notation "' p <- m ;; k" := (bind m (fun x => let 'p := x in k))
  (at level 20, p pattern, m at level 99, k at level 200, only parsing)
  : eff_scope.
Notation "m ;; k" := (bind m (fun _ => k))
  (at level 100, k at level 200, only parsing, right associativity)
  : eff_scope.

End Eff.

Import Eff.

(** ** single.go: the per-node client *)

Module Single.

Definition authTtlSecs : Z := 5 * 60.
(** [authTtlSecs * tubeAuthWindowScalar], an untyped constant (225). *)
Definition tubeAuthWindowSecs : Z := 225.
Definition emptyAttributeListId : Z := 1.

Definition opDefineAttributeList : string := "DefineAttributeList".
Definition opDefineAttributeListId : string := "DefineAttributeListId".
Definition opDefineKeySchema : string := "DefineKeySchema".

(** The per-connection state of a tube that the client reads and writes. *)
Record tube : Type := mkTube {
  tid : nat;
  authID : string;
  authExpiryUnix : Z
}.

Definition SetAuthExpiryUnix (exp : Z) (t : tube) : tube :=
  {| tid := tid t; authID := authID t; authExpiryUnix := exp |}.

(** Modelled from the spec: [CompareAndSwapAuthID] of the tube (its file
    is not among the sources at hand): "compareAndSwapAuthID(newId)
    (true if changed)". *)
Definition CompareAndSwapAuthID (auth : string) (t : tube) : bool * tube :=
  (negb (String.eqb (authID t) auth),
   {| tid := tid t; authID := auth; authExpiryUnix := authExpiryUnix t |}).

Record Credentials : Type := mkCredentials {
  AccessKeyID : string;
  SecretAccessKey : string;
  SessionToken : string
}.

(** The fields of [RequestOptions] the retry loops read. *)
Record RequestOptions : Type := mkOptions {
  RetryMaxAttempts : Z;
  RetryDelay : Z;
  Retryer_RetryDelay : Z -> error -> Z
}.

Definition set_RetryMaxAttempts (n : Z) (o : RequestOptions) :=
  {| RetryMaxAttempts := n; RetryDelay := RetryDelay o;
     Retryer_RetryDelay := Retryer_RetryDelay o |}.

(** [RequestOptions{}] *)
Definition zeroOptions : RequestOptions :=
  {| RetryMaxAttempts := 0; RetryDelay := 0;
     Retryer_RetryDelay := fun _ _ => 0 |}.

(** What the per-node client does that others can observe: it hands a
    tube back to the pool or has it closed, starts an attempt on the
    wire, sleeps between attempts. *)
Inductive event : Type :=
| PoolPut (t : tube)
| PoolCloseTube (t : tube)
| Attempt (op : string)
| Slept (op : string) (delay : Z).

(** The collaborators of the per-node client whose code is not among the
    sources at hand (tube pool, credentials, clock, wire encoders and
    decoders, error translation), as functions of the world. *)
Record collaborators (W : Type) : Type := mkCollaborators {
  service : string;
  pool_getWithContext : bool -> W -> result tube * W;
  pool_setDeadline : tube -> W -> option error * W;
  ctx_Err : W -> option error;
  pool_put : tube -> W -> W;
  pool_closeTube : tube -> W -> W;
  credentials_Retrieve : W -> result Credentials * W;
  time_Now_Unix : W -> Z * W;
  encodeAuthInput : Credentials -> Z -> tube -> W -> option error * W;
  writer_Flush : tube -> W -> option error * W;
  decodeError : tube -> W -> (option error * option error) * W;
  authError : error -> bool;
  SleepWithContext : string -> Z -> W -> option error * W;
  translateError : option error -> option error;
  encodeDefineAttributeListIdInput :
    list string -> tube -> W -> option error * W;
  decodeDefineAttributeListIdOutput : tube -> W -> result Z * W;
  encodeDefineAttributeListInput : Z -> tube -> W -> option error * W;
  decodeDefineAttributeListOutput : tube -> W -> result (list string) * W
}.

Arguments service {W}.
Arguments pool_getWithContext {W}.
Arguments pool_setDeadline {W}.
Arguments ctx_Err {W}.
Arguments pool_put {W}.
Arguments pool_closeTube {W}.
Arguments credentials_Retrieve {W}.
Arguments time_Now_Unix {W}.
Arguments encodeAuthInput {W}.
Arguments writer_Flush {W}.
Arguments decodeError {W}.
Arguments authError {W}.
Arguments SleepWithContext {W}.
Arguments translateError {W}.
Arguments encodeDefineAttributeListIdInput {W}.
Arguments decodeDefineAttributeListIdOutput {W}.
Arguments encodeDefineAttributeListInput {W}.
Arguments decodeDefineAttributeListOutput {W}.

Section WithCollaborators.

Context {W : Type} (env : collaborators W).

Local Open Scope eff_scope.

Abbreviation M := (Eff.M W event).

Definition put (t : tube) : M unit :=
  emit (PoolPut t) ;; modify (pool_put env t).

Definition closeTube (t : tube) : M unit :=
  emit (PoolCloseTube t) ;; modify (pool_closeTube env t).

Definition isHighPriority (op : string) : bool :=
  String.eqb op opDefineAttributeListId
  || String.eqb op opDefineAttributeList
  || String.eqb op opDefineKeySchema.

(** [recycleTube]; [t] and [err] may be nil. *)
Definition recycleTube (t : option tube) (err : option error) : M unit :=
  match t with
  | None => ret tt
  | Some t =>
      match err with
      | None => put t
      | Some e =>
          match e with
          | DaxRequestFailure _ _ _ =>
              if authError env e
              then now <- lift (time_Now_Unix env) ;;
                   put (SetAuthExpiryUnix now t)
              else put t
          | _ => closeTube t
          end
      end
  end.

(** [auth]: the error, and the tube as the call leaves it. *)
Definition auth (t : tube) : M (option error * tube) :=
  r <- lift (credentials_Retrieve env) ;;
  match r with
  | Err e => ret (Some e, t)
  | Ok creds =>
      now <- lift (time_Now_Unix env) ;;
      let '(changed, t1) := CompareAndSwapAuthID (AccessKeyID creds) t in
      if changed || (authExpiryUnix t1 <=? now)
      then
        e1 <- lift (encodeAuthInput env creds now t1) ;;
        match e1 with
        | Some e => ret (Some e, t1)
        | None =>
            e2 <- lift (writer_Flush env t1) ;;
            match e2 with
            | Some e => ret (Some e, t1)
            | None =>
                ret (None, SetAuthExpiryUnix (now + tubeAuthWindowSecs) t1)
            end
        end
      else ret (None, t1)
  end.

(** [executeWithContext].  The decoder closure of the callers assigns the
    decoded output to a captured variable; here it returns it, and the
    pipeline hands it on when the request succeeded.  Metric recording
    (the deferred function) is left out. *)
Definition executeWithContext {A : Type} (op : string)
    (encoder : tube -> W -> option error * W)
    (decoder : tube -> W -> result A * W)
    : M (option A * option error) :=
  emit (Attempt op) ;;
  r <- lift (pool_getWithContext env (isHighPriority op)) ;;
  match r with
  | Err e => ret (None, Some e)
  | Ok t =>
      e0 <- lift (pool_setDeadline env t) ;;
      match e0 with
      | Some e =>
          ce <- read (ctx_Err env) ;;
          match ce with
          | Some c =>
              if error_eqb e c
              then put t ;; ret (None, Some e)
              else closeTube t ;; ret (None, Some e)
          | None => closeTube t ;; ret (None, Some e)
          end
      | None =>
          ' (e1, t) <- auth t ;;
          match e1 with
          | Some e => closeTube t ;; ret (None, Some e)
          | None =>
              e2 <- lift (encoder t) ;;
              match e2 with
              | Some e => closeTube t ;; ret (None, Some e)
              | None =>
                  e3 <- lift (writer_Flush env t) ;;
                  match e3 with
                  | Some e => closeTube t ;; ret (None, Some e)
                  | None =>
                      ' (ex, e4) <- lift (decodeError env t) ;;
                      match e4 with
                      | Some e => closeTube t ;; ret (None, Some e)
                      | None =>
                          match ex with
                          | Some x =>
                              recycleTube (Some t) (Some x) ;;
                              ret (None, Some x)
                          | None =>
                              d <- lift (decoder t) ;;
                              match d with
                              | Err e => closeTube t ;; ret (None, Some e)
                              | Ok a => put t ;; ret (Some a, None)
                              end
                          end
                      end
                  end
              end
          end
      end
  end.

(** The body of [for i := 0; i <= attempts; i++] in [executeWithRetries],
    with [n] iterations to go and [err] the error of the last attempt. *)
Fixpoint executeWithRetries_loop {A : Type} (n : nat) (i attempts : Z)
    (op : string) (o : RequestOptions)
    (encoder : tube -> W -> option error * W)
    (decoder : tube -> W -> result A * W)
    (err : option error) : M (option A * option error) :=
  match n with
  | O => ret (None, translateError env err)
  | S n' =>
      ' (out, err) <- executeWithContext op encoder decoder ;;
      match err with
      | None => ret (out, None)
      | Some e =>
          if errors_Is_Canceled e then ret (None, Some (CanceledError e))
          else if negb (i =? attempts)
          then
            emit (Slept op (RetryDelay o)) ;;
            sleepErr <- lift (SleepWithContext env op (RetryDelay o)) ;;
            match sleepErr with
            | Some se => ret (None, Some (OperationError (service env) op se))
            | None =>
                executeWithRetries_loop n' (i + 1) attempts op o
                  encoder decoder (Some e)
            end
          else
            executeWithRetries_loop n' (i + 1) attempts op o
              encoder decoder (Some e)
      end
  end.

(** [executeWithRetries]: the loop runs for [i = 0 .. attempts]. *)
Definition executeWithRetries {A : Type} (op : string) (o : RequestOptions)
    (encoder : tube -> W -> option error * W)
    (decoder : tube -> W -> result A * W)
    : M (option A * option error) :=
  let attempts := RetryMaxAttempts o in
  executeWithRetries_loop (Z.to_nat (attempts + 1)) 0 attempts op o
    encoder decoder None.

Definition defineAttributeListId (attrNames : list string)
    : M (Z * option error) :=
  if Nat.eqb (length attrNames) 0 then ret (emptyAttributeListId, None)
  else
    ' (out, err) <-
      executeWithRetries opDefineAttributeListId zeroOptions
        (encodeDefineAttributeListIdInput env attrNames)
        (decodeDefineAttributeListIdOutput env) ;;
    match err with
    | Some e => ret (0, Some e)
    | None => ret (default 0 out, None)
    end.

Definition defineAttributeList (id : Z)
    : M (list string * option error) :=
  if id =? emptyAttributeListId then ret ([], None)
  else
    ' (out, err) <-
      executeWithRetries opDefineAttributeList zeroOptions
        (encodeDefineAttributeListInput env id)
        (decodeDefineAttributeListOutput env) ;;
    match err with
    | Some e => ret ([], Some e)
    | None => ret (default [] out, None)
    end.

End WithCollaborators.

(** A node for running examples, in the manner of the repository's mock
    connections: one tube, credentials that do not change, a clock that
    stands still; the pool, the context and the server answer as the
    three arguments say.  A sleep fails when the context is done. *)
Definition mockTube : tube := mkTube 7 "" 0.
Definition mockCredentials : Credentials := mkCredentials "id" "secret" "token".
Definition mockNow : Z := 1700000000.

(** Modelled from the spec: the code-sequence prefix of an
    authentication problem ("{4,23,31,33} (authentication-required)"),
    for the mock node only. *)
Definition mockAuthError (e : error) : bool :=
  match e with
  | DaxRequestFailure (4 :: 23 :: 31 :: _) _ _ => true
  | _ => false
  end.

Definition mockNode (poolErr ctxErr serverErr : option error)
    : collaborators unit :=
  {| service := "dax";
     pool_getWithContext := fun _ w =>
       (match poolErr with Some e => Err e | None => Ok mockTube end, w);
     pool_setDeadline := fun _ w => (ctxErr, w);
     ctx_Err := fun _ => ctxErr;
     pool_put := fun _ w => w;
     pool_closeTube := fun _ w => w;
     credentials_Retrieve := fun w => (Ok mockCredentials, w);
     time_Now_Unix := fun w => (mockNow, w);
     encodeAuthInput := fun _ _ _ w => (None, w);
     writer_Flush := fun _ w => (None, w);
     decodeError := fun _ w => ((serverErr, None), w);
     authError := mockAuthError;
     SleepWithContext := fun op _ w =>
       (option_map (OperationError "dax" op) ctxErr, w);
     translateError := fun e => e;
     encodeDefineAttributeListIdInput := fun _ _ w => (None, w);
     decodeDefineAttributeListIdOutput := fun _ w => (Ok 2, w);
     encodeDefineAttributeListInput := fun _ _ w => (None, w);
     decodeDefineAttributeListOutput := fun _ w => (Ok ["a"], w) |}.

Definition mockEncoder (t : tube) (w : unit) : option error * unit := (None, w).
Definition mockDecoder (t : tube) (w : unit) : result unit * unit := (Ok tt, w).

(** [RequestOptions{}] with [RetryMaxAttempts] set. *)
Definition optionsWithAttempts (n : Z) : RequestOptions :=
  set_RetryMaxAttempts n zeroOptions.

(** Trace queries. *)
Definition is_attempt (e : event) : bool :=
  match e with Attempt _ => true | _ => false end.

Definition is_sleep (e : event) : bool :=
  match e with Slept _ _ => true | _ => false end.

Definition attempts_of (t : list event) : nat :=
  length (List.filter is_attempt t).

Definition sleeps_of (t : list event) : nat :=
  length (List.filter is_sleep t).

End Single.

(** ** cluster.go: the cluster client's retry loop *)

Module ClusterClient.

Import Single.

(** What the retry loop does that others can observe: it runs the
    per-node action on a client with some options, and it sleeps. *)
Inductive event : Type :=
| Action (client : DaxAPI) (o : RequestOptions)
| Backoff (op : string) (delay : Z).

(** The collaborators of the loop whose code is not among the sources at
    hand. *)
Record collaborators (W : Type) : Type := mkCollaborators {
  service : string;
  (** [routeManager.getRoute(prev)] under the cluster's read lock *)
  getRoute : DaxAPI -> W -> DaxAPI * W;
  (** the text of [lastRefreshError()] under [%v] *)
  lastRefreshErrorText : W -> string;
  isRetryable : RequestOptions -> error -> bool;
  (** [err.(daxError)] and [convertDaxError] *)
  isDaxError : error -> bool;
  convertDaxError : error -> error;
  SleepWithContext : string -> Z -> W -> option error * W
}.

Arguments service {W}.
Arguments getRoute {W}.
Arguments lastRefreshErrorText {W}.
Arguments isRetryable {W}.
Arguments isDaxError {W}.
Arguments convertDaxError {W}.
Arguments SleepWithContext {W}.

Section WithCollaborators.

Context {W : Type} (env : collaborators W).

Local Open Scope eff_scope.

Abbreviation M := (Eff.M W event).

(** [cluster.client(prev, op)]: the Go pair [(DaxAPI, error)]. *)
Definition cluster_client (prev : DaxAPI) (op : string)
    : M (DaxAPI * option error) :=
  route <- lift (getRoute env prev) ;;
  match route with
  | None =>
      txt <- read (lastRefreshErrorText env) ;;
      ret (None,
           Some (OperationError (service env) op
                   (ErrorString
                      ("no routes found. lastRefreshError: " ++ txt)%string)))
  | Some _ => ret (route, None)
  end.

(** One pass through the head of the loop body: pick a client, and run
    the action on it when there is one.  The client picked (nil on
    error) and the error. *)
Definition attempt (op : string)
    (action : DaxAPI -> RequestOptions -> W -> option error * W)
    (opt : RequestOptions) (client : DaxAPI) : M (DaxAPI * option error) :=
  ' (client, cerr) <- cluster_client client op ;;
  match cerr with
  | None =>
      emit (Action client opt) ;;
      err <- lift (action client opt) ;;
      ret (client, err)
  | Some e => ret (client, Some e)
  end.

(** The body of [for i := 0; i <= attempts; i++] in [retry], with [n]
    iterations to go; [opt] already has [RetryMaxAttempts = 0]. *)
Fixpoint retry_loop (n : nat) (i attempts : Z) (op : string)
    (action : DaxAPI -> RequestOptions -> W -> option error * W)
    (opt : RequestOptions) (client : DaxAPI) (err : option error)
    : M (option error) :=
  match n with
  | O => ret err
  | S n' =>
      ' (client, err) <- attempt op action opt client ;;
      match err with
      | None => ret None
      | Some e =>
          if negb (isRetryable env opt e) then ret (Some e)
          else if negb (i =? attempts)
          then
            let delay := Retryer_RetryDelay opt (i + 1) e in
            let delay := if delay =? 0 then RetryDelay opt else delay in
            if 0 <? delay
            then
              emit (Backoff op delay) ;;
              serr <- lift (SleepWithContext env op delay) ;;
              match serr with
              | Some se => ret (Some se)
              | None =>
                  (* [err = SleepWithContext(...)] has overwritten [err] *)
                  retry_loop n' (i + 1) attempts op action opt client None
              end
            else retry_loop n' (i + 1) attempts op action opt client (Some e)
          else retry_loop n' (i + 1) attempts op action opt client (Some e)
      end
  end.

(** The deferred function of [retry]. *)
Definition convertOnReturn (err : option error) : option error :=
  match err with
  | Some e => if isDaxError env e then Some (convertDaxError env e) else Some e
  | None => None
  end.

Definition retry (op : string)
    (action : DaxAPI -> RequestOptions -> W -> option error * W)
    (opt : RequestOptions) : M (option error) :=
  let attempts := RetryMaxAttempts opt in
  let opt := set_RetryMaxAttempts 0 opt in
  err <- retry_loop (Z.to_nat (attempts + 1)) 0 attempts op action opt
           None None ;;
  ret (convertOnReturn err).

End WithCollaborators.

(** A cluster for running examples: one route, no sleep that fails.
    Modelled from the spec: its [isRetryable] follows "a daxRequestFailure
    is retryable iff its numeric code sequence begins with one of the
    recoverable prefixes {1}, {2}, {4,23,31,33}"; cancellations and every
    other error are not retried. *)
Definition mockRoute : client := mkClient 0 true true.

Definition mockRetryable (e : error) : bool :=
  match e with
  | DaxRequestFailure (1 :: _) _ _ => true
  | DaxRequestFailure (2 :: _) _ _ => true
  | DaxRequestFailure (4 :: 23 :: 31 :: 33 :: _) _ _ => true
  | _ => false
  end.

Definition mockCluster : collaborators unit :=
  {| service := "dax";
     getRoute := fun _ w => (Some mockRoute, w);
     lastRefreshErrorText := fun _ => "<nil>";
     isRetryable := fun _ e => mockRetryable e;
     isDaxError := fun e =>
       match e with
       | DaxRequestFailure _ _ _ => true
       | DaxTransactionCanceledFailure _ _ _ => true
       | _ => false
       end;
     convertDaxError := fun e => e;
     SleepWithContext := fun _ _ w => (None, w) |}.

(** An action that always fails with the given error. *)
Definition failingAction (e : error) (_ : DaxAPI) (_ : RequestOptions)
    (w : unit) : option error * unit := (Some e, w).

(** Trace queries. *)
Definition is_action (e : event) : bool :=
  match e with Action _ _ => true | _ => false end.

Definition actions_of (t : list event) : list RequestOptions :=
  omap (fun e => match e with Action _ o => Some o | _ => None end) t.

End ClusterClient.

(** ** cbor: the wire primitives *)

Module Cbor.

(** Modelled from the spec: the major types, masks, simple values and
    standard tags of the cbor package (its constants file is not among
    the sources at hand): "major types positive int, negative int, byte
    string, text string, array, map, tag, simple", "standard big-int
    positive and negative, the decimal tag". *)
Definition PosInt : Z := 0.
Definition NegInt : Z := 32.
Definition Bytes : Z := 64.
Definition Utf : Z := 96.
Definition Array : Z := 128.
Definition Map : Z := 160.
Definition Tag : Z := 192.
Definition Simple : Z := 224.
Definition MajorTypeMask : Z := 224.
Definition MinorTypeMask : Z := 31.
Definition False_ : Z := Simple + 20.
Definition True_ : Z := Simple + 21.
Definition Nil : Z := Simple + 22.
Definition TagPosBigInt : Z := 2.
Definition TagNegBigInt : Z := 3.
Definition TagDecimal : Z := 4.

(** [const ( tagStringSet = 3321 + iota ... )] of attrval.go. *)
Definition tagStringSet : Z := 3321.
Definition tagNumberSet : Z := 3322.
Definition tagBinarySet : Z := 3323.
Definition tagDocumentPathOrdinal : Z := 3324.

(** Bytes as numbers. *)
Definition byte_of_Z (z : Z) : byte :=
  match Byte.of_N (Z.to_N (z mod 256)) with
  | Some b => b
  | None => x00
  end.

Definition Z_of_byte (b : byte) : Z := Z.of_N (Byte.to_N b).

(** [n] bytes of [v], most significant first. *)
Fixpoint be_bytes (n : nat) (v : Z) : list byte :=
  match n with
  | O => []
  | S k => byte_of_Z (v / 256 ^ Z.of_nat k) :: be_bytes k v
  end.

Definition be_value (bs : list byte) : Z :=
  fold_left (fun acc b => acc * 256 + Z_of_byte b) bs 0.

(** The number of bytes of [big.Int.Bytes()]: none for zero. *)
Definition byte_length (v : Z) : nat :=
  if v <=? 0 then O else Z.to_nat (Z.log2 v / 8 + 1).

(** *** Writer *)

(** The bytes a [Writer] has been given so far (what its buffer holds
    after [Flush]); a write returns Go's [error]. *)
Definition Writer : Type := list byte.
Definition write : Type := Writer -> option error * Writer.

Definition emitBytes (bs : list byte) : write := fun w => (None, w ++ bs).
Definition failWith (e : error) : write := fun w => (Some e, w).
Definition done : write := fun w => (None, w).

(** [if err := a; err != nil { return err }; b] *)
Definition andThen (a b : write) : write :=
  fun w =>
    match a w with
    | (None, w') => b w'
    | (Some e, w') => (Some e, w')
    end.

Declare Scope write_scope.
Delimit Scope write_scope with write.
Notation "a ;;; b" := (andThen a b)
  (at level 100, b at level 200, right associativity) : write_scope.

(** [for _, x := range xs { if err := f(x); err != nil { return err } }] *)
Fixpoint forEach {A : Type} (f : A -> write) (xs : list A) : write :=
  match xs with
  | [] => done
  | x :: xs' => andThen (f x) (forEach f xs')
  end.

(** Modelled from the spec: the header a [Writer] puts before every item
    (the writer's file is not among the sources at hand): a
    "self-describing binary" item starts with its major type and either
    the value itself (below 24) or the width of the big-endian value that
    follows (1, 2, 4 or 8 bytes). *)
Definition header (major value : Z) : list byte :=
  if value <? 24 then [byte_of_Z (Z.lor major value)]
  else if value <? 2 ^ 8 then byte_of_Z (Z.lor major 24) :: be_bytes 1 value
  else if value <? 2 ^ 16 then byte_of_Z (Z.lor major 25) :: be_bytes 2 value
  else if value <? 2 ^ 32 then byte_of_Z (Z.lor major 26) :: be_bytes 4 value
  else byte_of_Z (Z.lor major 27) :: be_bytes 8 value.

(** Modelled from the spec: [Writer.writeType]. *)
Definition writeType (major value : Z) : write := emitBytes (header major value).

(** Modelled from the spec: [Writer.WriteString]: "major-type text string
    with the UTF-8 bytes and length header". *)
Definition WriteString (s : string) : write :=
  emitBytes (header Utf (Z.of_nat (String.length s)) ++ list_byte_of_string s).

(** Modelled from the spec: [Writer.WriteBytes]: "major-type byte
    string". *)
Definition WriteBytes (b : list byte) : write :=
  emitBytes (header Bytes (Z.of_nat (length b)) ++ b).

(** Modelled from the spec: [Writer.WriteArrayHeader] and
    [Writer.WriteMapHeader]: "array header", "map header". *)
Definition WriteArrayHeader (n : nat) : write := writeType Array (Z.of_nat n).
Definition WriteMapHeader (n : nat) : write := writeType Map (Z.of_nat n).

(** Modelled from the spec: [Writer.WriteBoolean] and [Writer.WriteNull]:
    "simple-type true/false", "simple-type nil". *)
Definition WriteBoolean (b : bool) : write :=
  emitBytes [byte_of_Z (if b then True_ else False_)].
Definition WriteNull : write := emitBytes [byte_of_Z Nil].

(** Modelled from the spec: [Writer.WriteInt64]: "emit as a positive or
    negative integer major type"; a negative [i] is carried as [-1 - i]. *)
Definition WriteInt64 (i : Z) : write :=
  if 0 <=? i then writeType PosInt i else writeType NegInt (-1 - i).

(** Modelled from the spec: [Writer.WriteBigInt]: "emit a
    positive/negative big-int tag", followed by the magnitude as a byte
    string; a negative [v] is carried as [-1 - v]. *)
Definition WriteBigInt (v : Z) : write :=
  if 0 <=? v
  then emitBytes (header Tag TagPosBigInt
                  ++ header Bytes (Z.of_nat (byte_length v))
                  ++ be_bytes (byte_length v) v)
  else emitBytes (header Tag TagNegBigInt
                  ++ header Bytes (Z.of_nat (byte_length (-1 - v)))
                  ++ be_bytes (byte_length (-1 - v)) (-1 - v)).

(** *** Reader *)

(** The bytes a [Reader] has not consumed yet; a read returns its value
    and the reader afterwards, or Go's [error]. *)
Definition Reader : Type := list byte.
Definition read (A : Type) : Type := Reader -> result (A * Reader).

Definition bindR {A B : Type} (m : result A) (k : A -> result B) : result B :=
  match m with
  | Ok a => k a
  | Err e => Err e
  end.

Declare Scope read_scope.
Delimit Scope read_scope with read.
Notation "x <- m ;; k" := (bindR m (fun x => k))
  (at level 20, m at level 99, k at level 200, only parsing) : read_scope.
Notation "' p <- m ;; k" := (bindR m (fun x => let 'p := x in k))
  (at level 20, p pattern, m at level 99, k at level 200, only parsing)
  : read_scope.

Definition errEOF : error := ErrorString "EOF".
Definition errUnexpectedEOF : error := ErrorString "unexpected EOF".

(** Modelled from the spec: [Reader.PeekHeader]: the first byte of the
    next item, left in place. *)
Definition PeekHeader : read Z :=
  fun r =>
    match r with
    | [] => Err errEOF
    | b :: _ => Ok (Z_of_byte b, r)
    end.

(** [n] bytes off the reader. *)
Definition readFull (n : nat) : read (list byte) :=
  fun r =>
    if Nat.leb n (length r) then Ok (firstn n r, skipn n r)
    else Err errUnexpectedEOF.

(** Modelled from the spec: [Reader.readTypeHeader]: the major type and
    the value of a header, the inverse of [header]. *)
Definition readTypeHeader : read (Z * Z) :=
  fun r =>
    match r with
    | [] => Err errEOF
    | b :: r' =>
        let hdr := Z_of_byte b in
        let major := Z.land hdr MajorTypeMask in
        let minor := Z.land hdr MinorTypeMask in
        let wide (n : nat) :=
          bindR (readFull n r') (fun '(bs, r'') => Ok (major, be_value bs, r'')) in
        if minor <? 24 then Ok (major, minor, r')
        else if minor =? 24 then wide 1%nat
        else if minor =? 25 then wide 2%nat
        else if minor =? 26 then wide 4%nat
        else if minor =? 27 then wide 8%nat
        else Err (DeserializationError "cbor: invalid additional information")
    end.

Definition expectedMajor (want got : Z) : error :=
  DeserializationError
    ("cbor: expected major type " ++ FormatInt want ++ ", got " ++ FormatInt got)%string.

(** A header of the given major type; its value. *)
Definition readHeaderOf (want : Z) : read Z :=
  fun r =>
    bindR (readTypeHeader r) (fun '(major, value, r') =>
      if major =? want then Ok (value, r')
      else Err (expectedMajor want major)).

(** Modelled from the spec: [Reader.ReadString] and [Reader.ReadBytes]. *)
Definition ReadBytes : read (list byte) :=
  fun r =>
    bindR (readHeaderOf Bytes r) (fun '(n, r') => readFull (Z.to_nat n) r').

Definition ReadString : read string :=
  fun r =>
    bindR (readHeaderOf Utf r) (fun '(n, r') =>
      bindR (readFull (Z.to_nat n) r') (fun '(bs, r'') =>
        Ok (string_of_list_byte bs, r''))).

(** Modelled from the spec: [Reader.ReadArrayLength] and
    [Reader.ReadMapLength]; the value becomes a Go [int]. *)
Definition ReadArrayLength : read Z :=
  fun r => bindR (readHeaderOf Array r) (fun '(n, r') => Ok (int_wrap n, r')).
Definition ReadMapLength : read Z :=
  fun r => bindR (readHeaderOf Map r) (fun '(n, r') => Ok (int_wrap n, r')).

(** Modelled from the spec: [Reader.ReadCborIntegerToString]: "integers
    (positive and negative) decode to N via a canonical string formatter
    that preserves arbitrary precision". *)
Definition ReadCborIntegerToString : read string :=
  fun r =>
    bindR (readTypeHeader r) (fun '(major, value, r') =>
      if major =? PosInt then Ok (FormatInt value, r')
      else if major =? NegInt then Ok (FormatInt (-1 - value), r')
      else Err (expectedMajor PosInt major)).

(** Modelled from the spec: [Reader.ReadBigInt]: "Tags 2 and 3 (standard
    positive/negative big integer)". *)
Definition ReadBigInt : read Z :=
  fun r =>
    bindR (readHeaderOf Tag r) (fun '(tag, r') =>
      bindR (ReadBytes r') (fun '(bs, r'') =>
        if tag =? TagPosBigInt then Ok (be_value bs, r'')
        else if tag =? TagNegBigInt then Ok (-1 - be_value bs, r'')
        else Err (DeserializationError "cbor: expected a big integer tag"))).

(** *** The bytes of an item *)

(** The eight major types. *)
Definition majors : list Z := [PosInt; NegInt; Bytes; Utf; Array; Map; Tag; Simple].

(** The first byte of an item carries the major type in its top three
    bits and 0..31 in the rest; checked over all 256 combinations. *)
Definition first_byte_ok (major k : Z) : bool :=
  let b := Z_of_byte (byte_of_Z (Z.lor major k)) in
  (Z.land b MajorTypeMask =? major) && (Z.land b MinorTypeMask =? k).

(** The additional information of a header: the value itself below 24,
    else the code of its width. *)
Definition info (value : Z) : Z :=
  if value <? 24 then value
  else if value <? 2 ^ 8 then 24
  else if value <? 2 ^ 16 then 25
  else if value <? 2 ^ 32 then 26
  else 27.

(** The bytes of a text string and of a byte string. *)
Definition stringBytes (s : string) : list byte :=
  header Utf (Z.of_nat (String.length s)) ++ list_byte_of_string s.

Definition bytesBytes (b : list byte) : list byte :=
  header Bytes (Z.of_nat (length b)) ++ b.

(** The bytes of [WriteBigInt]. *)
Definition bigIntBytes (v : Z) : list byte :=
  if 0 <=? v
  then header Tag TagPosBigInt
       ++ header Bytes (Z.of_nat (byte_length v)) ++ be_bytes (byte_length v) v
  else header Tag TagNegBigInt
       ++ header Bytes (Z.of_nat (byte_length (-1 - v)))
       ++ be_bytes (byte_length (-1 - v)) (-1 - v).

(** *** Numbers beyond int64 *)

(** The arbitrary-precision [Decimal] of the cbor package (its file is not
    among the sources at hand, and the spec names it only as "arbitrary-
    precision decimal" with "a decimal string formatter"), together with
    the one value Go's documentation leaves undefined: the receiver of a
    failed [big.Int.SetString]. *)
Class Numbers : Type := mkNumbers {
  Decimal : Type;
  Decimal_SetString : string -> option Decimal;
  Decimal_String : Decimal -> string;
  (** what [WriteDecimal] writes after the decimal tag, and its reader *)
  Decimal_body : Decimal -> list byte;
  ReadDecimal_body : read Decimal;
  bigInt_afterFailedSetString : string -> Z
}.

Section WithNumbers.

Context {numbers : Numbers}.

(** Modelled from the spec: [Writer.WriteDecimal]: "emit a decimal
    tag". *)
Definition WriteDecimal (d : Decimal) : write :=
  emitBytes (header Tag TagDecimal ++ Decimal_body d).

(** Modelled from the spec: [Reader.ReadDecimal]: "the decimal tag
    decodes to N using a decimal string formatter". *)
Definition ReadDecimal : read Decimal :=
  fun r =>
    bindR (readHeaderOf Tag r) (fun '(tag, r') =>
      if tag =? TagDecimal then ReadDecimal_body r'
      else Err (DeserializationError "cbor: expected the decimal tag")).

(** ** cbor/attrval.go *)

(** [types.AttributeValue]: the nil interface and the ten members the
    codec handles.  A Go map is written as the list of its entries in the
    order a [range] visits them; its keys are distinct. *)
Inductive AttributeValue : Type :=
| AttributeValueNil
| AttributeValueMemberS (Value : string)
| AttributeValueMemberN (Value : string)
| AttributeValueMemberB (Value : list byte)
| AttributeValueMemberSS (Value : list string)
| AttributeValueMemberNS (Value : list string)
| AttributeValueMemberBS (Value : list (list byte))
| AttributeValueMemberL (Value : list AttributeValue)
| AttributeValueMemberM (Value : list (string * AttributeValue))
| AttributeValueMemberBOOL (Value : bool)
| AttributeValueMemberNULL (Value : bool).

(** [strings.IndexAny(val, chars) >= 0] *)
Fixpoint containsAny (val chars : string) : bool :=
  match val with
  | EmptyString => false
  | String c val' =>
      match String.index 0 (String c EmptyString) chars with
      | Some _ => true
      | None => containsAny val' chars
      end
  end.

Definition invalidNumber (val : string) : error :=
  SerializationError ("invalid number " ++ val)%string.

Definition writeStringNumber (val : string) : write :=
  if containsAny val ".eE" then
    match Decimal_SetString val with
    | None => failWith (invalidNumber val)
    | Some dec => WriteDecimal dec
    end
  else if Nat.ltb 18 (String.length val) then
    (* the result of [bint.SetString(val, 10)] is not looked at *)
    let bint :=
      match parseSigned val with
      | Some z => z
      | None => bigInt_afterFailedSetString val
      end in
    WriteBigInt bint
  else
    match ParseInt64 val with
    | None => failWith (invalidNumber val)
    | Some i => WriteInt64 i
    end.

Local Open Scope write_scope.

Fixpoint EncodeAttributeValue (value : AttributeValue) : write :=
  match value with
  | AttributeValueNil =>
      failWith (SerializationError "invalid attribute value: nil")
  | AttributeValueMemberS v => WriteString v
  | AttributeValueMemberN v => writeStringNumber v
  | AttributeValueMemberB v => WriteBytes v
  | AttributeValueMemberSS v =>
      if Nat.eqb (length v) 0
      then failWith (SerializationError "invalid string set: nil or empty")
      else
        writeType Tag tagStringSet ;;;
        WriteArrayHeader (length v) ;;;
        forEach WriteString v
  | AttributeValueMemberNS v =>
      if Nat.eqb (length v) 0
      then failWith (SerializationError "invalid number set: nil or empty")
      else
        writeType Tag tagNumberSet ;;;
        WriteArrayHeader (length v) ;;;
        forEach writeStringNumber v
  | AttributeValueMemberBS v =>
      if Nat.eqb (length v) 0
      then failWith (SerializationError "invalid binary set: nil or empty")
      else
        writeType Tag tagBinarySet ;;;
        WriteArrayHeader (length v) ;;;
        forEach WriteBytes v
  | AttributeValueMemberL v =>
      WriteArrayHeader (length v) ;;;
      (fix each (vs : list AttributeValue) : write :=
         match vs with
         | [] => done
         | x :: vs' => EncodeAttributeValue x ;;; each vs'
         end) v
  | AttributeValueMemberM v =>
      WriteMapHeader (length v) ;;;
      (fix each (kvs : list (string * AttributeValue)) : write :=
         match kvs with
         | [] => done
         | (k, x) :: kvs' =>
             WriteString k ;;; EncodeAttributeValue x ;;; each kvs'
         end) v
  | AttributeValueMemberBOOL v => WriteBoolean v
  | AttributeValueMemberNULL v =>
      if negb v
      then failWith (SerializationError "invalid null attribute value")
      else WriteNull
  end.

Local Close Scope write_scope.

(** [m[k] = v] on a map kept as its entry list. *)
Fixpoint map_set {A : Type} (k : string) (v : A) (m : list (string * A))
    : list (string * A) :=
  match m with
  | [] => [(k, v)]
  | (k', v') :: m' =>
      if String.eqb k k' then (k, v) :: m' else (k', v') :: map_set k v m'
  end.

Definition makeslicePanic : error :=
  ErrorString "panic: runtime error: makeslice: len out of range".

(** [for i := 0; i < len; i++ { x, err := f(reader); ...; xs[i] = x }] *)
Fixpoint readN {A : Type} (f : read A) (n : nat) : read (list A) :=
  fun r =>
    match n with
    | O => Ok ([], r)
    | S n' =>
        bindR (f r) (fun '(x, r') =>
          bindR (readN f n' r') (fun '(xs, r'') => Ok (x :: xs, r'')))
    end.

(** The loop of the [Map] case: a key, a value, [m[k] = v]. *)
Fixpoint readEntries (f : read AttributeValue) (n : nat)
    (m : list (string * AttributeValue))
    : read (list (string * AttributeValue)) :=
  fun r =>
    match n with
    | O => Ok (m, r)
    | S n' =>
        bindR (ReadString r) (fun '(k, r') =>
          bindR (f r') (fun '(v, r'') =>
            readEntries f n' (map_set k v m) r''))
    end.

(** An element of a number set: any item that decodes to [N]. *)
Definition readNumberMember (f : read AttributeValue) : read string :=
  fun r =>
    bindR (f r) (fun '(av, r') =>
      match av with
      | AttributeValueMemberN n => Ok (n, r')
      | _ => Err (DeserializationError "attribute type is not number")
      end).

(** [make([]T, len)] then the loop, for a length read off the wire. *)
Definition readSlice {A : Type} (f : read A) (len : Z) : read (list A) :=
  fun r => if len <? 0 then Err makeslicePanic else readN f (Z.to_nat len) r.

Definition outOfFuel : error := ErrorString "decoder recursion budget exhausted".

(** [DecodeAttributeValue], by recursion on a budget of nested items. *)
Fixpoint DecodeAttributeValue_fuel (fuel : nat) : read AttributeValue :=
  fun reader =>
    match fuel with
    | O => Err outOfFuel
    | S fuel' =>
        let recur := DecodeAttributeValue_fuel fuel' in
        bindR (PeekHeader reader) (fun '(hdr, _) =>
          let major := Z.land hdr MajorTypeMask in
          let minor := Z.land hdr MinorTypeMask in
          if major =? Utf then
            bindR (ReadString reader) (fun '(s, r) =>
              Ok (AttributeValueMemberS s, r))
          else if major =? Bytes then
            bindR (ReadBytes reader) (fun '(b, r) =>
              Ok (AttributeValueMemberB b, r))
          else if major =? Array then
            bindR (ReadArrayLength reader) (fun '(len, r) =>
              bindR (readSlice recur len r) (fun '(vs, r') =>
                Ok (AttributeValueMemberL vs, r')))
          else if major =? Map then
            bindR (ReadMapLength reader) (fun '(len, r) =>
              if len <? 0 then Err makeslicePanic
              else
                bindR (readEntries recur (Z.to_nat len) [] r) (fun '(m, r') =>
                  Ok (AttributeValueMemberM m, r')))
          else if (major =? PosInt) || (major =? NegInt) then
            bindR (ReadCborIntegerToString reader) (fun '(s, r) =>
              Ok (AttributeValueMemberN s, r))
          else if major =? Simple then
            bindR (readTypeHeader reader) (fun '(_, _, r) =>
              if hdr =? False_ then Ok (AttributeValueMemberBOOL false, r)
              else if hdr =? True_ then Ok (AttributeValueMemberBOOL true, r)
              else if hdr =? Nil then Ok (AttributeValueMemberNULL true, r)
              else Err (DeserializationError
                          ("unknown minor type " ++ FormatInt minor
                           ++ " for simple major type")%string))
          else if major =? Tag then
            if (minor =? TagPosBigInt) || (minor =? TagNegBigInt) then
              bindR (ReadBigInt reader) (fun '(i, r) =>
                Ok (AttributeValueMemberN (FormatInt i), r))
            else if minor =? TagDecimal then
              bindR (ReadDecimal reader) (fun '(d, r) =>
                Ok (AttributeValueMemberN (Decimal_String d), r))
            else
              bindR (readTypeHeader reader) (fun '(_, tag, r) =>
                if tag =? tagStringSet then
                  bindR (ReadArrayLength r) (fun '(len, r') =>
                    bindR (readSlice ReadString len r') (fun '(ss, r'') =>
                      Ok (AttributeValueMemberSS ss, r'')))
                else if tag =? tagNumberSet then
                  bindR (ReadArrayLength r) (fun '(len, r') =>
                    bindR (readSlice (readNumberMember recur) len r')
                      (fun '(ss, r'') => Ok (AttributeValueMemberNS ss, r'')))
                else if tag =? tagBinarySet then
                  bindR (ReadArrayLength r) (fun '(len, r') =>
                    bindR (readSlice ReadBytes len r') (fun '(bs, r'') =>
                      Ok (AttributeValueMemberBS bs, r'')))
                else Err (DeserializationError
                            ("unknown minor type " ++ FormatInt minor
                             ++ " or tag " ++ FormatInt tag)%string))
          else Err (DeserializationError
                      ("unknown major type " ++ FormatInt major)%string))
    end.

(** [DecodeAttributeValue]: every nested item starts with a byte of its
    own, so the length of the input bounds the nesting. *)
Definition DecodeAttributeValue : read AttributeValue :=
  fun reader => DecodeAttributeValue_fuel (S (length reader)) reader.

(** Encoding into a fresh buffer: the error and the bytes written. *)
Definition encode (value : AttributeValue) : option error * list byte :=
  EncodeAttributeValue value [].

(** *** The values that survive a round trip *)

(** A length that a Go [int] holds. *)
Definition fitsInt (n : nat) : bool := Z.of_nat n <=? maxInt.

(** A number string in the spelling the decoder's formatter produces for
    an integer: digits with an optional ['-'], no ['+'], no leading zero,
    no ["-0"]. *)
Definition canonicalInt (s : string) : bool :=
  match NilZero.int_of_string s with
  | Some d => if Decimal.int_eq_dec (norm d) d then true else false
  | None => false
  end.

(** An attribute value that comes back as it went in whatever [Decimal]
    does, all the way down: no nil member, no empty set, no [NULL{false}],
    distinct map keys, integer numbers in canonical spelling, and lengths
    that are Go lengths. *)
Fixpoint roundTrips (a : AttributeValue) : bool :=
  match a with
  | AttributeValueNil => false
  | AttributeValueMemberS v => fitsInt (String.length v)
  | AttributeValueMemberN v => canonicalInt v && fitsInt (String.length v)
  | AttributeValueMemberB v => fitsInt (length v)
  | AttributeValueMemberSS v =>
      negb (Nat.eqb (length v) 0) && fitsInt (length v)
      && forallb (fun s => fitsInt (String.length s)) v
  | AttributeValueMemberNS v =>
      negb (Nat.eqb (length v) 0) && fitsInt (length v)
      && forallb (fun s => canonicalInt s && fitsInt (String.length s)) v
  | AttributeValueMemberBS v =>
      negb (Nat.eqb (length v) 0) && fitsInt (length v)
      && forallb (fun b => fitsInt (length b)) v
  | AttributeValueMemberL v => fitsInt (length v) && forallb roundTrips v
  | AttributeValueMemberM v =>
      fitsInt (length v)
      && bool_decide (NoDup (fst <$> v))
      && forallb (fun kv => fitsInt (String.length (fst kv))
                            && roundTrips (snd kv)) v
  | AttributeValueMemberBOOL _ => true
  | AttributeValueMemberNULL v => v
  end.

(** [bs] is what the encoder appends for [a], and the decoder reads [a]
    back from it, leaving what follows, with any budget that covers
    [bs]. *)
Definition encodes (a : AttributeValue) (bs : list byte) : Prop :=
  (forall w, EncodeAttributeValue a w = (None, w ++ bs))
  /\ (1 <= length bs)%nat
  /\ (forall fuel rest, (length bs <= fuel)%nat ->
        DecodeAttributeValue_fuel fuel (bs ++ rest) = Ok (a, rest)).

(** The bytes of the entries of a map, given those of its values. *)
Definition entryBytes (l : list (string * AttributeValue))
    (bss : list (list byte)) : list byte :=
  concat (zip_with (fun kv bs => stringBytes (fst kv) ++ bs) l bss).

(** *** Numbers with a fraction or an exponent *)

(** A number string that [writeStringNumber] hands to [Decimal], in the
    spelling the decoder gives it: [Decimal.SetString] accepts it and
    [Decimal.String] prints it back unchanged (the repository's test has
    "314E-2" and "-314E-2", and notes that "3.14" is not one). *)
Definition canonicalDecimal (s : string) : bool :=
  containsAny s ".eE"
  && match Decimal_SetString s with
     | Some d => String.eqb (Decimal_String d) s
     | None => false
     end.

(** A number string in the spelling the decoder gives it, integer or
    decimal. *)
Definition canonicalNumber (s : string) : bool :=
  (canonicalInt s || canonicalDecimal s) && fitsInt (String.length s).

(** [roundTrips], with the number strings it admits left open. *)
Fixpoint roundTripsBy (num : string -> bool) (a : AttributeValue) : bool :=
  match a with
  | AttributeValueNil => false
  | AttributeValueMemberS v => fitsInt (String.length v)
  | AttributeValueMemberN v => num v
  | AttributeValueMemberB v => fitsInt (length v)
  | AttributeValueMemberSS v =>
      negb (Nat.eqb (length v) 0) && fitsInt (length v)
      && forallb (fun s => fitsInt (String.length s)) v
  | AttributeValueMemberNS v =>
      negb (Nat.eqb (length v) 0) && fitsInt (length v) && forallb num v
  | AttributeValueMemberBS v =>
      negb (Nat.eqb (length v) 0) && fitsInt (length v)
      && forallb (fun b => fitsInt (length b)) v
  | AttributeValueMemberL v =>
      fitsInt (length v) && forallb (roundTripsBy num) v
  | AttributeValueMemberM v =>
      fitsInt (length v)
      && bool_decide (NoDup (fst <$> v))
      && forallb (fun kv => fitsInt (String.length (fst kv))
                            && roundTripsBy num (snd kv)) v
  | AttributeValueMemberBOOL _ => true
  | AttributeValueMemberNULL v => v
  end.

(** An attribute value that comes back as it went in: as [roundTrips],
    with every number string, integer or decimal, in the spelling the
    decoder gives it. *)
Definition comesBack (a : AttributeValue) : bool :=
  roundTripsBy canonicalNumber a.

(** Modelled from the spec: [Reader.ReadDecimal] is the reader of what
    [Writer.WriteDecimal] writes ("emit a decimal tag", "the decimal tag
    decodes to N using a decimal string formatter"): after the tag it
    reads the decimal that was written and leaves what follows, for the
    decimal of any number string of a Go length. *)
Definition decimalsReadBack : Prop :=
  forall (s : string) (d : Decimal) (rest : list byte),
    Decimal_SetString s = Some d ->
    fitsInt (String.length s) = true ->
    ReadDecimal_body (Decimal_body d ++ rest) = Ok (d, rest).

End WithNumbers.

(** *** A reference implementation of [Numbers] *)

(** Decimals as an unscaled integer and a power of ten, written after the
    decimal tag as the two-element array [exponent, mantissa] and printed
    as mantissa, ['E'], exponent: the spelling the repository's test
    notes ("3.14" comes back as "314E-2").  A failed [SetString] leaves
    zero. *)
Fixpoint splitAt (sep : ascii -> bool) (s : string) : string * option string :=
  match s with
  | EmptyString => (EmptyString, None)
  | String c s' =>
      if sep c then (EmptyString, Some s')
      else let '(a, b) := splitAt sep s' in (String c a, b)
  end.

Definition intBytes (v : Z) : list byte :=
  if (minInt <=? v) && (v <=? maxInt) then snd (WriteInt64 v [])
  else snd (WriteBigInt v []).

Definition readInt : read Z :=
  fun r =>
    bindR (PeekHeader r) (fun '(hdr, _) =>
      if Z.land hdr MajorTypeMask =? Tag then ReadBigInt r
      else
        bindR (readTypeHeader r) (fun '(major, value, r') =>
          if major =? PosInt then Ok (value, r')
          else if major =? NegInt then Ok (-1 - value, r')
          else Err (expectedMajor PosInt major))).

Definition decimalOfString (s : string) : option (Z * Z) :=
  let '(mantissa, exponent) :=
    splitAt (fun c => Ascii.eqb c "e" || Ascii.eqb c "E") s in
  let '(whole, fraction) := splitAt (fun c => Ascii.eqb c ".") mantissa in
  let digits := (whole ++ default "" fraction)%string in
  match parseSigned digits,
        match exponent with Some x => parseSigned x | None => Some 0 end with
  | Some u, Some e =>
      Some (u, e - Z.of_nat (String.length (default "" fraction)))
  | _, _ => None
  end.

Definition decimalToString (d : Z * Z) : string :=
  if snd d =? 0 then FormatInt (fst d)
  else (FormatInt (fst d) ++ "E" ++ FormatInt (snd d))%string.

#[global] Instance referenceNumbers : Numbers :=
  {| Decimal := (Z * Z)%type;
     Decimal_SetString := decimalOfString;
     Decimal_String := decimalToString;
     Decimal_body := fun d =>
       header Array 2 ++ intBytes (snd d) ++ intBytes (fst d);
     ReadDecimal_body := fun r =>
       bindR (readHeaderOf Array r) (fun '(n, r1) =>
         if n =? 2 then
           bindR (readInt r1) (fun '(e, r2) =>
             bindR (readInt r2) (fun '(u, r3) => Ok ((u, e), r3)))
         else Err (DeserializationError "cbor: decimal is not a pair"));
     bigInt_afterFailedSetString := fun _ => 0 |}.

End Cbor.

(** ** health_status.go: the calls a listener sees *)

Module HealthCalls.

Import Health.

Definition call_endpoint (c : listenerCall) : string :=
  match c with
  | removeRoute ep _ => ep
  | addRoute ep _ => ep
  end.

(** A sequence of listener calls in which removals and additions take
    turns; [removeNext] says which kind comes first. *)
Fixpoint alternates (removeNext : bool) (cs : list listenerCall) : bool :=
  match cs with
  | [] => true
  | removeRoute _ _ :: cs' => removeNext && alternates false cs'
  | addRoute _ _ :: cs' => negb removeNext && alternates true cs'
  end.

(** Read requests that all failed, oldest first: the error and the route
    of each. *)
Definition failedReads (errs : list (error * DaxAPI)) : list notification :=
  map (fun p => ErrorInReadRequest (fst p) (snd p)) errs.

End HealthCalls.
(** ** cluster.go: configuration and the new cluster *)

Module NewCluster.

Import Seeds Cluster.

(** [connConfig] *)
Record connConfig : Type := mkConnConfig {
  isEncrypted : bool;
  conn_hostname : string;
  skipHostnameVerification : bool
}.

Section WithCollaborators.

(** Values of the interfaces [aws.CredentialsProvider] and
    [metrics.MeterProvider]; [None] is the nil interface. *)
Variable CredentialsProvider : Type.
Variable MeterProvider : Type.

(** The fields of [Config] that the construction of a cluster reads;
    durations are in nanoseconds. *)
Record Config : Type := mkConfig {
  MaxPendingConnectionsPerHost : Z;
  ClusterUpdateThreshold : Z;
  ClusterUpdateInterval : Z;
  IdleConnectionReapDelay : Z;
  ClientHealthCheckInterval : Z;
  Region : string;
  HostPorts : list string;
  Credentials : option CredentialsProvider;
  cfg_connConfig : connConfig;
  SkipHostnameVerification : bool;
  cfg_MeterProvider : option MeterProvider;
  RouteManagerEnabled : bool
}.

Definition set_connConfig (cc : connConfig) (cfg : Config) : Config :=
  {| MaxPendingConnectionsPerHost := MaxPendingConnectionsPerHost cfg;
     ClusterUpdateThreshold := ClusterUpdateThreshold cfg;
     ClusterUpdateInterval := ClusterUpdateInterval cfg;
     IdleConnectionReapDelay := IdleConnectionReapDelay cfg;
     ClientHealthCheckInterval := ClientHealthCheckInterval cfg;
     Region := Region cfg;
     HostPorts := HostPorts cfg;
     Credentials := Credentials cfg;
     cfg_connConfig := cc;
     SkipHostnameVerification := SkipHostnameVerification cfg;
     cfg_MeterProvider := cfg_MeterProvider cfg;
     RouteManagerEnabled := RouteManagerEnabled cfg |}.

(** [url.ParseRequestURI], the error code and the two error constructors
    ([smithy.NewErrParamRequired], and [NewCustomInvalidParamError] of
    the client's error file, which is not among the sources at hand). *)
Variable ParseRequestURI : string -> result URL.
Variable ErrCodeInvalidParameter : string.
Variable NewErrParamRequired : string -> error.
Variable NewCustomInvalidParamError : string -> string -> error.

(** [buildDaxSdkMetrics] and [newRouteManager], seen from here. *)
Variable Metrics : Type.
Variable buildDaxSdkMetrics : option MeterProvider -> result Metrics.
Variable RouteManager : Type.
Variable newRouteManager : bool -> Z -> Metrics -> RouteManager.

(** [Config.validate]; a nil slice and an empty one have length 0. *)
Definition validate (cfg : Config) : option error :=
  if Nat.eqb (length (HostPorts cfg)) 0
  then Some (NewErrParamRequired "Endpoint")
  else if Nat.eqb (String.length (Region cfg)) 0
  then Some (NewErrParamRequired "config.Region")
  else if match Credentials cfg with None => true | Some _ => false end
  then Some (NewErrParamRequired "config.Credentials")
  else if MaxPendingConnectionsPerHost cfg <? 0
  then Some (NewCustomInvalidParamError "ConfigValidation"
               "MaxPendingConnectionsPerHost cannot be negative")
  else None.

(** What [newCluster] returns: the fields it sets; the others have their
    zero values (no active endpoint, not closed, no refresh yet). *)
Record built : Type := mkBuilt {
  seeds : list hostPort;
  config : Config;
  daxSdkMetrics : Metrics;
  state : cluster RouteManager
}.

Definition newCluster (cfg : Config) : result built :=
  match validate cfg with
  | Some err => Err err
  | None =>
      match getHostPorts ParseRequestURI ErrCodeInvalidParameter
              (HostPorts cfg) with
      | Err err => Err err
      | Ok (seeds, hostname, isEncrypted) =>
          let cfg :=
            set_connConfig
              {| isEncrypted := isEncrypted;
                 conn_hostname := hostname;
                 skipHostnameVerification := SkipHostnameVerification cfg |}
              cfg in
          match buildDaxSdkMetrics (cfg_MeterProvider cfg) with
          | Err err => Err err
          | Ok sdkMetrics =>
              let routeManager :=
                newRouteManager (RouteManagerEnabled cfg)
                  (ClientHealthCheckInterval cfg) sdkMetrics in
              Ok {| seeds := seeds;
                    config := cfg;
                    daxSdkMetrics := sdkMetrics;
                    state := {| active := ∅;
                                routeManager := routeManager;
                                closed := false;
                                lastRefreshErr := None |} |}
          end
      end
  end.

End WithCollaborators.

End NewCluster.
(** ** cluster.go: closing the cluster *)

Module ClusterLife.

Import Seeds Cluster.

Section WithCollaborators.

Variable RouteManager : Type.

(** What the [routeManager] field holds after [c.routeManager.close()]
    and [c.routeManager = nil]. *)
Variable closedRouteManager : RouteManager -> RouteManager.

(** [Close]: every active client is closed, in the order the map is
    ranged over, and the cluster is left closed and empty ([c.active =
    nil]; a nil map reads as an empty one).  Stopping the executor, which
    ends the background goroutines, is not part of this sequential
    model. *)
Definition Close (c : cluster RouteManager)
    : cluster RouteManager * list effect :=
  ({| active := ∅;
      routeManager := closedRouteManager (routeManager c);
      closed := true;
      lastRefreshErr := lastRefreshErr c |},
   concat ((fun cl => closeClient (cc_client cl))
           <$> (map_to_list (active c)).*2)).

End WithCollaborators.

(** The client behind an interface value, when [closeClient] closes
    it. *)
Definition closer (cl : DaxAPI) : list client :=
  match cl with
  | Some c => if implementsCloser c then [c] else []
  | None => []
  end.

End ClusterLife.
(** ** cluster.go: refreshing the roster *)

Module Refresh.

Import Seeds Cluster Single.

(** What a refresh does that others can observe: it builds clients for
    discovery, asks them for the endpoints, and does to clients what
    [update] does. *)
Inductive event : Type :=
| Built (cl : DaxAPI)
| AskedEndpoints (cl : DaxAPI) (opt : RequestOptions)
| Did (e : effect).

(** [ips[k], ips[j] = ips[j], ips[k]]; an index out of range is a
    run-time panic in Go, which [rand.Intn] rules out. *)
Definition swap {A : Type} (k j : nat) (l : list A) : list A :=
  match l !! k, l !! j with
  | Some a, Some b => <[k := b]> (<[j := a]> l)
  | _, _ => l
  end.

(** [opts := RequestOptions{}; opts.RetryMaxAttempts = 2] *)
Definition discoveryOptions : RequestOptions :=
  set_RetryMaxAttempts 2 zeroOptions.

(** The cluster together with [lastUpdateNs], which is kept outside the
    lock. *)
Record refresher (RouteManager : Type) : Type := mkRefresher {
  cl : cluster RouteManager;
  lastUpdateNs : Z
}.
Arguments mkRefresher {RouteManager}.
Arguments cl {RouteManager}.
Arguments lastUpdateNs {RouteManager}.

Section WithCollaborators.

(** The world a refresh reaches: name resolution, the random source, the
    clock, the network behind the client builder. *)
Variable W : Type.
Variable LookupIP : string -> W -> result (list (list byte)) * W.
Variable rand_Intn : Z -> W -> Z * W.
Variable time_Now_UnixNano : W -> Z * W.

(** [clientBuilder.newClient]; the flag says whether the cluster is
    passed as the route listener (it is for the clients of the roster,
    and nil is passed for the clients of discovery). *)
Variable newClient : bool -> list byte -> Z -> W -> (DaxAPI * option error) * W.

(** [client.endpoints(ctx, opts)] on a client the builder returned. *)
Variable client_endpoints :
  DaxAPI -> RequestOptions -> W -> (list serviceEndpoint * option error) * W.

Variable IP_String : list byte -> string.
Variable RouteManager : Type.
Variable setRoutes : list DaxAPI -> RouteManager -> RouteManager.

Local Open Scope eff_scope.

Abbreviation M := (Eff.M W event).

Fixpoint emitAll (es : list event) : M unit :=
  match es with
  | [] => ret tt
  | e :: es' => emit e ;; emitAll es'
  end.

(** [for j := len(ips) - 1; j > 0; j-- { k := rand.Intn(j + 1); swap }] *)
Fixpoint shuffle_loop (j : nat) (ips : list (list byte)) (w : W)
    : list (list byte) * W :=
  match j with
  | O => (ips, w)
  | S j' =>
      let '(k, w') := rand_Intn (Z.of_nat j + 1) w in
      shuffle_loop j' (swap (Z.to_nat k) j ips) w'
  end.

Definition shuffle (ips : list (list byte)) (w : W) : list (list byte) * W :=
  if Nat.ltb 1 (length ips) then shuffle_loop (length ips - 1) ips w
  else (ips, w).

(** [pullEndpointsFrom]: the Go pair; the deferred [closeClient] runs
    after the endpoints were asked for. *)
Definition pullEndpointsFrom (ip : list byte) (port : Z)
    : M (list serviceEndpoint * option error) :=
  ' (client, err) <- lift (newClient false ip port) ;;
  match err with
  | Some e => ret ([], Some e)
  | None =>
      emit (Built client) ;;
      emit (AskedEndpoints client discoveryOptions) ;;
      r <- lift (client_endpoints client discoveryOptions) ;;
      emitAll (Did <$> closeClient client) ;;
      ret r
  end.

(** [for _, ip := range ips]: the endpoints found, if any, and
    [lastErr]. *)
Fixpoint pull_ips (ips : list (list byte)) (port : Z)
    (lastErr : option error)
    : M (option (list serviceEndpoint) * option error) :=
  match ips with
  | [] => ret (None, lastErr)
  | ip :: ips' =>
      ' (endpoints, err) <- pullEndpointsFrom ip port ;;
      match err with
      | Some e => pull_ips ips' port (Some e)
      | None =>
          if Nat.ltb 0 (length endpoints) then ret (Some endpoints, lastErr)
          else pull_ips ips' port lastErr
      end
  end.

(** [for _, s := range c.seeds] *)
Fixpoint pull_seeds (seeds : list hostPort) (lastErr : option error)
    : M (list serviceEndpoint * option error) :=
  match seeds with
  | [] => ret ([], lastErr)
  | s :: seeds' =>
      r <- lift (LookupIP (host s)) ;;
      match r with
      | Err e => pull_seeds seeds' (Some e)
      | Ok ips =>
          ips <- lift (shuffle ips) ;;
          ' (found, lastErr) <- pull_ips ips (port s) lastErr ;;
          match found with
          | Some endpoints => ret (endpoints, None)
          | None => pull_seeds seeds' lastErr
          end
      end
  end.

Definition pullEndpoints (seeds : list hostPort)
    : M (list serviceEndpoint * option error) :=
  pull_seeds seeds None.

Abbreviation cluster' := (cluster RouteManager).

(** [update] in this world: the builder's state is part of it. *)
Definition runUpdate (cfg : list serviceEndpoint) (c : cluster')
    : M cluster' :=
  fun w tr =>
    let '(c', w', effects) :=
      update IP_String RouteManager setRoutes W (newClient true) cfg c w in
    (c', w', tr ++ (Did <$> effects)).

(** [refreshNow]: the error and the cluster afterwards. *)
Definition refreshNow (seeds : list hostPort) (c : cluster')
    : M (option error * cluster') :=
  ' (cfg, err) <- pullEndpoints seeds ;;
  match err with
  | Some e => ret (Some e, c)
  | None =>
      if negb (hasChanged IP_String RouteManager cfg c) then ret (None, c)
      else c' <- runUpdate cfg c ;; ret (None, c')
  end.

(** [refresh]; [threshold] is [ClusterUpdateThreshold.Nanoseconds()].
    With no other goroutine at work the compare-and-swap of
    [lastUpdateNs] succeeds. *)
Definition refresh (threshold : Z) (seeds : list hostPort) (force : bool)
    (s : refresher RouteManager) : M (option error * refresher RouteManager) :=
  let last := lastUpdateNs s in
  now <- lift time_Now_UnixNano ;;
  if (int_wrap (now - last) >? threshold) || force
  then
    ' (err, c') <- refreshNow seeds (cl s) ;;
    ret (err, mkRefresher c' now)
  else ret (None, s).

(** [safeRefresh]: the outcome of [refresh] is stored in
    [lastRefreshErr]. *)
Definition safeRefresh (threshold : Z) (seeds : list hostPort) (force : bool)
    (s : refresher RouteManager) : M (refresher RouteManager) :=
  ' (err, s') <- refresh threshold seeds force s ;;
  ret (mkRefresher
         {| active := active (cl s');
            routeManager := routeManager (cl s');
            closed := closed (cl s');
            lastRefreshErr := err |}
         (lastUpdateNs s')).

End WithCollaborators.

(** Trace queries. *)
Definition built (t : list event) : list DaxAPI :=
  omap (fun e => match e with Built c => Some c | _ => None end) t.

Definition asked (t : list event) : list (DaxAPI * RequestOptions) :=
  omap (fun e => match e with AskedEndpoints c o => Some (c, o) | _ => None end)
       t.

Definition effects (t : list event) : list effect :=
  omap (fun e => match e with Did x => Some x | _ => None end) t.

(** What a sound piece of a discovery trace looks like: every client
    built is asked once, with the options of discovery, and closed if it
    can be closed; nothing else is done to any client. *)
Definition discovers (new : list event) : Prop :=
  asked new = (fun c => (c, discoveryOptions)) <$> built new
  /\ effects new
     = concat ((fun c => closeClient c) <$> built new).

End Refresh.

(** A world for running examples of a refresh: the builder of the
    roster scenario (the world is the number of clients built), one seed
    that resolves to the addresses of nodes A and B, a random source that
    always answers 0, a clock that stands still, and nodes that answer
    with the roster [{A, B}]. *)
Module RefreshScenario.

Import Cluster Single.

Definition LookupIP (_ : string) (w : nat) : result (list (list byte)) * nat :=
  (Ok [address Scenario.epA; address Scenario.epB], w).

Definition rand_Intn (_ : Z) (w : nat) : Z * nat := (0, w).

Definition clockNs : Z := 1000.

Definition time_Now_UnixNano (w : nat) : Z * nat := (clockNs, w).

Definition newClient (_ : bool) (ip : list byte) (port : Z) (w : nat)
    : (DaxAPI * option error) * nat :=
  Scenario.newClient ip port w.

Definition client_endpoints (_ : DaxAPI) (_ : RequestOptions) (w : nat)
    : (list serviceEndpoint * option error) * nat :=
  (([Scenario.epA; Scenario.epB], None), w).

Definition seeds : list Seeds.hostPort := [("cluster.example.com", 8111)].

Definition pullEndpoints :=
  Refresh.pullEndpoints nat LookupIP rand_Intn newClient client_endpoints.

Definition refreshNow :=
  Refresh.refreshNow nat LookupIP rand_Intn newClient client_endpoints
    ipv4_String (list DaxAPI) Scenario.setRoutes.

Definition refresh :=
  Refresh.refresh nat LookupIP rand_Intn time_Now_UnixNano newClient
    client_endpoints ipv4_String (list DaxAPI) Scenario.setRoutes.

Definition safeRefresh :=
  Refresh.safeRefresh nat LookupIP rand_Intn time_Now_UnixNano newClient
    client_endpoints ipv4_String (list DaxAPI) Scenario.setRoutes.

(** The scenario's cluster, last refreshed 100 ns before the clock's
    time, with an error. *)
Definition lastFailed : Refresh.refresher (list DaxAPI) :=
  Refresh.mkRefresher
    {| active := active Scenario.c1;
       routeManager := routeManager Scenario.c1;
       closed := false;
       lastRefreshErr := Some (ErrorString "lookup cluster.example.com: no such host") |}
    900.

End RefreshScenario.
(** ** cluster.go: reading the trace of the retry loop *)

Module RetryTrace.

Import Single ClusterClient.

(** The clients the action was run on, and the delays slept, in order. *)
Definition acted_on (t : list event) : list DaxAPI :=
  omap (fun e => match e with Action cl _ => Some cl | _ => None end) t.

Definition backoffs_of (t : list event) : list Z :=
  omap (fun e => match e with Backoff _ d => Some d | _ => None end) t.

End RetryTrace.
(** ** single.go: reading the trace of the per-node client *)

Module NodeTrace.

Import Single.

(** The sleeps of a trace: the operation and the delay of each. *)
Definition sleeps (t : list event) : list (string * Z) :=
  omap (fun e => match e with Slept op d => Some (op, d) | _ => None end) t.

(** The operations attempted on the wire, in order. *)
Definition attempted (t : list event) : list string :=
  omap (fun e => match e with Attempt op => Some op | _ => None end) t.

End NodeTrace.
(** ** cbor/attrval.go: what the encoder accepts *)

Module CborFacts.

Import Cbor.

Section WithNumbers.

Context {numbers : Numbers}.

(** A number string that [writeStringNumber] writes without error, read
    off its three branches. *)
Definition numberOk (val : string) : bool :=
  if containsAny val ".eE" then
    match Decimal_SetString val with Some _ => true | None => false end
  else if Nat.ltb 18 (String.length val) then true
  else match ParseInt64 val with Some _ => true | None => false end.

(** A value that [EncodeAttributeValue] writes without error, read off
    its cases: no nil member, no empty set, no [NULL{false}], and
    numbers that [writeStringNumber] takes. *)
Fixpoint encodable (a : AttributeValue) : bool :=
  match a with
  | AttributeValueNil => false
  | AttributeValueMemberS _ => true
  | AttributeValueMemberN v => numberOk v
  | AttributeValueMemberB _ => true
  | AttributeValueMemberSS v => negb (Nat.eqb (length v) 0)
  | AttributeValueMemberNS v =>
      negb (Nat.eqb (length v) 0) && forallb numberOk v
  | AttributeValueMemberBS v => negb (Nat.eqb (length v) 0)
  | AttributeValueMemberL v => forallb encodable v
  | AttributeValueMemberM v => forallb (fun kv => encodable (snd kv)) v
  | AttributeValueMemberBOOL _ => true
  | AttributeValueMemberNULL v => v
  end.

(** A write that returns [r] after appending [bs], whatever the writer
    holds. *)
Definition appends (f : write) (r : option error) (bs : list byte) : Prop :=
  forall w, f w = (r, w ++ bs).

(** A value with no nil member and no [NULL{false}] anywhere. *)
Fixpoint wellFormed (a : AttributeValue) : bool :=
  match a with
  | AttributeValueNil => false
  | AttributeValueMemberL v => forallb wellFormed v
  | AttributeValueMemberM v => forallb (fun kv => wellFormed (snd kv)) v
  | AttributeValueMemberNULL v => v
  | _ => true
  end.

End WithNumbers.

End CborFacts.

(** * Part II: properties *)

(** ** Machine integers *)

Lemma int_wrap_small (z : Z) : minInt <= z <= maxInt -> int_wrap z = z.
Proof.
  unfold minInt, maxInt, int_wrap. intros Hz.
  rewrite Z.mod_small by lia. lia.
Qed.

Lemma int_add_small (a b : Z) :
  minInt <= a + b <= maxInt -> int_add a b = a + b.
Proof. apply int_wrap_small. Qed.

(** ** Health status *)

Section HealthProperties.

Import Health.

Variable isIOError : error -> bool.

Abbreviation onError := (onErrorInReadRequest isIOError).

(** A read error that is not an I/O error changes nothing. *)
Lemma onError_other err route hs :
  isIOError err = false -> onError err route hs = (hs, []).
Proof. intros H. unfold onErrorInReadRequest. now rewrite H. Qed.

(** A read error on an unhealthy route changes nothing. *)
Lemma onError_unhealthy err route hs :
  isHealthy hs = false -> onError err route hs = (hs, []).
Proof.
  intros H. unfold onErrorInReadRequest. rewrite H.
  now destruct (isIOError err).
Qed.

(** An I/O error on a healthy route adds one to the count, and flips the
    route at the threshold. *)
Lemma onError_counts err route hs :
  isIOError err = true -> isHealthy hs = true ->
  let n := int_add (curReadTimeoutCount hs) 1 in
  onError err route hs =
    if n >=? timeoutErrorThreshold
    then (mkHealth (endpoint hs) false n, [removeRoute (endpoint hs) route])
    else (mkHealth (endpoint hs) true n, []).
Proof.
  intros Hio Hh. unfold onErrorInReadRequest, set_count, set_healthy.
  rewrite Hio, Hh. simpl. now destruct (_ >=? _).
Qed.

Lemma notify_invariant n hs :
  health_invariant hs -> health_invariant (fst (notify isIOError n hs)).
Proof.
  unfold health_invariant, timeoutErrorThreshold. intros [Hr Hh].
  destruct n as [err route | | route]; simpl.
  - destruct (isIOError err) eqn:Hio; [|now rewrite onError_other].
    destruct (isHealthy hs) eqn:Hhs;
      [|rewrite onError_unhealthy by assumption; simpl; rewrite Hhs; auto].
    rewrite onError_counts by assumption. specialize (Hh eq_refl).
    rewrite int_add_small by (unfold minInt, maxInt; lia).
    unfold timeoutErrorThreshold.
    destruct (_ >=? _) eqn:Hc; simpl.
    + split; [lia | discriminate].
    + split; [lia | intros _; lia].
  - unfold onSuccessInReadRequest.
    destruct (_ || _); simpl; auto. split; [lia|intros; lia].
  - unfold onHealthCheckSuccess.
    destruct (_ && _); simpl; auto.
    destruct (negb (isHealthy hs)); simpl; split; intros; lia.
Qed.

Lemma run_invariant ns hs :
  health_invariant hs -> health_invariant (fst (run isIOError ns hs)).
Proof.
  revert hs. induction ns as [|n ns IH]; intros hs Hinv; simpl; auto.
  pose proof (notify_invariant n hs Hinv) as H1.
  destruct (notify isIOError n hs) as [hs1 c1]. simpl in H1.
  specialize (IH hs1 H1).
  destruct (run isIOError ns hs1) as [hs2 c2]. exact IH.
Qed.

Lemma new_invariant ep : health_invariant (newHealthStatus ep).
Proof. unfold health_invariant, timeoutErrorThreshold; simpl. split; [lia|intros; lia]. Qed.


End HealthProperties.


(** ** Seed endpoints *)

Section SeedProperties.

Import Seeds.

Variable ParseRequestURI : string -> result URL.
Variable ErrCodeInvalidParameter : string.

Abbreviation parse := (parseHostPort ParseRequestURI ErrCodeInvalidParameter).
Abbreviation parseAll := (getHostPorts ParseRequestURI ErrCodeInvalidParameter).
Abbreviation parseLoop :=
  (getHostPorts_loop ParseRequestURI ErrCodeInvalidParameter).

Lemma defaultPorts_Some sch p :
  defaultPorts !! sch = Some p ->
  (sch = "dax" /\ p = 8111) \/ (sch = "daxs" /\ p = 9111).
Proof.
  unfold defaultPorts. intros H.
  apply lookup_insert_Some in H as [[<- <-]|[_ H]]; [now left|].
  apply lookup_insert_Some in H as [[<- <-]|[_ H]]; [now right|].
  now rewrite lookup_empty in H.
Qed.

Lemma strings_Index_dax_prefix s : strings_Index ("dax://" ++ s) "://" = 3.
Proof. destruct s; reflexivity. Qed.

Lemma parse_with_scheme s :
  strings_Index s "://" <> -1 ->
  parse s = match ParseRequestURI s with Ok u => ofURL ErrCodeInvalidParameter u | Err e => Err e end.
Proof.
  intros H. unfold parseHostPort, ofURL.
  apply Z.eqb_neq in H. rewrite H. simpl.
  destruct (ParseRequestURI s) as [u|e]; [|reflexivity].
  destruct (String.eqb (Hostname u) ""); [reflexivity|].
  destruct (defaultPorts !! Scheme u); reflexivity.
Qed.

Lemma parse_without_scheme s :
  strings_Index s "://" = -1 -> strings_Index s ":" <> -1 ->
  parse s = parse ("dax://" ++ s).
Proof.
  intros H1 H2.
  rewrite (parse_with_scheme ("dax://" ++ s))
    by (rewrite strings_Index_dax_prefix; discriminate).
  unfold parseHostPort, ofURL. rewrite H1.
  apply Z.eqb_neq in H2. rewrite H2. simpl.
  destruct (ParseRequestURI _) as [u|e]; [|reflexivity].
  destruct (String.eqb (Hostname u) ""); [reflexivity|].
  destruct (defaultPorts !! Scheme u); reflexivity.
Qed.

Lemma parse_bare_word s :
  strings_Index s "://" = -1 -> strings_Index s ":" = -1 ->
  parse s = Err (invalidHostport1 ErrCodeInvalidParameter s).
Proof. intros H1 H2. unfold parseHostPort. now rewrite H1, H2. Qed.

Lemma parse_Ok_scheme s h p sch :
  parse s = Ok (h, p, sch) -> sch = "dax" \/ sch = "daxs".
Proof.
  unfold parseHostPort.
  destruct (_ && _); [discriminate|].
  destruct (ParseRequestURI _) as [u|e]; [|discriminate].
  destruct (String.eqb (Hostname u) ""); [discriminate|].
  destruct (defaultPorts !! Scheme u) as [d|] eqn:Hd; [|discriminate].
  intros [= _ _ <-]. apply defaultPorts_Some in Hd. tauto.
Qed.

(** Past the first seed the loop accepts only cleartext seeds, and only
    when the first one was cleartext. *)
Lemma parseLoop_later i hosts out hn enc r :
  parseLoop (S i) hosts out hn enc = Ok r ->
  snd r = enc
  /\ (hosts <> [] -> enc = false)
  /\ Forall (fun s => exists h p, parse s = Ok (h, p, "dax")) hosts.
Proof.
  revert i out hn. induction hosts as [|s hosts IH]; intros i out hn; simpl.
  - intros [= <-]. simpl. repeat split; [congruence | constructor].
  - destruct (parse s) as [[[h p] sch]|e] eqn:Hs; [|discriminate].
    pose proof (parse_Ok_scheme _ _ _ _ Hs) as [-> | ->]; simpl.
    + destruct enc; simpl; [discriminate|].
      intros H. apply IH in H as (H1 & H2 & H3).
      repeat split; auto. constructor; eauto.
    + destruct enc; simpl; discriminate.
Qed.

Lemma parseAll_Ok hosts out hn enc :
  parseAll hosts = Ok (out, hn, enc) ->
  exists sch,
    (sch = "dax" \/ sch = "daxs")
    /\ enc = String.eqb sch "daxs"
    /\ Forall (fun s => exists h p, parse s = Ok (h, p, sch)) hosts
    /\ (enc = true -> (length hosts <= 1)%nat).
Proof.
  unfold getHostPorts. destruct hosts as [|s hosts]; simpl.
  - intros [= <- <- <-]. exists "dax". repeat split; auto; discriminate.
  - destruct (parse s) as [[[h p] sch]|e] eqn:Hs; [|discriminate].
    pose proof (parse_Ok_scheme _ _ _ _ Hs) as [-> | ->]; simpl.
    + intros H. apply parseLoop_later in H as (H1 & H2 & H3). simpl in H1.
      exists "dax". subst enc. repeat split; auto; [|discriminate].
      constructor; eauto.
    + intros H. apply parseLoop_later in H as (H1 & H2 & H3). simpl in H1.
      exists "daxs". subst enc.
      destruct hosts as [|s' hosts]; [|now specialize (H2 ltac:(discriminate))].
      repeat split; auto. constructor; eauto.
Qed.

(** C8, as the code has it.  A seed with a scheme is accepted when the
    URL parser accepts it, its host is not empty and its scheme is [dax]
    (default port 8111) or [daxs] (default port 9111); the port is the
    one given when it parses as an integer.  A seed without ["://"] is
    read as if [dax://] stood before it when it contains a [':'], and is
    rejected as an invalid host/port otherwise.  No seed with another
    scheme is accepted.  An accepted seed list has one scheme throughout,
    and a single entry when that scheme is [daxs]. *)
Theorem seed_endpoint_parsing :
  (forall s u dflt,
      strings_Index s "://" <> -1 -> ParseRequestURI s = Ok u ->
      Hostname u <> "" -> defaultPorts !! Scheme u = Some dflt ->
      parse s = Ok (Hostname u,
                    match Atoi (Port u) with Some p => p | None => dflt end,
                    Scheme u))
  /\ defaultPorts !! "dax" = Some 8111
  /\ defaultPorts !! "daxs" = Some 9111
  /\ (forall s, strings_Index s "://" = -1 -> strings_Index s ":" <> -1 ->
        parse s = parse ("dax://" ++ s))
  /\ (forall s, strings_Index s "://" = -1 -> strings_Index s ":" = -1 ->
        parse s = Err (invalidHostport1 ErrCodeInvalidParameter s))
  /\ (forall s h p sch, parse s = Ok (h, p, sch) -> sch = "dax" \/ sch = "daxs")
  /\ (forall hosts out hn enc,
        parseAll hosts = Ok (out, hn, enc) ->
        exists sch,
          (sch = "dax" \/ sch = "daxs")
          /\ enc = String.eqb sch "daxs"
          /\ Forall (fun s => exists h p, parse s = Ok (h, p, sch)) hosts
          /\ (enc = true -> (length hosts <= 1)%nat)).
Proof.
  split; [|split; [|split; [|split; [|split; [|split]]]]].
  - intros s u dflt Hs Hu Hh Hd. rewrite parse_with_scheme by assumption.
    rewrite Hu. unfold ofURL. apply String.eqb_neq in Hh. now rewrite Hh, Hd.
  - reflexivity.
  - reflexivity.
  - apply parse_without_scheme.
  - apply parse_bare_word.
  - apply parse_Ok_scheme.
  - apply parseAll_Ok.
Qed.

End SeedProperties.

(** "localhost" has neither a scheme nor a colon: it is rejected, while
    [dax://localhost] is accepted on the default port. *)
Lemma seed_without_scheme_counterexample :
  strings_Index "localhost" "://" = -1
  /\ Seeds.parseHostPort Seeds.seedParseRequestURI "InvalidParameter"
       "localhost"
     = Err (GenericAPIError "InvalidParameter" "localhostInvalid hostport.")
  /\ Seeds.parseHostPort Seeds.seedParseRequestURI "InvalidParameter"
       "dax://localhost"
     = Ok ("localhost", 8111, "dax").
Proof. repeat split. Qed.

(** The seeds of the repository's tests. *)
Lemma seed_endpoint_parsing_witness :
  Seeds.parseHostPort Seeds.seedParseRequestURI "InvalidParameter"
    "daxs://cluster2.random.alpha-dax-clusters.us-east-1.amazonaws.com"
  = Ok ("cluster2.random.alpha-dax-clusters.us-east-1.amazonaws.com",
        9111, "daxs")
  /\ Seeds.parseHostPort Seeds.seedParseRequestURI "InvalidParameter"
       "cluster-a.random.nodes.alpha-dax-clusters.us-east-1.amazonaws.com:8111"
     = Seeds.parseHostPort Seeds.seedParseRequestURI "InvalidParameter"
         "dax://cluster-a.random.nodes.alpha-dax-clusters.us-east-1.amazonaws.com:8111"
  /\ (exists sch,
        Forall (fun s => exists h p,
                  Seeds.parseHostPort Seeds.seedParseRequestURI
                    "InvalidParameter" s = Ok (h, p, sch))
          ["dax://a.example.com"; "b.example.com:8111"]).
Proof.
  destruct (seed_endpoint_parsing Seeds.seedParseRequestURI "InvalidParameter")
    as (Hdflt & _ & _ & Hbare & _ & _ & Hlist).
  split; [|split].
  - apply (Hdflt
             "daxs://cluster2.random.alpha-dax-clusters.us-east-1.amazonaws.com"
             (Seeds.mkURL "daxs"
                "cluster2.random.alpha-dax-clusters.us-east-1.amazonaws.com" "")
             9111);
      [vm_compute; discriminate | reflexivity | discriminate | reflexivity].
  - apply Hbare; [reflexivity | vm_compute; discriminate].
  - destruct (Hlist ["dax://a.example.com"; "b.example.com:8111"]
                [("a.example.com", 8111); ("b.example.com", 8111)]
                "b.example.com" false eq_refl) as (sch & _ & _ & Hall & _).
    exists sch. exact Hall.
Defined.

(** ** The roster *)

Section ClusterProperties.

Import Seeds Cluster.

Variable IP_String : list byte -> string.
Variable RouteManager : Type.
Variable setRoutes : list DaxAPI -> RouteManager -> RouteManager.
Variable B : Type.
Variable newClient : list byte -> Z -> B -> (DaxAPI * option error) * B.

Abbreviation cluster' := (cluster RouteManager).
Abbreviation update' := (update IP_String RouteManager setRoutes B newClient).
Abbreviation failed' :=
  (onHealthCheckFailed RouteManager setRoutes B newClient).
Abbreviation hostPortOf := (endpoint_hostPort IP_String).

Lemma closedClients_app es1 es2 :
  closedClients (es1 ++ es2) = closedClients es1 ++ closedClients es2.
Proof. unfold closedClients. apply omap_app. Qed.

Lemma closedClients_startHealthChecks cl hp :
  closedClients (startHealthChecks cl hp) = [].
Proof.
  destruct cl as [c|]; [|reflexivity]. simpl.
  now destruct (implementsHealthCheck c).
Qed.

Lemma in_closeClient_closers (ccs : list clientAndConfig) cc e :
  cc ∈ ccs -> e ∈ closeClient (cc_client cc) ->
  e ∈ concat ((fun cl => closeClient (cc_client cl)) <$> ccs).
Proof.
  intros Hcc He. apply list_elem_of_In, in_concat.
  exists (closeClient (cc_client cc)). split.
  - apply list_elem_of_In. apply list_elem_of_fmap. eauto.
  - now apply list_elem_of_In.
Qed.

(** The loop only ever sets [shouldUpdateRoutes] to false, and only when
    the builder reports an error. *)
Lemma update_create_failed oldActive i config l :
  shouldUpdateRoutes (update_create IP_String B newClient oldActive i config l)
    = false ->
  shouldUpdateRoutes l = false
  \/ exists ep b cli e b',
       ep ∈ config /\ oldActive !! hostPortOf ep = None
       /\ newSingleClient B newClient ep b = ((cli, Some e), b').
Proof.
  revert i l. induction config as [|ep rest IH]; intros i l; simpl; auto.
  destruct (oldActive !! hostPortOf ep) as [cc|] eqn:Hold.
  - intros H. apply IH in H as [H|(ep' & b & cli & e & b' & Hin & H)];
      [now left|right].
    exists ep', b, cli, e, b'. split; [now right|exact H].
  - destruct (newSingleClient B newClient ep (builder l)) as [[cli err] b']
      eqn:Hnew.
    destruct err as [e|].
    + intros _. right. exists ep, (builder l), cli, e, b'.
      repeat split; [left | assumption | assumption].
    + intros H. apply IH in H as [H|(ep' & b & cli' & e & b'' & Hin & H)];
        [now left|right].
      exists ep', b, cli', e, b''. split; [now right|exact H].
Qed.

(** What [update] returns when a build failed. *)
Lemma update_on_failure config c b :
  closed c = false ->
  shouldUpdateRoutes (update_locals IP_String B newClient config c b) = false ->
  update' config c b =
    (c, builder (update_locals IP_String B newClient config c b),
     started (update_locals IP_String B newClient config c b)
     ++ concat ((fun cl => closeClient (cc_client cl))
                <$> (leftRoster (rosterKeys IP_String config) (active c)
                     ++ newCliCfg (update_locals IP_String B newClient config c b)))).
Proof.
  intros Hc Hs. unfold update. rewrite Hc. fold (rosterKeys IP_String config).
  fold (update_locals IP_String B newClient config c b). now rewrite Hs.
Qed.

(** On a build failure the fields of the cluster stay as they were, and
    every client built during the call is handed to [closeClient]. *)
Lemma update_failure_keeps_and_cleans config c b :
  closed c = false ->
  shouldUpdateRoutes (update_locals IP_String B newClient config c b) = false ->
  fst (fst (update' config c b)) = c
  /\ forall cc e,
       cc ∈ newCliCfg (update_locals IP_String B newClient config c b) ->
       e ∈ closeClient (cc_client cc) ->
       e ∈ snd (update' config c b).
Proof.
  intros Hc Hs. rewrite update_on_failure by assumption. simpl.
  split; [reflexivity|]. intros cc e Hcc He.
  apply elem_of_app. right.
  apply (in_closeClient_closers _ cc); [|exact He].
  apply elem_of_app. now right.
Qed.

(** On a build failure the clients whose endpoint is not in the new
    roster are handed to [closeClient] as well, although the map that
    still holds them stays in place. *)
Lemma update_failure_closes_left_roster config c b hp cc e :
  closed c = false ->
  shouldUpdateRoutes (update_locals IP_String B newClient config c b) = false ->
  active c !! hp = Some cc -> hp ∉ rosterKeys IP_String config ->
  e ∈ closeClient (cc_client cc) ->
  active (fst (fst (update' config c b))) !! hp = Some cc
  /\ e ∈ snd (update' config c b).
Proof.
  intros Hc Hs Hhp Hout He. rewrite update_on_failure by assumption. simpl.
  split; [exact Hhp|].
  apply elem_of_app. right.
  apply (in_closeClient_closers _ cc); [|exact He].
  apply elem_of_app. left. unfold leftRoster.
  apply list_elem_of_fmap. exists (hp, cc). split; [reflexivity|].
  apply elem_of_map_to_list. apply map_lookup_filter_Some. now split.
Qed.

(** C10. A failed health check for a host that is not a key of [active]
    leaves the active map and the route manager as they are and closes no
    client (nor does it build one). *)
Theorem health_check_failed_unknown_host (host : hostPort) (c : cluster')
    (b : B) :
  active c !! host = None ->
  failed' host c b = (c, b, [])
  /\ active (fst (fst (failed' host c b))) = active c
  /\ routeManager (fst (fst (failed' host c b))) = routeManager c
  /\ closedClients (snd (failed' host c b)) = [].
Proof.
  intros H. unfold onHealthCheckFailed. rewrite H. simpl. auto.
Qed.

End ClusterProperties.

(** In the scenario cluster [{A, B}], node C is not a key of [active]. *)
Lemma health_check_failed_unknown_host_witness :
  Cluster.onHealthCheckFailed (list DaxAPI) Cluster.Scenario.setRoutes nat
    Cluster.Scenario.newClient (Cluster.Scenario.hp Cluster.Scenario.epC)
    Cluster.Scenario.c1 Cluster.Scenario.b1
  = (Cluster.Scenario.c1, Cluster.Scenario.b1, []).
Proof.
  apply health_check_failed_unknown_host. vm_compute. reflexivity.
Defined.

(** C2, at the spec's third scenario: [active = {A, B}], the new roster
    is [{A, C}] and the builder fails for C.  [update] leaves the cluster
    (its [active] map and its routes) as it was and has built no client
    that would need closing, but it closes B, which [active] and the
    routes still hold. *)
Theorem update_partial_failure_closes_B :
  Cluster.active Cluster.Scenario.c1
    !! Cluster.Scenario.hp Cluster.Scenario.epB
  = Some (Cluster.mkClientAndConfig (Some Cluster.Scenario.clientB)
            Cluster.Scenario.epB)
  /\ fst (fst Cluster.Scenario.afterFailure) = Cluster.Scenario.c1
  /\ Cluster.active (fst (fst Cluster.Scenario.afterFailure))
       !! Cluster.Scenario.hp Cluster.Scenario.epB
     = Some (Cluster.mkClientAndConfig (Some Cluster.Scenario.clientB)
               Cluster.Scenario.epB)
  /\ Cluster.routeManager (fst (fst Cluster.Scenario.afterFailure))
     = [Some Cluster.Scenario.clientA; Some Cluster.Scenario.clientB]
  /\ snd Cluster.Scenario.afterFailure
     = [Cluster.Close Cluster.Scenario.clientB].
Proof.
  split; [|split; [|split; [|split]]].
  - vm_compute; reflexivity.
  - apply update_failure_keeps_and_cleans; vm_compute; reflexivity.
  - vm_compute; reflexivity.
  - vm_compute; reflexivity.
  - vm_compute; reflexivity.
Qed.

(** ** The per-node client *)

Section SingleProperties.

Import Single.

Context {W : Type} (env : collaborators W).

Ltac eff_unfold :=
  unfold put, closeTube, Eff.bind, Eff.ret, Eff.lift, Eff.read, Eff.modify,
    Eff.emit in *.

(** [auth] writes no event. *)
Lemma auth_trace t w tr :
  auth env t w tr = (fst (fst (auth env t w [])), snd (fst (auth env t w [])), tr).
Proof.
  unfold auth. eff_unfold.
  destruct (credentials_Retrieve env w) as [[creds|e] w1]; [|reflexivity].
  destruct (time_Now_Unix env w1) as [now w2].
  destruct (CompareAndSwapAuthID (AccessKeyID creds) t) as [changed t1].
  destruct (changed || (authExpiryUnix t1 <=? now)); [|reflexivity].
  destruct (encodeAuthInput env creds now t1 w2) as [[e|] w3]; [reflexivity|].
  destruct (writer_Flush env t1 w3) as [[e|] w4]; reflexivity.
Qed.

(** What [recycleTube] does with a tube after a server error. *)
Lemma recycleTube_server_error t ex w tr :
  recycleTube env (Some t) (Some ex) w tr =
    if is_daxRequestFailure ex
    then
      if authError env ex
      then (tt, pool_put env
                  (SetAuthExpiryUnix (fst (time_Now_Unix env w)) t)
                  (snd (time_Now_Unix env w)),
            tr ++ [PoolPut (SetAuthExpiryUnix (fst (time_Now_Unix env w)) t)])
      else (tt, pool_put env t w, tr ++ [PoolPut t])
    else (tt, pool_closeTube env t w, tr ++ [PoolCloseTube t]).
Proof.
  unfold recycleTube. destruct ex; simpl; try reflexivity.
  eff_unfold. destruct (authError env _); [|reflexivity].
  now destruct (time_Now_Unix env w).
Qed.


(** One run of the pipeline is one attempt, and never a sleep. *)
Lemma executeWithContext_trace {A : Type} (op : string)
    (encoder : tube -> W -> option error * W)
    (decoder : tube -> W -> result A * W) (w : W) (tr : list event) :
  exists fate,
    snd (executeWithContext env op encoder decoder w tr)
      = tr ++ Attempt op :: fate
    /\ attempts_of fate = 0%nat /\ sleeps_of fate = 0%nat.
Proof.
  unfold executeWithContext, recycleTube. eff_unfold.
  destruct (pool_getWithContext env (isHighPriority op) w) as [[t|e] w1];
    [|exists []; simpl; auto].
  destruct (pool_setDeadline env t w1) as [[e|] w2].
  { destruct (ctx_Err env w2) as [c|]; [destruct (error_eqb e c)|]; simpl;
      rewrite <- app_assoc; eexists; (split; [reflexivity|split; reflexivity]). }
  rewrite auth_trace.
  destruct (auth env t w2 []) as [[[ae t'] w3] tr3]. simpl fst. simpl snd.
  destruct ae as [e|];
    [simpl; rewrite <- app_assoc; eexists; (split; [reflexivity|split; reflexivity])|].
  destruct (encoder t' w3) as [[e|] w4];
    [simpl; rewrite <- app_assoc; eexists; (split; [reflexivity|split; reflexivity])|].
  destruct (writer_Flush env t' w4) as [[e|] w5];
    [simpl; rewrite <- app_assoc; eexists; (split; [reflexivity|split; reflexivity])|].
  destruct (decodeError env t' w5) as [[ex e4] w6].
  destruct e4 as [e|];
    [simpl; rewrite <- app_assoc; eexists; (split; [reflexivity|split; reflexivity])|].
  destruct ex as [x|].
  - destruct x; simpl;
      try (rewrite <- app_assoc; eexists; (split; [reflexivity|split; reflexivity])).
    destruct (authError env _); [destruct (time_Now_Unix env w6)|]; simpl;
      rewrite <- app_assoc; eexists; (split; [reflexivity|split; reflexivity]).
  - destruct (decoder t' w6) as [[a|e] w7]; simpl;
      rewrite <- app_assoc; eexists; (split; [reflexivity|split; reflexivity]).
Qed.

Lemma attempts_of_app t1 t2 :
  attempts_of (t1 ++ t2) = (attempts_of t1 + attempts_of t2)%nat.
Proof. unfold attempts_of. now rewrite List.filter_app, length_app. Qed.

Lemma sleeps_of_app t1 t2 :
  sleeps_of (t1 ++ t2) = (sleeps_of t1 + sleeps_of t2)%nat.
Proof. unfold sleeps_of. now rewrite List.filter_app, length_app. Qed.

(** With [RetryMaxAttempts = 0] the per-node client makes one attempt and
    does not sleep. *)
Lemma executeWithRetries_no_retries {A : Type} (op : string)
    (o : RequestOptions)
    (encoder : tube -> W -> option error * W)
    (decoder : tube -> W -> result A * W) (w : W) (tr : list event) :
  RetryMaxAttempts o = 0 ->
  exists new,
    snd (executeWithRetries env op o encoder decoder w tr) = tr ++ new
    /\ attempts_of new = 1%nat /\ sleeps_of new = 0%nat.
Proof.
  intros Ho. unfold executeWithRetries. rewrite Ho. simpl.
  unfold Eff.bind at 1.
  destruct (executeWithContext_trace op encoder decoder w tr)
    as (fate & Htr & Ha & Hs).
  destruct (executeWithContext env op encoder decoder w tr)
    as [[[out err] w1] tr1]. simpl in Htr. subst tr1.
  exists (Attempt op :: fate).
  assert (attempts_of (Attempt op :: fate) = 1%nat) as Ha'
    by (unfold attempts_of in *; simpl; now rewrite Ha).
  assert (sleeps_of (Attempt op :: fate) = 0%nat) as Hs'
    by (unfold sleeps_of in *; simpl; now rewrite Hs).
  destruct err as [e|]; [|now unfold Eff.ret].
  destruct (errors_Is_Canceled e); now unfold Eff.ret.
Qed.

(** An attempt that ends in a cancellation ends the loop there: the
    canceled error wraps it, and neither the world nor the trace move
    past the attempt. *)
Lemma executeWithRetries_canceled {A : Type} (n : nat) (i attempts : Z)
    (op : string) (o : RequestOptions)
    (encoder : tube -> W -> option error * W)
    (decoder : tube -> W -> result A * W) (err0 : option error)
    (w w1 : W) (tr tr1 : list event) (out : option A) (e : error) :
  executeWithContext env op encoder decoder w tr = ((out, Some e), w1, tr1) ->
  errors_Is_Canceled e = true ->
  executeWithRetries_loop env (S n) i attempts op o encoder decoder err0 w tr
    = ((None, Some (CanceledError e)), w1, tr1).
Proof.
  intros H He. simpl. unfold Eff.bind at 1. rewrite H. now rewrite He.
Qed.

(** The loop only ever appends to the trace. *)
Lemma executeWithRetries_loop_grows {A : Type} (n : nat) (i attempts : Z)
    (op : string) (o : RequestOptions)
    (encoder : tube -> W -> option error * W)
    (decoder : tube -> W -> result A * W) (err0 : option error)
    (w : W) (tr : list event) :
  exists rest,
    snd (executeWithRetries_loop env n i attempts op o encoder decoder
           err0 w tr) = tr ++ rest.
Proof.
  revert i err0 w tr. induction n as [|n IH]; intros i err0 w tr; simpl.
  - exists []. unfold Eff.ret. simpl. now rewrite app_nil_r.
  - unfold Eff.bind at 1.
    destruct (executeWithContext_trace op encoder decoder w tr)
      as (fate & Htr & _).
    destruct (executeWithContext env op encoder decoder w tr)
      as [[[out err] w1] tr1]. simpl in Htr. subst tr1.
    destruct err as [e|]; [|eexists; reflexivity].
    destruct (errors_Is_Canceled e); [eexists; reflexivity|].
    destruct (negb (i =? attempts)).
    + unfold Eff.bind at 1. unfold Eff.emit at 1.
      unfold Eff.bind at 1. unfold Eff.lift at 1.
      destruct (SleepWithContext env op (RetryDelay o) w1) as [[se|] w2].
      * unfold Eff.ret. simpl. rewrite <- app_assoc. eexists; reflexivity.
      * destruct (IH (i + 1) (Some e) w2
                    ((tr ++ Attempt op :: fate) ++ [Slept op (RetryDelay o)]))
          as (rest & Hrest).
        rewrite Hrest. rewrite <- !app_assoc. eexists; reflexivity.
    + destruct (IH (i + 1) (Some e) w1 (tr ++ Attempt op :: fate))
        as (rest & Hrest).
      rewrite Hrest. rewrite <- !app_assoc. eexists; reflexivity.
Qed.

(** An attempt that ends in an error that is not a cancellation, with
    attempts left, is followed by a sleep: the error is not returned
    there and then. *)
Lemma executeWithRetries_other_error_sleeps {A : Type} (n : nat)
    (i attempts : Z) (op : string) (o : RequestOptions)
    (encoder : tube -> W -> option error * W)
    (decoder : tube -> W -> result A * W) (err0 : option error)
    (w w1 : W) (tr tr1 : list event) (out : option A) (e : error) :
  executeWithContext env op encoder decoder w tr = ((out, Some e), w1, tr1) ->
  errors_Is_Canceled e = false -> i <> attempts ->
  exists rest,
    snd (executeWithRetries_loop env (S n) i attempts op o encoder decoder
           err0 w tr)
    = tr1 ++ Slept op (RetryDelay o) :: rest.
Proof.
  intros H He Hi. simpl. unfold Eff.bind at 1. rewrite H, He.
  apply Z.eqb_neq in Hi. rewrite Hi. cbn [negb].
  unfold Eff.bind, Eff.emit, Eff.lift, Eff.ret.
  destruct (SleepWithContext env op (RetryDelay o) w1) as [[se|] w2].
  - exists []. reflexivity.
  - destruct (executeWithRetries_loop_grows n (i + 1) attempts op o encoder
                decoder (Some e) w2 (tr1 ++ [Slept op (RetryDelay o)]))
      as (rest & Hrest).
    rewrite Hrest. rewrite <- app_assoc. exists rest. reflexivity.
Qed.

(** C9. [defineAttributeListId] of the empty list is id 1 and
    [defineAttributeList] of id 1 is the empty list, both without an
    error, without an event and without a step of the world: no request
    is executed, whatever the node does. *)
Theorem empty_attribute_list_has_id_1 (w : W) (tr : list event) :
  defineAttributeListId env [] w tr = ((1, None), w, tr)
  /\ defineAttributeList env 1 w tr = (([], None), w, tr)
  /\ emptyAttributeListId = 1.
Proof. repeat split. Qed.

End SingleProperties.


(** ** The cluster client's retry loop *)

Section RetryProperties.

Import Single ClusterClient.

Context {W : Type} (env : ClusterClient.collaborators W).

Lemma actions_of_app t1 t2 :
  actions_of (t1 ++ t2) = actions_of t1 ++ actions_of t2.
Proof. unfold actions_of. apply omap_app. Qed.

(** One pass through the head of the loop runs the action at most once,
    with the options of the loop. *)
Lemma attempt_trace op action opt client w tr :
  exists new,
    snd (attempt env op action opt client w tr) = tr ++ new
    /\ (length (actions_of new) <= 1)%nat
    /\ Forall (fun o => o = opt) (actions_of new).
Proof.
  unfold attempt, cluster_client.
  unfold Eff.bind, Eff.emit, Eff.lift, Eff.ret, Eff.read.
  destruct (getRoute env client w) as [[route|] w1]; simpl.
  - destruct (action (Some route) opt w1) as [err w2]. simpl.
    exists [Action (Some route) opt]. simpl. repeat split; auto.
  - exists []. simpl. rewrite app_nil_r. repeat split; auto.
Qed.

(** [n] iterations run the action at most [n] times, always with the
    options of the loop. *)
Lemma retry_loop_trace n i attempts op action opt client err w tr :
  exists new,
    snd (retry_loop env n i attempts op action opt client err w tr)
      = tr ++ new
    /\ (length (actions_of new) <= n)%nat
    /\ Forall (fun o => o = opt) (actions_of new).
Proof.
  revert i client err w tr.
  induction n as [|n IH]; intros i client err w tr; simpl.
  - exists []. unfold Eff.ret. simpl. rewrite app_nil_r. repeat split; auto.
  - unfold Eff.bind at 1.
    destruct (attempt_trace op action opt client w tr) as (new1 & H1 & L1 & F1).
    destruct (attempt env op action opt client w tr) as [[[client' err'] w1] tr1].
    simpl in H1. subst tr1.
    assert (forall i' err'' w' tr',
              tr' = (tr ++ new1) ++ [] \/
              (exists d, tr' = (tr ++ new1) ++ [Backoff op d]) ->
              exists new,
                snd (retry_loop env n i' attempts op action opt client' err''
                       w' tr') = tr ++ new
                /\ (length (actions_of new) <= S n)%nat
                /\ Forall (fun o => o = opt) (actions_of new)) as Hnext.
    { intros i' err'' w' tr' Htr'.
      destruct (IH i' client' err'' w' tr') as (new2 & H2 & L2 & F2).
      rewrite H2.
      destruct Htr' as [-> | (d & ->)]; rewrite <- !app_assoc; eexists;
        (split; [reflexivity|]); rewrite !actions_of_app; simpl;
        rewrite length_app; (split; [lia|]);
        apply Forall_app; split; assumption. }
    assert (exists new,
              tr ++ new1 = tr ++ new
              /\ (length (actions_of new) <= S n)%nat
              /\ Forall (fun o => o = opt) (actions_of new)) as Hstop
      by (exists new1; repeat split; [lia | assumption]).
    destruct err' as [e|]; [|exact Hstop].
    destruct (negb (isRetryable env opt e)); [exact Hstop|].
    destruct (negb (i =? attempts)).
    + destruct (0 <? _).
      * unfold Eff.bind, Eff.emit, Eff.lift, Eff.ret.
        destruct (SleepWithContext env op _ w1) as [[se|] w2].
        -- simpl. rewrite <- app_assoc. eexists. split; [reflexivity|].
           rewrite actions_of_app, length_app. simpl.
           split; [lia|]. apply Forall_app. split; [assumption|constructor].
        -- apply Hnext. right. eexists. reflexivity.
      * apply Hnext. left. now rewrite app_nil_r.
    + apply Hnext. left. now rewrite app_nil_r.
Qed.

(** An error the retry policy rejects ends the loop where it arose. *)
Lemma retry_loop_not_retryable n i attempts op action opt client err0
    w tr client' e w1 tr1 :
  attempt env op action opt client w tr = ((client', Some e), w1, tr1) ->
  isRetryable env opt e = false ->
  retry_loop env (S n) i attempts op action opt client err0 w tr
    = (Some e, w1, tr1).
Proof.
  intros H He. simpl. unfold Eff.bind at 1. rewrite H, He. reflexivity.
Qed.

(** C6. Whatever the operation, the action, the options and the cluster
    do, [retry] runs the per-node action at most [RetryMaxAttempts + 1]
    times (never, when that number is negative), and every run gets
    options whose [RetryMaxAttempts] is 0; with such options the per-node
    [executeWithRetries] makes exactly one attempt and never sleeps. *)
Theorem retry_attempt_budget (op : string)
    (action : DaxAPI -> RequestOptions -> W -> option error * W)
    (opt : RequestOptions) (w : W) (tr : list ClusterClient.event) :
  exists new,
    snd (retry env op action opt w tr) = tr ++ new
    /\ (length (actions_of new) <= Z.to_nat (RetryMaxAttempts opt + 1))%nat
    /\ (0 <= RetryMaxAttempts opt ->
        Z.of_nat (length (actions_of new)) <= RetryMaxAttempts opt + 1)
    /\ Forall (fun o => RetryMaxAttempts o = 0) (actions_of new)
    /\ (forall (o : RequestOptions) (V : Type) (node : Single.collaborators V)
               (A : Type) (nodeOp : string)
               (encoder : tube -> V -> option error * V)
               (decoder : tube -> V -> result A * V)
               (v : V) (nodeTrace : list Single.event),
          o ∈ actions_of new ->
          exists attempts,
            snd (executeWithRetries node nodeOp o encoder decoder v nodeTrace)
              = nodeTrace ++ attempts
            /\ attempts_of attempts = 1%nat
            /\ sleeps_of attempts = 0%nat).
Proof.
  unfold retry. unfold Eff.bind at 1.
  destruct (retry_loop_trace (Z.to_nat (RetryMaxAttempts opt + 1)) 0
              (RetryMaxAttempts opt) op action (set_RetryMaxAttempts 0 opt)
              None None w tr) as (new & Htr & Hlen & Hall).
  destruct (retry_loop env _ _ _ _ _ _ _ _ w tr) as [[err w1] tr1].
  simpl in Htr. subst tr1. exists new. unfold Eff.ret. simpl.
  assert (Forall (fun o => RetryMaxAttempts o = 0) (actions_of new)) as Hzero.
  { eapply Forall_impl; [exact Hall|]. intros o ->. reflexivity. }
  repeat split; auto.
  - intros Hpos. lia.
  - intros o V node A nodeOp encoder decoder v nodeTrace Ho.
    apply executeWithRetries_no_retries.
    rewrite Forall_forall in Hzero. auto.
Qed.

End RetryProperties.

(** A node that keeps failing with a recoverable error, and three
    retries: the action runs four times, each time with retries off. *)
Lemma retry_attempt_budget_witness :
  exists new,
    snd (ClusterClient.retry ClusterClient.mockCluster "GetItem"
           (ClusterClient.failingAction (DaxRequestFailure [2] "" ""))
           (Single.optionsWithAttempts 3) tt [])
    = [] ++ new
    /\ Z.of_nat (length (ClusterClient.actions_of new)) <= 3 + 1
    /\ length (ClusterClient.actions_of new) = 4%nat.
Proof.
  destruct (retry_attempt_budget ClusterClient.mockCluster "GetItem"
              (ClusterClient.failingAction (DaxRequestFailure [2] "" ""))
              (Single.optionsWithAttempts 3) tt [])
    as (new & Htr & _ & Hbound & _).
  exists new. split; [exact Htr|]. split.
  - apply Hbound. simpl. lia.
  - simpl in Htr. rewrite <- Htr. vm_compute. reflexivity.
Defined.

(** ** Cancellation in the retry loops *)




(** ** The codec: numbers *)

Section NumberEncoding.

Import Cbor.

Context {numbers : Numbers}.

Lemma WriteBigInt_never_fails v w : fst (WriteBigInt v w) = None.
Proof. unfold WriteBigInt. now destruct (0 <=? v). Qed.

Lemma WriteInt64_never_fails i w : fst (WriteInt64 i w) = None.
Proof. unfold WriteInt64. now destruct (0 <=? i). Qed.

(** The three routes of [writeStringNumber], and the rejections two of
    them make. *)
Lemma writeStringNumber_routes (val : string) (w : Writer) :
  (containsAny val ".eE" = true ->
   forall d, Decimal_SetString val = Some d ->
     writeStringNumber val w
     = (None, w ++ byte_of_Z (Z.lor Tag TagDecimal) :: Decimal_body d))
  /\ (containsAny val ".eE" = true -> Decimal_SetString val = None ->
      writeStringNumber val w = (Some (invalidNumber val), w))
  /\ (containsAny val ".eE" = false -> (18 < String.length val)%nat ->
      forall z, parseSigned val = Some z ->
        exists magnitude,
          writeStringNumber val w
          = (None,
             w ++ byte_of_Z (Z.lor Tag (if 0 <=? z then TagPosBigInt
                                        else TagNegBigInt)) :: magnitude))
  /\ (containsAny val ".eE" = false -> (String.length val <= 18)%nat ->
      forall i, ParseInt64 val = Some i ->
        writeStringNumber val w
        = (None, w ++ (if 0 <=? i then header PosInt i
                       else header NegInt (-1 - i))))
  /\ (containsAny val ".eE" = false -> (String.length val <= 18)%nat ->
      ParseInt64 val = None ->
      writeStringNumber val w = (Some (invalidNumber val), w)).
Proof.
  unfold writeStringNumber. repeat split.
  - intros Hc d Hd. now rewrite Hc, Hd.
  - intros Hc Hd. now rewrite Hc, Hd.
  - intros Hc Hl z Hz. rewrite Hc, Hz.
    apply Nat.ltb_lt in Hl. rewrite Hl.
    unfold WriteBigInt. destruct (0 <=? z); eexists; reflexivity.
  - intros Hc Hl i Hi. rewrite Hc, Hi.
    apply Nat.ltb_ge in Hl. rewrite Hl.
    unfold WriteInt64. now destruct (0 <=? i).
  - intros Hc Hl Hi. rewrite Hc, Hi.
    apply Nat.ltb_ge in Hl. now rewrite Hl.
Qed.

(** C3, at a malformed number of twenty characters: it has no ['.'],
    ['e'] or ['E'], it is no integer, and [writeStringNumber] returns no
    error: what [big.Int.SetString] left behind is written as a big
    integer. *)
Theorem malformed_long_number_is_written (w : Writer) :
  let val := "1234567890123456789a" in
  containsAny val ".eE" = false
  /\ String.length val = 20%nat
  /\ parseSigned val = None
  /\ ParseInt64 val = None
  /\ writeStringNumber val w
     = WriteBigInt (bigInt_afterFailedSetString val) w
  /\ fst (writeStringNumber val w) = None.
Proof.
  cbv zeta.
  assert (writeStringNumber "1234567890123456789a" w
          = WriteBigInt (bigInt_afterFailedSetString "1234567890123456789a") w)
    as H by reflexivity.
  repeat split; try reflexivity.
  rewrite H. apply WriteBigInt_never_fails.
Qed.

End NumberEncoding.

(** With the reference numbers the malformed string goes out as the big
    integer 0 and comes back as the number "0"; the same string cut to
    eighteen characters is rejected. *)
Lemma malformed_long_number_example :
  Cbor.encode (Cbor.AttributeValueMemberN "1234567890123456789a")
  = (None, [xc2; x40])
  /\ Cbor.DecodeAttributeValue [xc2; x40]
     = Ok (Cbor.AttributeValueMemberN "0", [])
  /\ Cbor.encode (Cbor.AttributeValueMemberN "12345678901234567a")
     = (Some (SerializationError "invalid number 12345678901234567a"), []).
Proof. repeat split. Qed.

(** ** The codec: bytes and headers *)

Section WireFacts.

Import Cbor.

Lemma Z_of_byte_range b : 0 <= Z_of_byte b < 256.
Proof.
  unfold Z_of_byte. pose proof (Byte.to_N_bounded b). lia.
Qed.

Lemma Z_of_byte_of_Z z : 0 <= z < 256 -> Z_of_byte (byte_of_Z z) = z.
Proof.
  intros Hz. unfold Z_of_byte, byte_of_Z. rewrite Z.mod_small by lia.
  destruct (Byte.of_N (Z.to_N z)) as [b|] eqn:E.
  - apply Byte.to_of_N in E. rewrite E. lia.
  - apply Byte.of_N_None_iff in E. lia.
Qed.

Lemma Z_of_byte_of_Z_mod z : Z_of_byte (byte_of_Z z) = z mod 256.
Proof.
  unfold Z_of_byte, byte_of_Z.
  pose proof (Z.mod_pos_bound z 256 ltac:(lia)) as Hm.
  destruct (Byte.of_N (Z.to_N (z mod 256))) as [b|] eqn:E.
  - apply Byte.to_of_N in E. rewrite E. lia.
  - apply Byte.of_N_None_iff in E. lia.
Qed.

Lemma length_be_bytes n v : length (be_bytes n v) = n.
Proof. induction n; simpl; auto. Qed.

Lemma be_value_fold bs acc :
  fold_left (fun a b => a * 256 + Z_of_byte b) bs acc
  = acc * 256 ^ Z.of_nat (length bs) + be_value bs.
Proof.
  unfold be_value. revert acc. induction bs as [|b bs IH]; intros acc.
  - simpl. lia.
  - cbn [fold_left length]. rewrite IH. rewrite (IH (0 * 256 + Z_of_byte b)).
    rewrite Nat2Z.inj_succ, Z.pow_succ_r by lia. ring.
Qed.

Lemma be_value_cons b bs :
  be_value (b :: bs) = Z_of_byte b * 256 ^ Z.of_nat (length bs) + be_value bs.
Proof.
  unfold be_value at 1. cbn [fold_left]. rewrite be_value_fold. ring.
Qed.

Lemma be_value_be_bytes n v :
  0 <= v -> be_value (be_bytes n v) = v mod 256 ^ Z.of_nat n.
Proof.
  intros Hv. induction n as [|n IH].
  - simpl. now rewrite Z.mod_1_r.
  - cbn [be_bytes]. rewrite be_value_cons, length_be_bytes, IH.
    assert (0 < 256 ^ Z.of_nat n) as Hp by (apply Z.pow_pos_nonneg; lia).
    rewrite Z_of_byte_of_Z_mod.
    rewrite Nat2Z.inj_succ, Z.pow_succ_r by lia.
    rewrite (Z.mul_comm 256). rewrite Z.rem_mul_r by lia. ring.
Qed.

Lemma be_value_be_bytes_small n v :
  0 <= v < 256 ^ Z.of_nat n -> be_value (be_bytes n v) = v.
Proof.
  intros Hv. rewrite be_value_be_bytes by lia. now apply Z.mod_small.
Qed.

Lemma byte_length_bound v : 0 <= v -> v < 256 ^ Z.of_nat (byte_length v).
Proof.
  intros Hv. unfold byte_length.
  destruct (v <=? 0) eqn:E.
  - apply Z.leb_le in E. simpl. lia.
  - apply Z.leb_gt in E.
    pose proof (Z.log2_nonneg v) as Hl.
    rewrite Z2Nat.id by (pose proof (Z.div_pos (Z.log2 v) 8); lia).
    change 256 with (2 ^ 8). rewrite <- Z.pow_mul_r by
      (pose proof (Z.div_pos (Z.log2 v) 8); lia).
    apply Z.log2_lt_pow2; [lia|].
    pose proof (Z.mul_div_le (Z.log2 v) 8 ltac:(lia)).
    pose proof (Z.mod_pos_bound (Z.log2 v) 8 ltac:(lia)).
    pose proof (Z.div_mod (Z.log2 v) 8 ltac:(lia)). lia.
Qed.

Lemma be_value_byte_length v :
  0 <= v -> be_value (be_bytes (byte_length v) v) = v.
Proof.
  intros Hv. apply be_value_be_bytes_small. split; [lia|].
  now apply byte_length_bound.
Qed.

Lemma first_byte_table :
  forallb (fun m => forallb (fun k => first_byte_ok m (Z.of_nat k)) (seq 0 32))
    majors = true.
Proof. vm_compute. reflexivity. Qed.

Lemma first_byte major k :
  In major majors -> 0 <= k < 32 ->
  Z.land (Z_of_byte (byte_of_Z (Z.lor major k))) MajorTypeMask = major
  /\ Z.land (Z_of_byte (byte_of_Z (Z.lor major k))) MinorTypeMask = k.
Proof.
  intros Hm Hk. pose proof first_byte_table as T.
  rewrite forallb_forall in T. specialize (T major Hm).
  rewrite forallb_forall in T. specialize (T (Z.to_nat k)).
  rewrite Z2Nat.id in T by lia.
  assert (In (Z.to_nat k) (seq 0 32)) as Hin by (apply in_seq; lia).
  specialize (T Hin). unfold first_byte_ok in T.
  apply andb_true_iff in T as [T1 T2].
  apply Z.eqb_eq in T1. apply Z.eqb_eq in T2. now split.
Qed.

Lemma info_range value : 0 <= value -> 0 <= info value < 32.
Proof.
  intros H. unfold info.
  repeat match goal with |- context [?a <? ?b] => destruct (Z.ltb_spec a b) end;
    lia.
Qed.

Lemma header_first major value :
  exists tail, header major value = byte_of_Z (Z.lor major (info value)) :: tail.
Proof.
  unfold header, info.
  repeat match goal with |- context [?a <? ?b] => destruct (Z.ltb_spec a b) end;
    eexists; reflexivity.
Qed.

Lemma length_header major value : (1 <= length (header major value) <= 9)%nat.
Proof.
  unfold header.
  repeat match goal with |- context [?a <? ?b] => destruct (Z.ltb_spec a b) end;
    simpl; lia.
Qed.

Lemma readFull_app (bs rest : list byte) :
  readFull (length bs) (bs ++ rest) = Ok (bs, rest).
Proof.
  unfold readFull.
  assert (Nat.leb (length bs) (length (bs ++ rest)) = true) as ->
    by (apply Nat.leb_le; rewrite length_app; lia).
  rewrite take_app_length, drop_app_length. reflexivity.
Qed.

(** A header reads back as its major type and value. *)
Lemma readTypeHeader_header major value rest :
  In major majors -> 0 <= value < 2 ^ 64 ->
  readTypeHeader (header major value ++ rest) = Ok (major, value, rest).
Proof.
  intros Hm Hv. unfold header.
  assert (forall k n, 24 <= k < 28 -> 0 <= value < 256 ^ Z.of_nat n ->
            (if k =? 24 then n = 1%nat else if k =? 25 then n = 2%nat
             else if k =? 26 then n = 4%nat else n = 8%nat) ->
            readTypeHeader
              ((byte_of_Z (Z.lor major k) :: be_bytes n value) ++ rest)
            = Ok (major, value, rest)) as Hwide.
  { intros k n Hk Hn Hkn. cbn [app readTypeHeader].
    destruct (first_byte major k Hm ltac:(lia)) as [-> ->].
    pose proof (readFull_app (be_bytes n value) rest) as Hr.
    rewrite length_be_bytes in Hr.
    destruct (Z.ltb_spec k 24); [lia|].
    destruct (Z.eqb_spec k 24); [subst n; rewrite Hr; cbn [bindR];
      now rewrite be_value_be_bytes_small|].
    destruct (Z.eqb_spec k 25); [subst n; rewrite Hr; cbn [bindR];
      now rewrite be_value_be_bytes_small|].
    destruct (Z.eqb_spec k 26); [subst n; rewrite Hr; cbn [bindR];
      now rewrite be_value_be_bytes_small|].
    destruct (Z.eqb_spec k 27); [subst n; rewrite Hr; cbn [bindR];
      now rewrite be_value_be_bytes_small|].
    lia. }
  destruct (Z.ltb_spec value 24).
  - cbn [app readTypeHeader].
    destruct (first_byte major value Hm ltac:(lia)) as [-> ->].
    destruct (Z.ltb_spec value 24); [reflexivity|lia].
  - destruct (Z.ltb_spec value (2 ^ 8)); [apply Hwide; [lia | simpl; lia | reflexivity]|].
    destruct (Z.ltb_spec value (2 ^ 16)); [apply Hwide; [lia | simpl; lia | reflexivity]|].
    destruct (Z.ltb_spec value (2 ^ 32)); [apply Hwide; [lia | simpl; lia | reflexivity]|].
    apply Hwide; [lia | simpl; lia | reflexivity].
Qed.

Lemma readHeaderOf_header major value rest :
  In major majors -> 0 <= value < 2 ^ 64 ->
  readHeaderOf major (header major value ++ rest) = Ok (value, rest).
Proof.
  intros Hm Hv. unfold readHeaderOf.
  rewrite readTypeHeader_header by assumption. cbn [bindR].
  now rewrite Z.eqb_refl.
Qed.

(** Peeking at a header shows its major type and additional
    information. *)
Lemma PeekHeader_header major value rest :
  In major majors -> 0 <= value ->
  exists hdr,
    PeekHeader (header major value ++ rest)
      = Ok (hdr, header major value ++ rest)
    /\ Z.land hdr MajorTypeMask = major
    /\ Z.land hdr MinorTypeMask = info value.
Proof.
  intros Hm Hv. destruct (header_first major value) as (tail & ->).
  eexists. split; [reflexivity|].
  apply first_byte; [assumption | now apply info_range].
Qed.

End WireFacts.

(** ** The codec: decimal digits *)

Section DigitFacts.

Import Cbor.

(** A parsed digit string has as many digits as the string has
    characters. *)
Lemma uint_of_string_digits s d :
  NilEmpty.uint_of_string s = Some d -> nb_digits d = String.length s.
Proof.
  revert d. induction s as [|c s IH]; intros d; simpl.
  - now intros [= <-].
  - destruct (NilEmpty.uint_of_string s) as [d'|]; [|discriminate].
    intros H. apply uint_of_char_spec in H.
    specialize (IH d' eq_refl).
    repeat (destruct H as [[_ ->]|H]; [simpl; now rewrite IH|]).
    destruct H as [_ ->]. simpl. now rewrite IH.
Qed.

(** Digits read least significant first stay below the power of ten. *)
Lemma of_lu_bound d : (DecimalPos.Unsigned.of_lu d < 10 ^ N.of_nat (nb_digits d))%N.
Proof.
  induction d; cbn [DecimalPos.Unsigned.of_lu nb_digits];
    rewrite ?Nat2N.inj_succ, ?N.pow_succ_r'; lia.
Qed.

Lemma of_uint_bound d : 0 <= Z.of_uint d < 10 ^ Z.of_nat (nb_digits d).
Proof.
  unfold Z.of_uint. rewrite DecimalPos.Unsigned.of_uint_alt.
  pose proof (of_lu_bound (Decimal.rev d)) as H.
  rewrite DecimalFacts.nb_digits_rev in H.
  split; [lia|].
  apply N2Z.inj_lt in H. rewrite N2Z.inj_pow in H.
  now rewrite nat_N_Z in H.
Qed.

(** A number that parses is smaller, in absolute value, than ten to the
    length of its spelling. *)
Lemma parseSigned_bound s z :
  parseSigned s = Some z -> Z.abs z < 10 ^ Z.of_nat (String.length s).
Proof.
  destruct s as [|c s]; [discriminate|]. unfold parseSigned.
  assert (forall t d, NilZero.uint_of_string t = Some d ->
            0 <= Z.of_uint d < 10 ^ Z.of_nat (String.length t)) as Hu.
  { intros t d Ht. destruct t; [discriminate|].
    apply uint_of_string_digits in Ht. rewrite <- Ht. apply of_uint_bound. }
  assert (forall n : nat, 10 ^ Z.of_nat n <= 10 ^ Z.of_nat (S n)) as Hmono
    by (intros n; apply Z.pow_le_mono_r; lia).
  destruct (Ascii.eqb c "+").
  - destruct (NilZero.uint_of_string s) as [d|] eqn:E; [|discriminate].
    intros [= <-]. apply Hu in E. specialize (Hmono (String.length s)).
    cbn [Z.of_int String.length]. lia.
  - unfold NilZero.int_of_string.
    destruct (Ascii.eqb c "-").
    + destruct (NilZero.uint_of_string s) as [d|] eqn:E; [|discriminate].
      intros [= <-]. apply Hu in E. specialize (Hmono (String.length s)).
      cbn [Z.of_int String.length option_map]. lia.
    + destruct (NilZero.uint_of_string (String c s)) as [d|] eqn:E;
        [|discriminate].
      intros [= <-]. apply Hu in E. cbn [Z.of_int]. lia.
Qed.

(** The spelling of digits has no ['.'], ['e'] or ['E']. *)
Lemma string_of_uint_plain d :
  containsAny (NilEmpty.string_of_uint d) ".eE" = false.
Proof. induction d; simpl; auto. Qed.

Lemma string_of_int_plain d :
  containsAny (NilZero.string_of_int d) ".eE" = false.
Proof.
  destruct d as [d|d]; simpl.
  - destruct d; try apply (string_of_uint_plain (_ d)). reflexivity.
  - destruct d; try apply (string_of_uint_plain (_ d)). reflexivity.
Qed.

(** What a canonical integer spelling is to the code: it has no decimal
    marker, it parses, and formatting the number gives it back. *)
Lemma canonicalInt_spec s :
  canonicalInt s = true ->
  exists z,
    containsAny s ".eE" = false
    /\ parseSigned s = Some z
    /\ FormatInt z = s.
Proof.
  unfold canonicalInt.
  destruct (NilZero.int_of_string s) as [d|] eqn:E; [|discriminate].
  destruct (Decimal.int_eq_dec (norm d) d) as [Hn|]; [|discriminate].
  intros _. exists (Z.of_int d).
  pose proof (NilZero.sis s d E) as Hs.
  split; [rewrite <- Hs; apply string_of_int_plain|].
  split.
  - destruct s as [|c s]; [discriminate|]. unfold parseSigned.
    destruct (Ascii.eqb_spec c "+") as [->|]; [|now rewrite E].
    simpl in E. destruct (NilEmpty.uint_of_string s); discriminate.
  - unfold FormatInt. now rewrite DecimalZ.to_of, Hn.
Qed.

End DigitFacts.

(** ** The codec: items *)

(** Closed comparisons of the dispatch evaluate. *)
Ltac eval_eqb :=
  repeat match goal with
         | |- context [Z.eqb ?a ?b] =>
             let v := eval vm_compute in (Z.eqb a b) in
             lazymatch v with
             | true => change (Z.eqb a b) with true
             | false => change (Z.eqb a b) with false
             end
         end;
  cbn [orb andb negb].

Section ItemRoundTrips.

Import Cbor.

Context {numbers : Numbers}.

Lemma fitsInt_range n : fitsInt n = true -> 0 <= Z.of_nat n <= maxInt.
Proof. unfold fitsInt. intros H. apply Z.leb_le in H. lia. Qed.

Lemma fitsInt_uint64 n : fitsInt n = true -> 0 <= Z.of_nat n < 2 ^ 64.
Proof. intros H. apply fitsInt_range in H. unfold maxInt in H. lia. Qed.

Lemma in_majors_Utf : In Utf majors. Proof. unfold majors; simpl; tauto. Qed.
Lemma in_majors_Bytes : In Bytes majors. Proof. unfold majors; simpl; tauto. Qed.
Lemma in_majors_Array : In Array majors. Proof. unfold majors; simpl; tauto. Qed.
Lemma in_majors_Map : In Map majors. Proof. unfold majors; simpl; tauto. Qed.
Lemma in_majors_Tag : In Tag majors. Proof. unfold majors; simpl; tauto. Qed.
Lemma in_majors_PosInt : In PosInt majors. Proof. unfold majors; simpl; tauto. Qed.
Lemma in_majors_NegInt : In NegInt majors. Proof. unfold majors; simpl; tauto. Qed.

Lemma length_list_byte_of_string s :
  length (list_byte_of_string s) = String.length s.
Proof.
  unfold list_byte_of_string. rewrite length_map.
  induction s; simpl; auto.
Qed.

Lemma ReadString_stringBytes s rest :
  fitsInt (String.length s) = true ->
  ReadString (stringBytes s ++ rest) = Ok (s, rest).
Proof.
  intros Hs. unfold ReadString, stringBytes. rewrite <- app_assoc.
  rewrite readHeaderOf_header by (auto using in_majors_Utf, fitsInt_uint64).
  cbn [bindR]. rewrite Nat2Z.id, <- length_list_byte_of_string.
  rewrite readFull_app. cbn [bindR].
  now rewrite string_of_list_byte_of_string.
Qed.

Lemma ReadBytes_bytesBytes b rest :
  fitsInt (length b) = true ->
  ReadBytes (bytesBytes b ++ rest) = Ok (b, rest).
Proof.
  intros Hb. unfold ReadBytes, bytesBytes. rewrite <- app_assoc.
  rewrite readHeaderOf_header by (auto using in_majors_Bytes, fitsInt_uint64).
  cbn [bindR]. rewrite Nat2Z.id. apply readFull_app.
Qed.

Lemma ReadArrayLength_header n rest :
  fitsInt n = true ->
  ReadArrayLength (header Array (Z.of_nat n) ++ rest) = Ok (Z.of_nat n, rest).
Proof.
  intros Hn. unfold ReadArrayLength.
  rewrite readHeaderOf_header by (auto using in_majors_Array, fitsInt_uint64).
  cbn [bindR]. rewrite int_wrap_small; [reflexivity|].
  apply fitsInt_range in Hn. unfold minInt. lia.
Qed.

Lemma ReadMapLength_header n rest :
  fitsInt n = true ->
  ReadMapLength (header Map (Z.of_nat n) ++ rest) = Ok (Z.of_nat n, rest).
Proof.
  intros Hn. unfold ReadMapLength.
  rewrite readHeaderOf_header by (auto using in_majors_Map, fitsInt_uint64).
  cbn [bindR]. rewrite int_wrap_small; [reflexivity|].
  apply fitsInt_range in Hn. unfold minInt. lia.
Qed.

Lemma readSlice_length {A : Type} (f : read A) (n : nat) r :
  readSlice f (Z.of_nat n) r = readN f n r.
Proof.
  unfold readSlice. destruct (Z.ltb_spec (Z.of_nat n) 0); [lia|].
  now rewrite Nat2Z.id.
Qed.

(** *** Numbers *)

Lemma decode_text fuel s rest :
  fitsInt (String.length s) = true ->
  DecodeAttributeValue_fuel (S fuel) (stringBytes s ++ rest)
  = Ok (AttributeValueMemberS s, rest).
Proof.
  intros Hs. cbn [DecodeAttributeValue_fuel].
  pose proof (ReadString_stringBytes s rest Hs) as Hr.
  unfold stringBytes in *. rewrite <- app_assoc in *.
  destruct (PeekHeader_header Utf (Z.of_nat (String.length s))
              (list_byte_of_string s ++ rest) in_majors_Utf ltac:(lia))
    as (hdr & -> & Hmaj & _).
  cbn [bindR]. rewrite Hmaj. eval_eqb. rewrite Hr. reflexivity.
Qed.

Lemma decode_binary fuel b rest :
  fitsInt (length b) = true ->
  DecodeAttributeValue_fuel (S fuel) (bytesBytes b ++ rest)
  = Ok (AttributeValueMemberB b, rest).
Proof.
  intros Hb. cbn [DecodeAttributeValue_fuel].
  pose proof (ReadBytes_bytesBytes b rest Hb) as Hr.
  unfold bytesBytes in *. rewrite <- app_assoc in *.
  destruct (PeekHeader_header Bytes (Z.of_nat (length b)) (b ++ rest)
              in_majors_Bytes ltac:(lia)) as (hdr & -> & Hmaj & _).
  cbn [bindR]. rewrite Hmaj. eval_eqb. rewrite Hr. reflexivity.
Qed.

(** An integer in the int64 range, written by [WriteInt64], decodes to
    its canonical spelling. *)
Lemma decode_int64 fuel i rest :
  minInt <= i <= maxInt ->
  DecodeAttributeValue_fuel (S fuel)
    ((if 0 <=? i then header PosInt i else header NegInt (-1 - i)) ++ rest)
  = Ok (AttributeValueMemberN (FormatInt i), rest).
Proof.
  intros Hi. unfold minInt, maxInt in Hi. cbn [DecodeAttributeValue_fuel].
  destruct (Z.leb_spec 0 i).
  - destruct (PeekHeader_header PosInt i rest in_majors_PosInt ltac:(lia))
      as (hdr & -> & Hmaj & _).
    cbn [bindR]. rewrite Hmaj. eval_eqb. unfold ReadCborIntegerToString.
    rewrite readTypeHeader_header by (auto using in_majors_PosInt; lia).
    cbn [bindR]. eval_eqb. reflexivity.
  - destruct (PeekHeader_header NegInt (-1 - i) rest in_majors_NegInt
                ltac:(lia)) as (hdr & -> & Hmaj & _).
    cbn [bindR]. rewrite Hmaj. eval_eqb. unfold ReadCborIntegerToString.
    rewrite readTypeHeader_header by (auto using in_majors_NegInt; lia).
    cbn [bindR]. eval_eqb.
    replace (-1 - (-1 - i)) with i by lia. reflexivity.
Qed.

Lemma WriteBigInt_bytes v w : WriteBigInt v w = (None, w ++ bigIntBytes v).
Proof. unfold WriteBigInt, bigIntBytes. now destruct (0 <=? v). Qed.

(** A magnitude below ten to a Go length has a Go length of bytes. *)
Lemma byte_length_fits v n :
  0 <= v < 10 ^ Z.of_nat n -> Z.of_nat n <= maxInt ->
  fitsInt (byte_length v) = true.
Proof.
  intros Hv Hn. unfold fitsInt. apply Z.leb_le. unfold byte_length.
  destruct (Z.leb_spec v 0); [unfold maxInt; simpl; lia|].
  assert (Z.log2 v < 4 * Z.of_nat n) as Hlog.
  { apply Z.log2_lt_pow2; [lia|].
    rewrite Z.pow_mul_r by lia. change (2 ^ 4) with 16.
    pose proof (Z.pow_le_mono_l 10 16 (Z.of_nat n)). lia. }
  pose proof (Z.log2_nonneg v).
  rewrite Z2Nat.id by (pose proof (Z.div_pos (Z.log2 v) 8); lia).
  unfold maxInt in *.
  pose proof (Z.div_mod (Z.log2 v) 8 ltac:(lia)).
  pose proof (Z.mod_pos_bound (Z.log2 v) 8 ltac:(lia)).
  lia.
Qed.

Lemma decode_bigInt fuel v rest :
  fitsInt (byte_length (if 0 <=? v then v else -1 - v)) = true ->
  DecodeAttributeValue_fuel (S fuel) (bigIntBytes v ++ rest)
  = Ok (AttributeValueMemberN (FormatInt v), rest).
Proof.
  intros Hfit. cbn [DecodeAttributeValue_fuel]. unfold bigIntBytes.
  destruct (Z.leb_spec 0 v).
  - rewrite <- app_assoc.
    destruct (PeekHeader_header Tag TagPosBigInt
                ((header Bytes (Z.of_nat (byte_length v))
                  ++ be_bytes (byte_length v) v) ++ rest)
                in_majors_Tag ltac:(unfold TagPosBigInt; lia))
      as (hdr & -> & Hmaj & Hmin).
    cbn [bindR]. rewrite Hmaj, Hmin. eval_eqb.
    change (info TagPosBigInt) with TagPosBigInt. eval_eqb.
    unfold ReadBigInt.
    rewrite readHeaderOf_header
      by (auto using in_majors_Tag; unfold TagPosBigInt; lia).
    cbn [bindR].
    pose proof (ReadBytes_bytesBytes (be_bytes (byte_length v) v) rest) as Hr.
    unfold bytesBytes in Hr. rewrite length_be_bytes in Hr.
    rewrite Hr by assumption. cbn [bindR]. eval_eqb.
    now rewrite be_value_byte_length by lia.
  - rewrite <- app_assoc.
    destruct (PeekHeader_header Tag TagNegBigInt
                ((header Bytes (Z.of_nat (byte_length (-1 - v)))
                  ++ be_bytes (byte_length (-1 - v)) (-1 - v)) ++ rest)
                in_majors_Tag ltac:(unfold TagNegBigInt; lia))
      as (hdr & -> & Hmaj & Hmin).
    cbn [bindR]. rewrite Hmaj, Hmin. eval_eqb.
    change (info TagNegBigInt) with TagNegBigInt. eval_eqb.
    unfold ReadBigInt.
    rewrite readHeaderOf_header
      by (auto using in_majors_Tag; unfold TagNegBigInt; lia).
    cbn [bindR].
    pose proof (ReadBytes_bytesBytes (be_bytes (byte_length (-1 - v)) (-1 - v))
                  rest) as Hr.
    unfold bytesBytes in Hr. rewrite length_be_bytes in Hr.
    rewrite Hr by assumption. cbn [bindR]. eval_eqb.
    rewrite be_value_byte_length by lia.
    replace (-1 - (-1 - v)) with v by lia. reflexivity.
Qed.

(** A number in canonical integer spelling is written without error, and
    what is written decodes to the same spelling. *)
Lemma number_round_trip s :
  canonicalInt s = true -> fitsInt (String.length s) = true ->
  exists bs,
    (forall w, writeStringNumber s w = (None, w ++ bs))
    /\ (1 <= length bs)%nat
    /\ (forall fuel rest,
          DecodeAttributeValue_fuel (S fuel) (bs ++ rest)
          = Ok (AttributeValueMemberN s, rest)).
Proof.
  intros Hc Hlen. destruct (canonicalInt_spec s Hc) as (z & Hplain & Hz & Hfmt).
  pose proof (parseSigned_bound s z Hz) as Hbound.
  unfold writeStringNumber. rewrite Hplain, Hz.
  destruct (Nat.ltb_spec 18 (String.length s)) as [Hlong|Hshort].
  - exists (bigIntBytes z). split; [apply WriteBigInt_bytes|]. split.
    + unfold bigIntBytes.
      destruct (0 <=? z); rewrite length_app;
        pose proof (length_header Tag TagPosBigInt);
        pose proof (length_header Tag TagNegBigInt); lia.
    + intros fuel rest. rewrite <- Hfmt. apply decode_bigInt.
      apply fitsInt_range in Hlen.
      apply (byte_length_fits _ (String.length s)); [|lia].
      destruct (Z.leb_spec 0 z); lia.
  - assert (10 ^ Z.of_nat (String.length s) <= 10 ^ 18) as Hpow
      by (apply Z.pow_le_mono_r; lia).
    assert (minInt <= z <= maxInt) as Hrange
      by (unfold minInt, maxInt; lia).
    unfold ParseInt64. rewrite Hz.
    assert ((minInt <=? z) && (z <=? maxInt) = true) as ->
      by (apply andb_true_iff; split; apply Z.leb_le; lia).
    exists (if 0 <=? z then header PosInt z else header NegInt (-1 - z)).
    split; [|split].
    + intros w. unfold WriteInt64, writeType, emitBytes. now destruct (0 <=? z).
    + destruct (0 <=? z);
        [pose proof (length_header PosInt z) | pose proof (length_header NegInt (-1 - z))];
        lia.
    + intros fuel rest. rewrite <- Hfmt. now apply decode_int64.
Qed.

End ItemRoundTrips.

(** ** The codec: the reference decimals *)

Section ReferenceDecimals.

Import Cbor.

Lemma ReadBigInt_bigIntBytes v rest :
  fitsInt (byte_length (if 0 <=? v then v else -1 - v)) = true ->
  ReadBigInt (bigIntBytes v ++ rest) = Ok (v, rest).
Proof.
  intros Hfit. unfold bigIntBytes, ReadBigInt.
  destruct (Z.leb_spec 0 v).
  - rewrite <- app_assoc.
    rewrite readHeaderOf_header
      by (auto using in_majors_Tag; unfold TagPosBigInt; lia).
    cbn [bindR].
    pose proof (ReadBytes_bytesBytes (be_bytes (byte_length v) v) rest) as Hr.
    unfold bytesBytes in Hr. rewrite length_be_bytes in Hr.
    rewrite Hr by assumption. cbn [bindR]. eval_eqb.
    now rewrite be_value_byte_length by lia.
  - rewrite <- app_assoc.
    rewrite readHeaderOf_header
      by (auto using in_majors_Tag; unfold TagNegBigInt; lia).
    cbn [bindR].
    pose proof (ReadBytes_bytesBytes (be_bytes (byte_length (-1 - v)) (-1 - v))
                  rest) as Hr.
    unfold bytesBytes in Hr. rewrite length_be_bytes in Hr.
    rewrite Hr by assumption. cbn [bindR]. eval_eqb.
    rewrite be_value_byte_length by lia.
    replace (-1 - (-1 - v)) with v by lia. reflexivity.
Qed.

(** The two integers of a reference decimal read back. *)
Lemma readInt_intBytes v rest :
  fitsInt (byte_length (if 0 <=? v then v else -1 - v)) = true ->
  readInt (intBytes v ++ rest) = Ok (v, rest).
Proof.
  intros Hfit. unfold intBytes, readInt.
  destruct ((minInt <=? v) && (v <=? maxInt)) eqn:Hrange.
  - apply andb_true_iff in Hrange as [Hlo Hhi].
    apply Z.leb_le in Hlo, Hhi. unfold minInt, maxInt in *.
    unfold WriteInt64, writeType, emitBytes.
    destruct (Z.leb_spec 0 v); cbn [snd app].
    + destruct (PeekHeader_header PosInt v rest in_majors_PosInt ltac:(lia))
        as (hdr & -> & Hmaj & _).
      cbn [bindR]. rewrite Hmaj. eval_eqb.
      rewrite readTypeHeader_header by (auto using in_majors_PosInt; lia).
      cbn [bindR]. eval_eqb. reflexivity.
    + destruct (PeekHeader_header NegInt (-1 - v) rest in_majors_NegInt
                  ltac:(lia)) as (hdr & -> & Hmaj & _).
      cbn [bindR]. rewrite Hmaj. eval_eqb.
      rewrite readTypeHeader_header by (auto using in_majors_NegInt; lia).
      cbn [bindR]. eval_eqb.
      replace (-1 - (-1 - v)) with v by lia. reflexivity.
  - rewrite WriteBigInt_bytes. cbn [snd app].
    assert (exists hdr,
              PeekHeader (bigIntBytes v ++ rest)
                = Ok (hdr, bigIntBytes v ++ rest)
              /\ Z.land hdr MajorTypeMask = Tag) as (hdr & -> & Hmaj).
    { unfold bigIntBytes. destruct (0 <=? v); rewrite <- app_assoc.
      - destruct (PeekHeader_header Tag TagPosBigInt
                    ((header Bytes (Z.of_nat (byte_length v))
                      ++ be_bytes (byte_length v) v) ++ rest)
                    in_majors_Tag ltac:(unfold TagPosBigInt; lia))
          as (hdr & Hpeek & Hmaj & _).
        now exists hdr.
      - destruct (PeekHeader_header Tag TagNegBigInt
                    ((header Bytes (Z.of_nat (byte_length (-1 - v)))
                      ++ be_bytes (byte_length (-1 - v)) (-1 - v)) ++ rest)
                    in_majors_Tag ltac:(unfold TagNegBigInt; lia))
          as (hdr & Hpeek & Hmaj & _).
        now exists hdr. }
    cbn [bindR]. rewrite Hmaj. eval_eqb.
    now apply ReadBigInt_bigIntBytes.
Qed.

Lemma splitAt_length sep s a b :
  splitAt sep s = (a, b) ->
  match b with
  | Some x => S (String.length a + String.length x) = String.length s
  | None => String.length a = String.length s
  end.
Proof.
  revert a b. induction s as [|c s IH]; intros a b; simpl.
  - intros [= <- <-]. reflexivity.
  - destruct (sep c).
    + intros [= <- <-]. reflexivity.
    + destruct (splitAt sep s) as [a' b'] eqn:E. intros [= <- <-].
      specialize (IH a' b' eq_refl). destruct b'; simpl; lia.
Qed.

Lemma length_string_app (s t : string) :
  String.length (s ++ t) = (String.length s + String.length t)%nat.
Proof. induction s as [|c s IH]; simpl; [reflexivity | now rewrite IH]. Qed.

(** Both integers of the decimal of a number string are below ten to its
    length. *)
Lemma decimalOfString_bound s u e :
  decimalOfString s = Some (u, e) ->
  Z.abs u < 10 ^ Z.of_nat (String.length s)
  /\ Z.abs e < 10 ^ Z.of_nat (String.length s).
Proof.
  unfold decimalOfString.
  destruct (splitAt _ s) as [mantissa exponent] eqn:E1.
  destruct (splitAt _ mantissa) as [whole fraction] eqn:E2.
  apply splitAt_length in E1, E2.
  destruct (parseSigned (whole ++ default "" fraction)) as [u'|] eqn:Hu;
    [|discriminate].
  apply parseSigned_bound in Hu. rewrite length_string_app in Hu.
  set (lf := String.length (default "" fraction)) in *.
  assert (forall a b : nat, (a <= b)%nat -> 10 ^ Z.of_nat a <= 10 ^ Z.of_nat b)
    as Hmono by (intros a b Hab; apply Z.pow_le_mono_r; lia).
  assert (forall n : nat, Z.of_nat n < 10 ^ Z.of_nat n) as Hlin
    by (intros n; apply Z.pow_gt_lin_r; lia).
  assert (lf <= String.length mantissa)%nat as Hlf
    by (subst lf; destruct fraction; simpl in *; lia).
  assert (String.length whole + lf <= String.length mantissa)%nat as Hdigits
    by (subst lf; destruct fraction; simpl in *; lia).
  destruct exponent as [x|].
  - destruct (parseSigned x) as [e'|] eqn:He; [|discriminate].
    apply parseSigned_bound in He. intros [= <- <-]. split.
    + pose proof (Hmono (String.length whole + lf)%nat (String.length s)
                    ltac:(lia)).
      lia.
    + pose proof (Hlin lf).
      pose proof (Hmono (String.length x) (Nat.max (String.length x) lf)
                    ltac:(lia)).
      pose proof (Hmono lf (Nat.max (String.length x) lf) ltac:(lia)).
      pose proof (Hmono (S (Nat.max (String.length x) lf)) (String.length s)
                    ltac:(lia)) as Htop.
      rewrite Nat2Z.inj_succ, Z.pow_succ_r in Htop by lia.
      lia.
  - intros [= <- <-]. split.
    + pose proof (Hmono (String.length whole + lf)%nat (String.length s)
                    ltac:(lia)).
      lia.
    + pose proof (Hlin lf). pose proof (Hmono lf (String.length s) ltac:(lia)).
      lia.
Qed.

(** The reference decimals read back as written. *)
Lemma referenceNumbers_read_back : @decimalsReadBack referenceNumbers.
Proof.
  intros s [u e] rest Hs Hlen. cbn in Hs.
  apply decimalOfString_bound in Hs as [Hu He].
  apply fitsInt_range in Hlen.
  assert (forall v, Z.abs v < 10 ^ Z.of_nat (String.length s) ->
            fitsInt (byte_length (if 0 <=? v then v else -1 - v)) = true)
    as Hfit.
  { intros v Hv. apply (byte_length_fits _ (String.length s)); [|lia].
    destruct (Z.leb_spec 0 v); lia. }
  cbn [ReadDecimal_body Decimal_body referenceNumbers fst snd].
  rewrite <- !app_assoc.
  rewrite readHeaderOf_header by (auto using in_majors_Array; lia).
  cbn [bindR]. eval_eqb.
  rewrite readInt_intBytes by auto. cbn [bindR].
  rewrite readInt_intBytes by auto. reflexivity.
Qed.

End ReferenceDecimals.

(** ** The codec: attribute values *)

Section AttributeValueInduction.

Import Cbor.

Variable P : AttributeValue -> Prop.

Hypothesis P_Nil : P AttributeValueNil.
Hypothesis P_S : forall v, P (AttributeValueMemberS v).
Hypothesis P_N : forall v, P (AttributeValueMemberN v).
Hypothesis P_B : forall v, P (AttributeValueMemberB v).
Hypothesis P_SS : forall v, P (AttributeValueMemberSS v).
Hypothesis P_NS : forall v, P (AttributeValueMemberNS v).
Hypothesis P_BS : forall v, P (AttributeValueMemberBS v).
Hypothesis P_L : forall v, Forall P v -> P (AttributeValueMemberL v).
Hypothesis P_M :
  forall v, Forall (fun kv => P (snd kv)) v -> P (AttributeValueMemberM v).
Hypothesis P_BOOL : forall v, P (AttributeValueMemberBOOL v).
Hypothesis P_NULL : forall v, P (AttributeValueMemberNULL v).

(** Induction that reaches the members of lists and maps. *)
Lemma AttributeValue_members_ind : forall a, P a.
Proof.
  fix IH 1. intros [ | v | v | v | v | v | v | v | v | v | v].
  - exact P_Nil.
  - exact (P_S v).
  - exact (P_N v).
  - exact (P_B v).
  - exact (P_SS v).
  - exact (P_NS v).
  - exact (P_BS v).
  - apply P_L. induction v as [|x v IHv]; constructor; [apply IH | exact IHv].
  - apply P_M.
    induction v as [|[k x] v IHv]; constructor; [apply IH | exact IHv].
  - exact (P_BOOL v).
  - exact (P_NULL v).
Qed.

End AttributeValueInduction.

Section SequenceRoundTrips.

Import Cbor.

Lemma andThen_bytes (a b : write) bs1 bs2 :
  (forall w, a w = (None, w ++ bs1)) -> (forall w, b w = (None, w ++ bs2)) ->
  forall w, andThen a b w = (None, w ++ bs1 ++ bs2).
Proof.
  intros Ha Hb w. unfold andThen. rewrite Ha, Hb. now rewrite <- app_assoc.
Qed.

Lemma forEach_bytes {A : Type} (f : A -> write) (l : list A)
    (bss : list (list byte)) :
  Forall2 (fun x bs => forall w, f x w = (None, w ++ bs)) l bss ->
  forall w, forEach f l w = (None, w ++ concat bss).
Proof.
  induction 1 as [|x bs l bss Hx _ IH]; intros w; simpl.
  - unfold done. now rewrite app_nil_r.
  - now apply andThen_bytes.
Qed.

Lemma readN_bytes {A : Type} (rd : read A) (l : list A)
    (bss : list (list byte)) (rest : list byte) :
  Forall2 (fun x bs => forall rest, rd (bs ++ rest) = Ok (x, rest)) l bss ->
  readN rd (length l) (concat bss ++ rest) = Ok (l, rest).
Proof.
  induction 1 as [|x bs l bss Hx _ IH]; simpl; [reflexivity|].
  rewrite <- app_assoc, Hx. cbn [bindR]. now rewrite IH.
Qed.

Lemma Forall2_map_self {A B : Type} (R : A -> B -> Prop) (g : A -> B)
    (l : list A) :
  (forall x, In x l -> R x (g x)) -> Forall2 R l (map g l).
Proof.
  induction l as [|x l IH]; intros H; simpl; constructor.
  - apply H. now left.
  - apply IH. intros y Hy. apply H. now right.
Qed.

Lemma length_concat_member (bss : list (list byte)) bs :
  In bs bss -> (length bs <= length (concat bss))%nat.
Proof.
  induction bss as [|b bss IH]; [intros []|].
  intros [->|H]; simpl; rewrite length_app; [lia|]. specialize (IH H). lia.
Qed.

Lemma length_concat_nonempty (bss : list (list byte)) :
  Forall (fun bs => (1 <= length bs)%nat) bss ->
  (length bss <= length (concat bss))%nat.
Proof.
  induction 1 as [|bs bss Hbs _ IH]; simpl; [lia|].
  rewrite length_app. lia.
Qed.

(** [m[k] = v] for a key the map does not have. *)
Lemma map_set_fresh {A : Type} k (v : A) m :
  k ∉ fst <$> m -> map_set k v m = m ++ [(k, v)].
Proof.
  induction m as [|[k' v'] m IH]; intros Hk; simpl; [reflexivity|].
  rewrite fmap_cons in Hk. apply not_elem_of_cons in Hk as [Hne Hk].
  simpl in Hne. apply String.eqb_neq in Hne. rewrite Hne.
  now rewrite IH.
Qed.

End SequenceRoundTrips.

Section ValueRoundTrips.

Import Cbor.

Context {numbers : Numbers}.

Lemma length_stringBytes s : (1 <= length (stringBytes s))%nat.
Proof.
  unfold stringBytes. rewrite length_app.
  pose proof (length_header Utf (Z.of_nat (String.length s))). lia.
Qed.

Lemma length_bytesBytes b : (1 <= length (bytesBytes b))%nat.
Proof.
  unfold bytesBytes. rewrite length_app.
  pose proof (length_header Bytes (Z.of_nat (length b))). lia.
Qed.

Section ByNumber.

(** The number strings admitted: each has bytes that read back. *)
Variable num : string -> bool.

Hypothesis num_encodes :
  forall s, num s = true -> exists bs, encodes (AttributeValueMemberN s) bs.

Lemma encodes_members (l : list AttributeValue) :
  Forall (fun a => roundTripsBy num a = true -> exists bs, encodes a bs) l ->
  forallb (roundTripsBy num) l = true ->
  exists bss, Forall2 encodes l bss.
Proof.
  induction 1 as [|a l Ha _ IH]; simpl; intros Hl.
  - exists []. constructor.
  - apply andb_true_iff in Hl as [Hr Hl].
    destruct (Ha Hr) as (bs & Hbs). destruct (IH Hl) as (bss & Hbss).
    exists (bs :: bss). now constructor.
Qed.

Lemma encodes_entries (l : list (string * AttributeValue)) :
  Forall (fun kv => roundTripsBy num (snd kv) = true ->
                    exists bs, encodes (snd kv) bs) l ->
  forallb (fun kv => fitsInt (String.length (fst kv))
                     && roundTripsBy num (snd kv)) l = true ->
  exists bss, Forall2 (fun kv bs => encodes (snd kv) bs) l bss
              /\ Forall (fun kv => fitsInt (String.length (fst kv)) = true) l.
Proof.
  induction 1 as [|kv l Ha _ IH]; simpl; intros Hl.
  - exists []. split; constructor.
  - apply andb_true_iff in Hl as [Hkv Hl].
    apply andb_true_iff in Hkv as [Hk Hr].
    destruct (Ha Hr) as (bs & Hbs). destruct (IH Hl) as (bss & Hbss & Hks).
    exists (bs :: bss). split; now constructor.
Qed.

(** With a budget that covers all of them, each member reads back. *)
Lemma members_read_back {A : Type} (f : A -> AttributeValue) (l : list A)
    (bss : list (list byte)) fuel :
  Forall2 (fun x bs => encodes (f x) bs) l bss ->
  (length (concat bss) <= fuel)%nat ->
  Forall2 (fun x bs => forall rest,
             DecodeAttributeValue_fuel fuel (bs ++ rest) = Ok (f x, rest))
          l bss.
Proof.
  induction 1 as [|x bs l bss Hx _ IH]; simpl; intros Hfuel; constructor.
  - intros rest. apply Hx. rewrite length_app in Hfuel. lia.
  - apply IH. rewrite length_app in Hfuel. lia.
Qed.

Lemma members_written {A : Type} (f : A -> AttributeValue) (l : list A)
    (bss : list (list byte)) :
  Forall2 (fun x bs => encodes (f x) bs) l bss ->
  Forall2 (fun x bs => forall w, EncodeAttributeValue (f x) w = (None, w ++ bs))
          l bss.
Proof. induction 1 as [|x bs l bss Hx _ IH]; constructor; [apply Hx | exact IH]. Qed.

Lemma members_nonempty {A : Type} (f : A -> AttributeValue) (l : list A)
    (bss : list (list byte)) :
  Forall2 (fun x bs => encodes (f x) bs) l bss ->
  Forall (fun bs => (1 <= length bs)%nat) bss.
Proof. induction 1 as [|x bs l bss Hx _ IH]; constructor; [apply Hx | exact IH]. Qed.

(** The list loop of the encoder is [forEach]. *)
Lemma EncodeAttributeValue_L v :
  EncodeAttributeValue (AttributeValueMemberL v)
  = andThen (WriteArrayHeader (length v)) (forEach EncodeAttributeValue v).
Proof.
  cbn [EncodeAttributeValue]. f_equal.
  induction v as [|x v IH]; [reflexivity|]. cbn [forEach]. now rewrite <- IH.
Qed.

Lemma EncodeAttributeValue_M v bss :
  Forall2 (fun kv bs => forall w,
             EncodeAttributeValue (snd kv) w = (None, w ++ bs)) v bss ->
  forall w, EncodeAttributeValue (AttributeValueMemberM v) w
            = (None, w ++ header Map (Z.of_nat (length v)) ++ entryBytes v bss).
Proof.
  intros H w. cbn [EncodeAttributeValue]. unfold andThen at 1.
  unfold WriteMapHeader, writeType, emitBytes.
  rewrite (app_assoc w). generalize (w ++ header Map (Z.of_nat (length v))).
  clear w. induction H as [|[k x] bs l bss Hx _ IH]; intros w.
  - unfold done, entryBytes. simpl. now rewrite app_nil_r.
  - unfold andThen at 1. unfold WriteString at 1. unfold emitBytes.
    unfold andThen at 1. simpl in Hx. rewrite Hx. rewrite IH.
    unfold entryBytes. simpl. unfold stringBytes.
    now rewrite <- !app_assoc.
Qed.

Lemma readEntries_bytes (rd : read AttributeValue)
    (l : list (string * AttributeValue)) (bss : list (list byte)) :
  Forall2 (fun kv bs => forall rest, rd (bs ++ rest) = Ok (snd kv, rest)) l bss ->
  Forall (fun kv => fitsInt (String.length (fst kv)) = true) l ->
  forall m rest,
    NoDup (fst <$> (m ++ l)) ->
    readEntries rd (length l) m (entryBytes l bss ++ rest) = Ok (m ++ l, rest).
Proof.
  induction 1 as [|[k x] bs l bss Hx _ IH]; intros Hks m rest Hnd.
  - simpl. now rewrite app_nil_r.
  - apply Forall_cons in Hks as [Hk Hks]. simpl in Hk, Hx.
    unfold entryBytes. simpl. rewrite <- !app_assoc.
    rewrite ReadString_stringBytes by assumption. cbn [bindR].
    rewrite Hx. cbn [bindR].
    rewrite map_set_fresh.
    + fold (entryBytes l bss). rewrite IH; [| assumption |].
      * now rewrite <- app_assoc.
      * now rewrite <- app_assoc.
    + rewrite fmap_app in Hnd. apply NoDup_app in Hnd as (_ & Hnd & _).
      intros Hin. apply (Hnd k Hin). rewrite fmap_cons. simpl. left.
Qed.

(** *** The three sets *)

Lemma string_set_round_trip v :
  roundTripsBy num (AttributeValueMemberSS v) = true ->
  exists bs, encodes (AttributeValueMemberSS v) bs.
Proof.
  cbn [roundTripsBy]. intros H.
  apply andb_true_iff in H as [H Hall]. apply andb_true_iff in H as [Hne Hlen].
  rewrite forallb_forall in Hall.
  exists (header Tag tagStringSet ++ header Array (Z.of_nat (length v))
          ++ concat (map stringBytes v)).
  split; [|split].
  - cbn [EncodeAttributeValue].
    destruct (Nat.eqb (length v) 0); [discriminate|].
    apply andThen_bytes; [reflexivity|].
    apply andThen_bytes; [reflexivity|].
    apply forEach_bytes, Forall2_map_self. reflexivity.
  - rewrite length_app. pose proof (length_header Tag tagStringSet). lia.
  - intros [|fuel] rest Hfuel.
    { rewrite length_app in Hfuel.
      pose proof (length_header Tag tagStringSet). lia. }
    cbn [DecodeAttributeValue_fuel]. rewrite <- !app_assoc.
    destruct (PeekHeader_header Tag tagStringSet
                (header Array (Z.of_nat (length v))
                 ++ concat (map stringBytes v) ++ rest)
                in_majors_Tag ltac:(unfold tagStringSet; lia))
      as (hdr & -> & Hmaj & Hmin).
    cbn [bindR]. rewrite Hmaj, Hmin. eval_eqb.
    rewrite readTypeHeader_header
      by (auto using in_majors_Tag; unfold tagStringSet; lia).
    cbn [bindR]. eval_eqb.
    rewrite ReadArrayLength_header by assumption. cbn [bindR].
    rewrite readSlice_length, readN_bytes; [reflexivity|].
    apply Forall2_map_self. intros s Hs rest'.
    apply ReadString_stringBytes. now apply Hall.
Qed.

Lemma binary_set_round_trip v :
  roundTripsBy num (AttributeValueMemberBS v) = true ->
  exists bs, encodes (AttributeValueMemberBS v) bs.
Proof.
  cbn [roundTripsBy]. intros H.
  apply andb_true_iff in H as [H Hall]. apply andb_true_iff in H as [Hne Hlen].
  rewrite forallb_forall in Hall.
  exists (header Tag tagBinarySet ++ header Array (Z.of_nat (length v))
          ++ concat (map bytesBytes v)).
  split; [|split].
  - cbn [EncodeAttributeValue].
    destruct (Nat.eqb (length v) 0); [discriminate|].
    apply andThen_bytes; [reflexivity|].
    apply andThen_bytes; [reflexivity|].
    apply forEach_bytes, Forall2_map_self. reflexivity.
  - rewrite length_app. pose proof (length_header Tag tagBinarySet). lia.
  - intros [|fuel] rest Hfuel.
    { rewrite length_app in Hfuel.
      pose proof (length_header Tag tagBinarySet). lia. }
    cbn [DecodeAttributeValue_fuel]. rewrite <- !app_assoc.
    destruct (PeekHeader_header Tag tagBinarySet
                (header Array (Z.of_nat (length v))
                 ++ concat (map bytesBytes v) ++ rest)
                in_majors_Tag ltac:(unfold tagBinarySet; lia))
      as (hdr & -> & Hmaj & Hmin).
    cbn [bindR]. rewrite Hmaj, Hmin. eval_eqb.
    rewrite readTypeHeader_header
      by (auto using in_majors_Tag; unfold tagBinarySet; lia).
    cbn [bindR]. eval_eqb.
    rewrite ReadArrayLength_header by assumption. cbn [bindR].
    rewrite readSlice_length, readN_bytes; [reflexivity|].
    apply Forall2_map_self. intros s Hs rest'.
    apply ReadBytes_bytesBytes. now apply Hall.
Qed.

(** The members of a number set, with their bytes. *)
Lemma number_members (v : list string) :
  forallb num v = true ->
  exists bss, Forall2 (fun s bs => encodes (AttributeValueMemberN s) bs) v bss.
Proof.
  induction v as [|s v IH]; simpl; intros H.
  - exists []. constructor.
  - apply andb_true_iff in H as [Hs Hv].
    destruct (num_encodes s Hs) as (bs & Hbs).
    destruct (IH Hv) as (bss & Hbss).
    exists (bs :: bss). now constructor.
Qed.

Lemma number_set_round_trip v :
  roundTripsBy num (AttributeValueMemberNS v) = true ->
  exists bs, encodes (AttributeValueMemberNS v) bs.
Proof.
  cbn [roundTripsBy]. intros H.
  apply andb_true_iff in H as [H Hall]. apply andb_true_iff in H as [Hne Hlen].
  destruct (number_members v Hall) as (bss & Hbss).
  exists (header Tag tagNumberSet ++ header Array (Z.of_nat (length v))
          ++ concat bss).
  split; [|split].
  - cbn [EncodeAttributeValue].
    destruct (Nat.eqb (length v) 0); [discriminate|].
    apply andThen_bytes; [reflexivity|].
    apply andThen_bytes; [reflexivity|].
    apply forEach_bytes.
    exact (members_written AttributeValueMemberN v bss Hbss).
  - rewrite length_app. pose proof (length_header Tag tagNumberSet). lia.
  - intros [|fuel] rest Hfuel.
    { rewrite length_app in Hfuel.
      pose proof (length_header Tag tagNumberSet). lia. }
    assert (length (concat bss) <= fuel)%nat as Hmembers.
    { rewrite !length_app in Hfuel.
      pose proof (length_header Tag tagNumberSet).
      pose proof (length_header Array (Z.of_nat (length v))). lia. }
    cbn [DecodeAttributeValue_fuel]. rewrite <- !app_assoc.
    destruct (PeekHeader_header Tag tagNumberSet
                (header Array (Z.of_nat (length v)) ++ concat bss ++ rest)
                in_majors_Tag ltac:(unfold tagNumberSet; lia))
      as (hdr & -> & Hmaj & Hmin).
    cbn [bindR]. rewrite Hmaj, Hmin. eval_eqb.
    rewrite readTypeHeader_header
      by (auto using in_majors_Tag; unfold tagNumberSet; lia).
    cbn [bindR]. eval_eqb.
    rewrite ReadArrayLength_header by assumption. cbn [bindR].
    rewrite readSlice_length, readN_bytes; [reflexivity|].
    pose proof (members_read_back AttributeValueMemberN v bss fuel Hbss
                  Hmembers) as Hread.
    clear -Hread. induction Hread as [|s bs l bss Hs _ IH]; constructor;
      [|exact IH].
    intros rest'. unfold readNumberMember. now rewrite Hs.
Qed.

(** Every value that meets [roundTripsBy] has bytes that read back. *)
Lemma roundTripsBy_encodes a :
  roundTripsBy num a = true -> exists bs, encodes a bs.
Proof.
  induction a as [ | v | v | v | v | v | v | v IH | v IH | v | v]
    using AttributeValue_members_ind.
  - discriminate.
  - cbn [roundTripsBy]. intros Hv. exists (stringBytes v). split; [|split].
    + reflexivity.
    + apply length_stringBytes.
    + intros [|fuel] rest Hfuel;
        [pose proof (length_stringBytes v); lia | now apply decode_text].
  - cbn [roundTripsBy]. apply num_encodes.
  - cbn [roundTripsBy]. intros Hv. exists (bytesBytes v). split; [|split].
    + reflexivity.
    + apply length_bytesBytes.
    + intros [|fuel] rest Hfuel;
        [pose proof (length_bytesBytes v); lia | now apply decode_binary].
  - apply string_set_round_trip.
  - apply number_set_round_trip.
  - apply binary_set_round_trip.
  - cbn [roundTripsBy]. intros Hv. apply andb_true_iff in Hv as [Hlen Hall].
    destruct (encodes_members v IH Hall) as (bss & Hbss).
    exists (header Array (Z.of_nat (length v)) ++ concat bss).
    split; [|split].
    + rewrite EncodeAttributeValue_L.
      apply andThen_bytes; [reflexivity|].
      apply forEach_bytes. now apply (members_written (fun x => x)).
    + rewrite length_app.
      pose proof (length_header Array (Z.of_nat (length v))). lia.
    + intros [|fuel] rest Hfuel.
      { rewrite length_app in Hfuel.
        pose proof (length_header Array (Z.of_nat (length v))). lia. }
      cbn [DecodeAttributeValue_fuel]. rewrite <- !app_assoc.
      destruct (PeekHeader_header Array (Z.of_nat (length v))
                  (concat bss ++ rest) in_majors_Array ltac:(lia))
        as (hdr & -> & Hmaj & _).
      cbn [bindR]. rewrite Hmaj. eval_eqb.
      rewrite ReadArrayLength_header by assumption. cbn [bindR].
      rewrite readSlice_length, readN_bytes; [reflexivity|].
      apply (members_read_back (fun x => x)); [assumption|].
      rewrite length_app in Hfuel.
      pose proof (length_header Array (Z.of_nat (length v))). lia.
  - cbn [roundTripsBy]. intros Hv. apply andb_true_iff in Hv as [Hv Hall].
    apply andb_true_iff in Hv as [Hlen Hnd]. apply bool_decide_eq_true in Hnd.
    destruct (encodes_entries v IH Hall) as (bss & Hbss & Hks).
    exists (header Map (Z.of_nat (length v)) ++ entryBytes v bss).
    split; [|split].
    + apply EncodeAttributeValue_M. now apply (members_written snd).
    + rewrite length_app.
      pose proof (length_header Map (Z.of_nat (length v))). lia.
    + intros [|fuel] rest Hfuel.
      { rewrite length_app in Hfuel.
        pose proof (length_header Map (Z.of_nat (length v))). lia. }
      cbn [DecodeAttributeValue_fuel]. rewrite <- !app_assoc.
      destruct (PeekHeader_header Map (Z.of_nat (length v))
                  (entryBytes v bss ++ rest) in_majors_Map ltac:(lia))
        as (hdr & -> & Hmaj & _).
      cbn [bindR]. rewrite Hmaj. eval_eqb.
      rewrite ReadMapLength_header by assumption. cbn [bindR].
      destruct (Z.ltb_spec (Z.of_nat (length v)) 0); [lia|].
      rewrite Nat2Z.id.
      rewrite readEntries_bytes; [reflexivity | | assumption | exact Hnd].
      assert (length (entryBytes v bss) <= fuel)%nat as Hfuel'.
      { rewrite length_app in Hfuel.
        pose proof (length_header Map (Z.of_nat (length v))). lia. }
      clear -Hbss Hfuel'. revert Hfuel'.
      induction Hbss as [|[k x] bs l bss Hx _ IH]; intros Hfuel;
        constructor.
      * intros rest. apply Hx. unfold entryBytes in Hfuel. simpl in Hfuel.
        rewrite !length_app in Hfuel. simpl. lia.
      * apply IH. unfold entryBytes in *. simpl in Hfuel.
        rewrite !length_app in Hfuel. lia.
  - intros _. exists [byte_of_Z (if v then True_ else False_)].
    split; [|split].
    + reflexivity.
    + simpl. lia.
    + intros [|fuel] rest Hfuel; [simpl in Hfuel; lia|].
      destruct v; reflexivity.
  - cbn [roundTripsBy]. intros ->. exists [byte_of_Z Nil].
    split; [|split].
    + reflexivity.
    + simpl. lia.
    + intros [|fuel] rest Hfuel; [simpl in Hfuel; lia|]. reflexivity.
Qed.

End ByNumber.

(** [roundTrips] is [roundTripsBy] at the integers in canonical
    spelling. *)
Lemma roundTrips_by a :
  roundTrips a
  = roundTripsBy (fun s => canonicalInt s && fitsInt (String.length s)) a.
Proof.
  induction a as [ | v | v | v | v | v | v | v IH | v IH | v | v]
    using AttributeValue_members_ind; try reflexivity.
  - cbn [roundTrips roundTripsBy]. f_equal.
    induction IH as [|x l Hx _ IHl]; [reflexivity|].
    simpl. now rewrite Hx, IHl.
  - cbn [roundTrips roundTripsBy]. f_equal.
    induction IH as [|[k x] l Hx _ IHl]; [reflexivity|].
    simpl in *. now rewrite Hx, IHl.
Qed.

Lemma canonicalInt_encodes s :
  canonicalInt s && fitsInt (String.length s) = true ->
  exists bs, encodes (AttributeValueMemberN s) bs.
Proof.
  intros Hv. apply andb_true_iff in Hv as [Hc Hl].
  destruct (number_round_trip s Hc Hl) as (bs & Hw & Hpos & Hr).
  exists bs. split; [exact Hw|]. split; [exact Hpos|].
  intros [|fuel] rest Hfuel; [lia | apply Hr].
Qed.

(** Every value that meets [roundTrips] has bytes that read back. *)
Lemma roundTrips_encodes a :
  roundTrips a = true -> exists bs, encodes a bs.
Proof.
  rewrite roundTrips_by. apply roundTripsBy_encodes.
  exact canonicalInt_encodes.
Qed.

(** *** Decimals *)

(** A number string with a fraction or an exponent that [Decimal] accepts
    is written as the decimal tag and the decimal, and decodes to the
    spelling [Decimal.String] prints, whatever spelling went in. *)
Lemma decimal_comes_back_as_printed s d :
  decimalsReadBack ->
  containsAny s ".eE" = true -> Decimal_SetString s = Some d ->
  fitsInt (String.length s) = true ->
  (forall w, writeStringNumber s w
             = (None, w ++ header Tag TagDecimal ++ Decimal_body d))
  /\ (forall fuel rest,
        DecodeAttributeValue_fuel (S fuel)
          ((header Tag TagDecimal ++ Decimal_body d) ++ rest)
        = Ok (AttributeValueMemberN (Decimal_String d), rest)).
Proof.
  intros Hlaw Hc Hd Hlen. split.
  - intros w. unfold writeStringNumber. rewrite Hc, Hd. reflexivity.
  - intros fuel rest. cbn [DecodeAttributeValue_fuel]. rewrite <- app_assoc.
    destruct (PeekHeader_header Tag TagDecimal (Decimal_body d ++ rest)
                in_majors_Tag ltac:(unfold TagDecimal; lia))
      as (hdr & -> & Hmaj & Hmin).
    cbn [bindR]. rewrite Hmaj, Hmin. eval_eqb.
    change (info TagDecimal) with TagDecimal. eval_eqb.
    unfold ReadDecimal.
    rewrite readHeaderOf_header
      by (auto using in_majors_Tag; unfold TagDecimal; lia).
    cbn [bindR]. eval_eqb.
    rewrite (Hlaw s d rest Hd Hlen). reflexivity.
Qed.

(** A number string in the decoder's spelling has bytes that read back. *)
Lemma canonicalNumber_encodes :
  decimalsReadBack ->
  forall s, canonicalNumber s = true ->
            exists bs, encodes (AttributeValueMemberN s) bs.
Proof.
  intros Hlaw s Hs. unfold canonicalNumber in Hs.
  apply andb_true_iff in Hs as [Hs Hlen].
  apply orb_true_iff in Hs as [Hint|Hdec].
  - apply canonicalInt_encodes. now rewrite Hint, Hlen.
  - unfold canonicalDecimal in Hdec. apply andb_true_iff in Hdec as [Hc Hd].
    destruct (Decimal_SetString s) as [d|] eqn:Hset; [|discriminate].
    apply String.eqb_eq in Hd.
    destruct (decimal_comes_back_as_printed s d Hlaw Hc Hset Hlen)
      as (Hw & Hr).
    exists (header Tag TagDecimal ++ Decimal_body d).
    split; [exact Hw|]. split.
    + rewrite length_app. pose proof (length_header Tag TagDecimal). lia.
    + intros [|fuel] rest Hfuel.
      { rewrite length_app in Hfuel.
        pose proof (length_header Tag TagDecimal). lia. }
      rewrite Hr. now rewrite Hd.
Qed.

(** Every value that meets [comesBack] has bytes that read back. *)
Lemma comesBack_encodes :
  decimalsReadBack ->
  forall a, comesBack a = true -> exists bs, encodes a bs.
Proof.
  intros Hlaw a. apply roundTripsBy_encodes.
  exact (canonicalNumber_encodes Hlaw).
Qed.

End ValueRoundTrips.

Section RoundTrip.

Import Cbor.

Context {numbers : Numbers}.


End RoundTrip.



(** With the reference decimals, the number of the repository's test
    comes back in the spelling its comment notes. *)
Lemma decimal_spelling_changes :
  let a := Cbor.AttributeValueMemberN "3.14" in
  exists bs,
    Cbor.encode a = (None, bs)
    /\ Cbor.DecodeAttributeValue bs = Ok (Cbor.AttributeValueMemberN "314E-2", []).
Proof.
  eexists. split; [vm_compute; reflexivity | vm_compute; reflexivity].
Qed.

(** * Part III: further properties of the code *)

#[local] Set Warnings "-clear-no-such-hyp".

(** ** Health status: checks, streaks and the listener *)

Section HealthLife.

Import Health HealthCalls.

Variable isIOError : error -> bool.

(** After a successful health check the status is healthy with a count
    of zero, whatever it was before; the listener hears [addRoute], with
    the endpoint of the status and the route of the check, exactly when
    the status was unhealthy. *)
Lemma health_check_success_restores (route : DaxAPI)
    (hs : enabledHealthStatus) :
  onHealthCheckSuccess route hs
  = (mkHealth (endpoint hs) true 0,
     if isHealthy hs then [] else [addRoute (endpoint hs) route]).
Proof.
  destruct hs as [ep [|] n]; unfold onHealthCheckSuccess; simpl.
  - destruct (Z.eqb_spec n 0) as [->|Hn]; reflexivity.
  - rewrite andb_false_r. reflexivity.
Qed.

Lemma notify_flips n hs :
  let r := notify isIOError n hs in
  endpoint (fst r) = endpoint hs
  /\ ((snd r = [] /\ isHealthy (fst r) = isHealthy hs)
      \/ (exists route, isHealthy hs = true /\ isHealthy (fst r) = false
                        /\ snd r = [removeRoute (endpoint hs) route])
      \/ (exists route, isHealthy hs = false /\ isHealthy (fst r) = true
                        /\ snd r = [addRoute (endpoint hs) route])).
Proof.
  destruct hs as [ep h k], n as [err route| |route]; simpl.
  - unfold onErrorInReadRequest; simpl.
    destruct (isIOError err); simpl; [|auto].
    destruct h; simpl; [|auto].
    destruct (_ >=? _); simpl; [|auto].
    split; [reflexivity|]. right. left. now exists route.
  - unfold onSuccessInReadRequest; simpl.
    destruct ((k =? 0) || negb h); simpl; auto.
  - rewrite health_check_success_restores; simpl.
    destruct h; simpl; [auto|].
    split; [reflexivity|]. right. right. now exists route.
Qed.


Lemma failed_reads_from (errs : list (error * DaxAPI)) :
  Forall (fun p => isIOError (fst p) = true) errs ->
  forall ep k,
    0 <= k < timeoutErrorThreshold ->
    let r := run isIOError (failedReads errs) (mkHealth ep true k) in
    (k + Z.of_nat (length errs) < timeoutErrorThreshold ->
     r = (mkHealth ep true (k + Z.of_nat (length errs)), []))
    /\ (timeoutErrorThreshold <= k + Z.of_nat (length errs) ->
        exists e route,
          errs !! Z.to_nat (timeoutErrorThreshold - 1 - k) = Some (e, route)
          /\ r = (mkHealth ep false timeoutErrorThreshold,
                  [removeRoute ep route])).
Proof.
  unfold timeoutErrorThreshold.
  induction 1 as [|[e route] errs He _ IH]; intros ep k Hk; simpl.
  - split; [intros _; f_equal; f_equal; lia | lia].
  - simpl in He.
    pose proof (onError_counts isIOError e route (mkHealth ep true k) He eq_refl)
      as Hstep.
    simpl in Hstep. rewrite int_add_small in Hstep
      by (unfold minInt, maxInt; lia).
    rewrite Hstep. clear Hstep. unfold timeoutErrorThreshold.
    destruct (Z.geb_spec (k + 1) 5) as [Hge|Hlt].
    + (* the fifth error in a row *)
      assert (k = 4) as -> by lia.
      assert (run isIOError (failedReads errs) (mkHealth ep false (4 + 1))
              = (mkHealth ep false 5, [])) as ->.
      { clear. induction errs as [|[e' r'] errs IH]; [reflexivity|].
        simpl. rewrite onError_unhealthy by reflexivity. now rewrite IH. }
      split; [lia|]. intros _. exists e, route. split; reflexivity.
    + destruct (IH ep (k + 1) ltac:(lia)) as [Hfew Hmany].
      destruct (run isIOError (failedReads errs) (mkHealth ep true (k + 1)))
        as [hs2 calls2].
      simpl in *. split.
      * intros Hlen. rewrite Hfew by lia. f_equal. f_equal. lia.
      * intros Hlen. destruct Hmany as (e' & route' & Hat & ->); [lia|].
        exists e', route'. split; [|reflexivity].
        replace (Z.to_nat (5 - 1 - k)) with (S (Z.to_nat (5 - 1 - (k + 1))))
          by lia.
        exact Hat.
Qed.


End HealthLife.


(** ** Seed endpoints: what [getHostPorts] returns *)

Section SeedLists.

Import Seeds.

Variable ParseRequestURI : string -> result URL.
Variable ErrCodeInvalidParameter : string.

Abbreviation parse := (parseHostPort ParseRequestURI ErrCodeInvalidParameter).
Abbreviation parseAll := (getHostPorts ParseRequestURI ErrCodeInvalidParameter).
Abbreviation parseLoop :=
  (getHostPorts_loop ParseRequestURI ErrCodeInvalidParameter).

Lemma parse_Ok_host s h p sch : parse s = Ok (h, p, sch) -> h <> "".
Proof.
  unfold parseHostPort. destruct (_ && _); [discriminate|].
  destruct (ParseRequestURI _) as [u|e]; [|discriminate].
  destruct (String.eqb_spec (Hostname u) "") as [|Hne]; [discriminate|].
  destruct (defaultPorts !! Scheme u); [|discriminate].
  intros H. inversion H. now subst.
Qed.

Lemma last_cons_default {A : Type} (x d : A) (l : list A) :
  List.last (x :: l) d = List.last l x.
Proof.
  revert x d. induction l as [|y l IH]; intros x d; [reflexivity|].
  change (List.last (x :: y :: l) d) with (List.last (y :: l) d).
  now rewrite (IH y d), (IH y x).
Qed.

Lemma parseLoop_output hosts :
  forall i out0 hn0 enc0 out hn enc,
    parseLoop i hosts out0 hn0 enc0 = Ok (out, hn, enc) ->
    exists new,
      out = out0 ++ new
      /\ Forall2 (fun s hp => exists sch, parse s = Ok (fst hp, snd hp, sch))
           hosts new
      /\ hn = List.last (fst <$> new) hn0.
Proof.
  induction hosts as [|s hosts IH]; intros i out0 hn0 enc0 out hn enc; simpl.
  - intros H. inversion H. subst. exists []. rewrite app_nil_r.
    repeat split. constructor.
  - destruct (parse s) as [[[h p] sch]|e] eqn:Hs; [|discriminate].
    destruct (_ && _); [discriminate|].
    destruct (_ && _); [discriminate|].
    intros H. apply IH in H as (new & -> & Hall & ->).
    exists ((h, p) :: new). rewrite <- app_assoc. repeat split.
    + constructor; [now exists sch | exact Hall].
    + rewrite fmap_cons, last_cons_default. reflexivity.
Qed.

(** When [getHostPorts] succeeds, it returns one host and port for every
    seed, in the order of the seeds, each the host and port that
    [parseHostPort] reads off that seed; no host is empty; and the
    hostname it returns is the host of the last seed (empty for no
    seed). *)
Theorem getHostPorts_output (hosts : list string) (out : list hostPort)
    (hn : string) (enc : bool) :
  parseAll hosts = Ok (out, hn, enc) ->
  length out = length hosts
  /\ Forall2 (fun s hp => exists sch, parse s = Ok (fst hp, snd hp, sch))
       hosts out
  /\ Forall (fun hp => fst hp <> "") out
  /\ hn = List.last (fst <$> out) "".
Proof.
  intros H. apply parseLoop_output in H as (new & -> & Hall & ->).
  simpl. repeat split; auto.
  - symmetry. eapply Forall2_length. exact Hall.
  - clear -Hall. induction Hall as [|s hp hosts new (sch & Hs) _ IH];
      constructor; [|exact IH].
    eapply parse_Ok_host. exact Hs.
Qed.

Lemma parseLoop_dax hosts :
  Forall (fun s => exists h p, parse s = Ok (h, p, "dax")) hosts ->
  forall i out hn,
    exists new hn', parseLoop i hosts out hn false = Ok (out ++ new, hn', false).
Proof.
  induction 1 as [|s hosts (h & p & Hs) _ IH]; intros i out hn; simpl.
  - exists [], hn. now rewrite app_nil_r.
  - rewrite Hs. simpl.
    destruct (IH (S i) (out ++ [(h, p)]) h) as (new & hn' & ->).
    exists ((h, p) :: new), hn'. now rewrite <- app_assoc.
Qed.

(** [getHostPorts] accepts every list of seeds that all parse with the
    scheme dax (the empty list too), as an unencrypted cluster, and a
    single daxs seed, as an encrypted one. *)
Lemma getHostPorts_accepts :
  (forall hosts,
      Forall (fun s => exists h p, parse s = Ok (h, p, "dax")) hosts ->
      exists out hn, parseAll hosts = Ok (out, hn, false))
  /\ (forall s h p,
        parse s = Ok (h, p, "daxs") ->
        parseAll [s] = Ok ([(h, p)], h, true)).
Proof.
  split.
  - intros hosts H.
    destruct (parseLoop_dax hosts H 0%nat [] "") as (new & hn' & Hr).
    now exists new, hn'.
  - intros s h p Hs. unfold getHostPorts. simpl. now rewrite Hs.
Qed.

(** The errors of [getHostPorts], for seeds that come after seeds with
    the scheme dax: the error of the first seed that does not parse is
    returned as it is; a daxs seed in that place is refused for the
    inconsistency of the schemes.  After a first daxs seed, a second daxs
    seed is refused as one discovery endpoint too many, and a dax seed
    for the inconsistency. *)
Theorem getHostPorts_errors :
  (forall pre s post e,
      Forall (fun s => exists h p, parse s = Ok (h, p, "dax")) pre ->
      parse s = Err e ->
      parseAll (pre ++ s :: post) = Err e)
  /\ (forall pre s post h p,
        pre <> [] ->
        Forall (fun s => exists h p, parse s = Ok (h, p, "dax")) pre ->
        parse s = Ok (h, p, "daxs") ->
        parseAll (pre ++ s :: post)
        = Err (inconsistentSchemes ErrCodeInvalidParameter))
  /\ (forall s0 s post h0 p0 h p,
        parse s0 = Ok (h0, p0, "daxs") ->
        parse s = Ok (h, p, "daxs") ->
        parseAll (s0 :: s :: post)
        = Err (tooManyEncrypted ErrCodeInvalidParameter))
  /\ (forall s0 s post h0 p0 h p,
        parse s0 = Ok (h0, p0, "daxs") ->
        parse s = Ok (h, p, "dax") ->
        parseAll (s0 :: s :: post)
        = Err (inconsistentSchemes ErrCodeInvalidParameter)).
Proof.
  assert (forall pre, Forall (fun s => exists h p, parse s = Ok (h, p, "dax")) pre ->
          forall tail i out hn,
            exists out' hn',
              parseLoop i (pre ++ tail) out hn false
              = parseLoop (i + length pre) tail out' hn' false) as Hskip.
  { induction 1 as [|s pre (h & p & Hs) _ IH]; intros tail i out hn; simpl.
    - exists out, hn. now rewrite Nat.add_0_r.
    - rewrite Hs. simpl.
      destruct (IH tail (S i) (out ++ [(h, p)]) h) as (out' & hn' & ->).
      exists out', hn'. f_equal. lia. }
  repeat split.
  - intros pre s post e Hpre Hs. unfold getHostPorts.
    destruct (Hskip pre Hpre (s :: post) 0%nat [] "") as (out' & hn' & ->).
    simpl. now rewrite Hs.
  - intros pre s post h p Hne Hpre Hs. unfold getHostPorts.
    destruct (Hskip pre Hpre (s :: post) 0%nat [] "") as (out' & hn' & ->).
    simpl. rewrite Hs. simpl.
    destruct pre; [contradiction|]. reflexivity.
  - intros s0 s post h0 p0 h p Hs0 Hs. unfold getHostPorts. simpl.
    rewrite Hs0. simpl. now rewrite Hs.
  - intros s0 s post h0 p0 h p Hs0 Hs. unfold getHostPorts. simpl.
    rewrite Hs0. simpl. now rewrite Hs.
Qed.

End SeedLists.

(** Three seeds of an unencrypted cluster, the last without a scheme. *)
Lemma getHostPorts_output_witness :
  let hosts := ["dax://a.example.com"; "dax://b.example.com:8222";
                "c.example.com:8111"] in
  let out := [("a.example.com", 8111); ("b.example.com", 8222);
              ("c.example.com", 8111)] in
  Seeds.getHostPorts Seeds.seedParseRequestURI "InvalidParameter" hosts
  = Ok (out, "c.example.com", false)
  /\ length out = length hosts.
Proof.
  intros hosts out.
  assert (Seeds.getHostPorts Seeds.seedParseRequestURI "InvalidParameter" hosts
          = Ok (out, "c.example.com", false)) as H by reflexivity.
  split; [exact H|].
  exact (proj1 (getHostPorts_output Seeds.seedParseRequestURI
                  "InvalidParameter" hosts out "c.example.com" false H)).
Defined.


(** A daxs seed after a dax seed. *)
Lemma getHostPorts_errors_witness :
  Seeds.getHostPorts Seeds.seedParseRequestURI "InvalidParameter"
    (["dax://a.example.com"] ++ "daxs://b.example.com" :: [])
  = Err (GenericAPIError "InvalidParameter"
           "Inconsistency between the schemes of provided endpoints").
Proof.
  apply (proj1 (proj2 (getHostPorts_errors Seeds.seedParseRequestURI
                         "InvalidParameter")))
    with (h := "b.example.com") (p := 9111).
  - discriminate.
  - repeat constructor. exists "a.example.com", 8111. reflexivity.
  - reflexivity.
Defined.

(** ** A new cluster and its seeds *)

Section NewClusterProperties.

Import Seeds Cluster NewCluster.

Variable CredentialsProvider : Type.
Variable MeterProvider : Type.
Variable ParseRequestURI : string -> result URL.
Variable ErrCodeInvalidParameter : string.
Variable NewErrParamRequired : string -> error.
Variable NewCustomInvalidParamError : string -> string -> error.
Variable Metrics : Type.
Variable buildDaxSdkMetrics : option MeterProvider -> result Metrics.
Variable RouteManager : Type.
Variable newRouteManager : bool -> Z -> Metrics -> RouteManager.

Abbreviation Config' := (Config CredentialsProvider MeterProvider).
Abbreviation validate' :=
  (validate CredentialsProvider MeterProvider NewErrParamRequired
     NewCustomInvalidParamError).
Abbreviation newCluster' :=
  (newCluster CredentialsProvider MeterProvider ParseRequestURI
     ErrCodeInvalidParameter NewErrParamRequired NewCustomInvalidParamError
     Metrics buildDaxSdkMetrics RouteManager newRouteManager).

(** A cluster that [newCluster] returns has at least one seed, one for
    every configured endpoint and none with an empty host; its
    configuration has a region, credentials and a pending-connection
    limit that is not negative; the host name of its connections is the
    host of the last seed, which for an encrypted cluster is its only
    seed; and it starts open, with no active endpoint. *)
Theorem new_cluster_has_seeds (cfg : Config')
    (b : built CredentialsProvider MeterProvider Metrics RouteManager) :
  newCluster' cfg = Ok b ->
  seeds _ _ _ _ b <> []
  /\ length (seeds _ _ _ _ b) = length (HostPorts _ _ cfg)
  /\ Forall (fun hp => fst hp <> "") (seeds _ _ _ _ b)
  /\ Region _ _ cfg <> ""
  /\ Credentials _ _ cfg <> None
  /\ 0 <= MaxPendingConnectionsPerHost _ _ cfg
  /\ conn_hostname (cfg_connConfig _ _ (config _ _ _ _ b))
     = List.last (fst <$> seeds _ _ _ _ b) ""
  /\ (isEncrypted (cfg_connConfig _ _ (config _ _ _ _ b)) = true ->
      exists h p,
        seeds _ _ _ _ b = [(h, p)]
        /\ conn_hostname (cfg_connConfig _ _ (config _ _ _ _ b)) = h)
  /\ active (state _ _ _ _ b) = ∅
  /\ closed (state _ _ _ _ b) = false.
Proof.
  unfold newCluster, validate.
  destruct (Nat.eqb_spec (length (HostPorts _ _ cfg)) 0) as [|Hhosts];
    [discriminate|].
  destruct (Nat.eqb_spec (String.length (Region _ _ cfg)) 0) as [|Hregion];
    [discriminate|].
  destruct (Credentials _ _ cfg) as [creds|] eqn:Hcreds; [|discriminate].
  destruct (Z.ltb_spec (MaxPendingConnectionsPerHost _ _ cfg) 0) as [|Hmax];
    [discriminate|].
  destruct (getHostPorts ParseRequestURI ErrCodeInvalidParameter
              (HostPorts _ _ cfg)) as [[[out hn] enc]|e] eqn:Hseeds;
    [|discriminate].
  destruct (buildDaxSdkMetrics _) as [m|e]; [|discriminate].
  intros [= <-]. simpl.
  destruct (getHostPorts_output _ _ _ _ _ _ Hseeds)
    as (Hlen & Hall & Hhost & Hname).
  destruct (parseAll_Ok _ _ _ _ _ _ Hseeds) as (sch & _ & _ & _ & Hone).
  repeat split; auto.
  - intros ->. simpl in Hlen. lia.
  - intros Heq. rewrite Heq in Hregion. simpl in Hregion. lia.
  - intros ->. specialize (Hone eq_refl).
    destruct out as [|[h p] [|hp out]]; simpl in *; try lia.
    exists h, p. split; [reflexivity | exact Hname].
Qed.

End NewClusterProperties.

(** The configuration of an encrypted cluster. *)
Lemma new_cluster_has_seeds_witness :
  let cfg :=
    NewCluster.mkConfig unit unit 10 125000000 4000000000 30000000000
      5000000000 "us-east-1" ["daxs://cluster.example.com"] (Some tt)
      (NewCluster.mkConnConfig false "" false) false None false in
  exists b,
    NewCluster.newCluster unit unit Seeds.seedParseRequestURI
      "InvalidParameter" (fun p => ErrorString p)
      (fun _ m => ErrorString m) unit (fun _ => Ok tt) (list DaxAPI)
      (fun _ _ _ => []) cfg = Ok b
    /\ NewCluster.seeds _ _ _ _ b = [("cluster.example.com", 9111)]
    /\ NewCluster.seeds _ _ _ _ b <> [].
Proof.
  intros cfg. eexists. split; [reflexivity|]. split; [reflexivity|].
  refine (proj1 (new_cluster_has_seeds unit unit Seeds.seedParseRequestURI
                   "InvalidParameter" (fun p => ErrorString p)
                   (fun _ m => ErrorString m) unit (fun _ => Ok tt)
                   (list DaxAPI) (fun _ _ _ => []) cfg _ eq_refl)).
Defined.

(** ** The roster: successful updates, replacements, closing *)

Section RosterProperties.

Import Seeds Cluster ClusterLife.

Variable IP_String : list byte -> string.
Variable RouteManager : Type.
Variable setRoutes : list DaxAPI -> RouteManager -> RouteManager.
Variable B : Type.
Variable newClient : list byte -> Z -> B -> (DaxAPI * option error) * B.

Abbreviation cluster' := (cluster RouteManager).
Abbreviation update' := (update IP_String RouteManager setRoutes B newClient).
Abbreviation failed' :=
  (onHealthCheckFailed RouteManager setRoutes B newClient).
Abbreviation hostPortOf := (endpoint_hostPort IP_String).
Abbreviation create := (update_create IP_String B newClient).
Abbreviation locals := (update_locals IP_String B newClient).

Lemma elem_of_concat {A : Type} (x : A) (ls : list (list A)) :
  x ∈ concat ls <-> exists l, x ∈ l /\ l ∈ ls.
Proof.
  induction ls as [|l ls IH]; simpl.
  - split; [intros H; now apply elem_of_nil in H|].
    intros (l & _ & H). now apply elem_of_nil in H.
  - rewrite elem_of_app, IH. split.
    + intros [H|(l' & H1 & H2)].
      * exists l. split; [exact H | now left].
      * exists l'. split; [exact H1 | now right].
    + intros (l' & H1 & H2). apply elem_of_cons in H2 as [->|H2].
      * now left.
      * right. now exists l'.
Qed.

Lemma closedClients_closeClient cl : closedClients (closeClient cl) = closer cl.
Proof. destruct cl as [c|]; [|reflexivity]. simpl. now destruct (implementsCloser c). Qed.

Lemma closedClients_closers (ccs : list clientAndConfig) :
  closedClients (concat ((fun cl => closeClient (cc_client cl)) <$> ccs))
  = concat ((fun cl => closer (cc_client cl)) <$> ccs).
Proof.
  induction ccs as [|cc ccs IH]; [reflexivity|].
  rewrite !fmap_cons. simpl.
  now rewrite closedClients_app, closedClients_closeClient, IH.
Qed.

(** The second loop of [update], when no build fails. *)
Lemma update_create_ok oldActive config :
  forall (i : nat) (l : updateLocals B),
    shouldUpdateRoutes (create oldActive i config l) = true ->
    let L := create oldActive i config l in
    shouldUpdateRoutes l = true
    /\ dom (newActive L)
       = dom (newActive l) ∪ list_to_set (hostPortOf <$> config)
    /\ (forall h cc, oldActive !! h = Some cc -> h ∈ hostPortOf <$> config ->
          newActive L !! h = Some cc)
    /\ (forall h, h ∉ hostPortOf <$> config ->
          newActive L !! h = newActive l !! h)
    /\ length (newRoutes L) = length (newRoutes l)
    /\ (forall j, (j < i)%nat -> newRoutes L !! j = newRoutes l !! j)
    /\ (NoDup (hostPortOf <$> config) ->
        forall k ep, config !! k = Some ep ->
          (i + k < length (newRoutes l))%nat ->
          exists cc, newActive L !! hostPortOf ep = Some cc
                     /\ newRoutes L !! (i + k)%nat = Some (cc_client cc))
    /\ closedClients (started L) = closedClients (started l).
Proof.
  induction config as [|ep rest IH]; intros i l; simpl.
  - intros Hs. repeat split; auto.
    + now rewrite union_empty_r_L.
    + intros h cc _ Hin. now apply elem_of_nil in Hin.
    + intros _ k ep' Hk. rewrite lookup_nil in Hk. discriminate.
  - (* the two ways through one iteration lead to the same facts *)
    assert (forall cliAndCfg st,
              (forall h cc, oldActive !! h = Some cc -> h = hostPortOf ep ->
                 cc = cliAndCfg) ->
              closedClients st = [] ->
              let l1 :=
                {| newActive := <[hostPortOf ep := cliAndCfg]> (newActive l);
                   newRoutes := <[i := cc_client cliAndCfg]> (newRoutes l);
                   shouldUpdateRoutes := shouldUpdateRoutes l;
                   newCliCfg := newCliCfg l;
                   builder := builder l;
                   started := started l ++ st |} in
              forall nc bl,
              let l2 :=
                {| newActive := newActive l1; newRoutes := newRoutes l1;
                   shouldUpdateRoutes := shouldUpdateRoutes l1;
                   newCliCfg := nc; builder := bl; started := started l1 |} in
              shouldUpdateRoutes (create oldActive (S i) rest l2) = true ->
              let L := create oldActive (S i) rest l2 in
              shouldUpdateRoutes l = true
              /\ dom (newActive L)
                 = dom (newActive l) ∪ list_to_set (hostPortOf <$> ep :: rest)
              /\ (forall h cc, oldActive !! h = Some cc ->
                    h ∈ hostPortOf <$> ep :: rest -> newActive L !! h = Some cc)
              /\ (forall h, h ∉ hostPortOf <$> ep :: rest ->
                    newActive L !! h = newActive l !! h)
              /\ length (newRoutes L) = length (newRoutes l)
              /\ (forall j, (j < i)%nat -> newRoutes L !! j = newRoutes l !! j)
              /\ (NoDup (hostPortOf <$> ep :: rest) ->
                  forall k ep', (ep :: rest) !! k = Some ep' ->
                    (i + k < length (newRoutes l))%nat ->
                    exists cc, newActive L !! hostPortOf ep' = Some cc
                               /\ newRoutes L !! (i + k)%nat
                                  = Some (cc_client cc))
              /\ closedClients (started L) = closedClients (started l))
      as Hstep.
    { intros cliAndCfg st Hold Hst l1 nc bl l2 Hs L.
      destruct (IH (S i) l2 Hs) as (H1 & H2 & H3 & H4 & H5 & H6 & H7 & H8).
      fold L in H2, H3, H4, H5, H6, H7, H8.
      simpl in H2, H4, H5, H6, H7, H8. rewrite fmap_cons.
      assert (forall h, h ∉ hostPortOf <$> rest -> h = hostPortOf ep ->
                newActive L !! h = Some cliAndCfg) as Hhere.
      { intros h Hnot ->. rewrite H4 by assumption. apply lookup_insert_eq. }
      repeat split.
      - exact H1.
      - rewrite H2, dom_insert_L, list_to_set_cons. set_solver.
      - intros h cc Hh Hin.
        destruct (decide (h ∈ hostPortOf <$> rest)) as [Hr|Hr];
          [now apply H3|].
        apply elem_of_cons in Hin as [->|Hin]; [|contradiction].
        rewrite (Hold _ _ Hh eq_refl). now apply Hhere.
      - intros h Hnot. apply not_elem_of_cons in Hnot as [Hne Hnot].
        rewrite H4 by assumption. now apply lookup_insert_ne.
      - rewrite H5. apply length_insert.
      - intros j Hj. rewrite H6 by lia. apply list_lookup_insert_ne. lia.
      - intros Hnd k ep' Hk Hlen. apply NoDup_cons in Hnd as [Hfresh Hnd].
        destruct k as [|k]; simpl in Hk.
        + inversion Hk. subst ep'. exists cliAndCfg. split.
          * now apply Hhere.
          * rewrite Nat.add_0_r, H6 by lia. apply list_lookup_insert_eq. lia.
        + destruct (H7 Hnd k ep' Hk) as (cc & Hcc & Hroute).
          { rewrite length_insert. lia. }
          exists cc. split; [exact Hcc|].
          now replace (i + S k)%nat with (S (i + k)) by lia.
      - rewrite H8, closedClients_app, Hst. now rewrite app_nil_r. }
    destruct (oldActive !! hostPortOf ep) as [cliAndCfg|] eqn:Hold.
    + intros Hs. pose proof (Hstep cliAndCfg [] ) as Hgo. simpl in Hgo.
      rewrite app_nil_r in Hgo. apply Hgo; [|reflexivity|exact Hs].
      intros h cc Hh ->. congruence.
    + unfold newSingleClient.
      destruct (newClient (address ep) (ep_port ep) (builder l))
        as [[cli [e|]] b'].
      * simpl. discriminate.
      * intros Hs.
        apply (Hstep (mkClientAndConfig cli ep)
                 (startHealthChecks cli (hostPortOf ep)));
          [| apply closedClients_startHealthChecks | exact Hs].
        intros h cc Hh ->. congruence.
Qed.

(** When [update] runs on an open cluster and no client build fails:
    the active endpoints become exactly the endpoints of the roster; an
    endpoint that was active keeps its client and its record; there is
    one route per roster entry; the clients that are closed are exactly
    those of the endpoints that left the roster; and, when the roster
    names no endpoint twice, the route of each entry is the client that
    is now active for its endpoint. *)
Theorem update_success (config : list serviceEndpoint) (c : cluster')
    (b : B) :
  closed c = false ->
  shouldUpdateRoutes (locals config c b) = true ->
  let r := update' config c b in
  let c' := fst (fst r) in
  dom (active c') = rosterKeys IP_String config
  /\ (forall h cc, active c !! h = Some cc ->
        h ∈ rosterKeys IP_String config -> active c' !! h = Some cc)
  /\ closed c' = false
  /\ (exists routes,
        routeManager c' = setRoutes routes (routeManager c)
        /\ length routes = length config
        /\ (NoDup (hostPortOf <$> config) ->
            forall k ep, config !! k = Some ep ->
              exists cc, active c' !! hostPortOf ep = Some cc
                         /\ routes !! k = Some (cc_client cc)))
  /\ closedClients (snd r)
     = concat ((fun cl => closer (cc_client cl))
               <$> leftRoster (rosterKeys IP_String config) (active c)).
Proof.
  intros Hc Hs r c'.
  assert (r = ({| active := newActive (locals config c b);
                  routeManager :=
                    setRoutes (newRoutes (locals config c b)) (routeManager c);
                  closed := closed c;
                  lastRefreshErr := lastRefreshErr c |},
               builder (locals config c b),
               started (locals config c b)
               ++ concat ((fun cl => closeClient (cc_client cl))
                          <$> leftRoster (rosterKeys IP_String config)
                                (active c)))) as Hr.
  { subst r. unfold update. rewrite Hc. fold (rosterKeys IP_String config).
    fold (locals config c b). now rewrite Hs. }
  subst c'. rewrite Hr. simpl.
  unfold update_locals in *.
  destruct (update_create_ok (active c) config 0 _ Hs)
    as (_ & Hdom & Hkeep & _ & Hlen & _ & Hroutes & Hstarted).
  simpl in *. repeat split.
  - rewrite Hdom, dom_empty_L. unfold rosterKeys. set_solver.
  - intros h cc Hh Hin. apply Hkeep; [exact Hh|].
    unfold rosterKeys in Hin. now apply elem_of_list_to_set in Hin.
  - exact Hc.
  - eexists. split; [reflexivity|]. split.
    + rewrite Hlen. apply length_replicate.
    + intros Hnd k ep Hk. apply (Hroutes Hnd k ep Hk).
      rewrite length_replicate. apply lookup_lt_Some in Hk. lia.
  - rewrite closedClients_app, Hstarted. simpl. apply closedClients_closers.
Qed.

(** On a closed cluster [update] does nothing: no client is built,
    started or closed, and the cluster is as it was. *)
Lemma update_closed_is_noop (config : list serviceEndpoint) (c : cluster')
    (b : B) :
  closed c = true -> update' config c b = (c, b, []).
Proof. intros Hc. unfold update. rewrite Hc. reflexivity. Qed.

Abbreviation changed' := (hasChanged IP_String RouteManager).

(** [hasChanged] says "no change" exactly when every entry of the roster
    names an active endpoint and the roster has as many entries as there
    are active endpoints.  For a roster that names no endpoint twice that
    is: exactly when the endpoints of the roster are the active
    endpoints. *)
Theorem hasChanged_spec (config : list serviceEndpoint) (c : cluster') :
  (changed' config c = false <->
   (forall ep, ep ∈ config -> is_Some (active c !! hostPortOf ep))
   /\ length config = size (active c))
  /\ (NoDup (hostPortOf <$> config) ->
      (changed' config c = false <->
       dom (active c) = rosterKeys IP_String config)).
Proof.
  assert (changed' config c = false <->
          (forall ep, ep ∈ config -> is_Some (active c !! hostPortOf ep))
          /\ length config = size (active c)) as Hspec.
  { unfold hasChanged. rewrite orb_false_iff, negb_false_iff, Nat.eqb_eq.
    apply and_iff_compat_r. split.
    - intros Hex ep Hep.
      destruct (active c !! hostPortOf ep) as [cc|] eqn:E; [now exists cc|].
      assert (existsb (fun se => bool_decide (active c !! hostPortOf se = None))
                config = true) as Habs; [|congruence].
      apply existsb_exists. exists ep. split.
      + now apply list_elem_of_In.
      + now apply bool_decide_eq_true.
    - intros Hall.
      destruct (existsb _ config) eqn:E; [|reflexivity].
      apply existsb_exists in E as (ep & Hep & Hnone).
      apply bool_decide_eq_true in Hnone. apply list_elem_of_In in Hep.
      destruct (Hall ep Hep) as [cc Hcc]. congruence. }
  split; [exact Hspec|]. intros Hnd. rewrite Hspec. unfold rosterKeys. split.
  - intros [Hall Hlen]. symmetry. apply set_subseteq_size_eq.
    + intros h Hh. apply elem_of_list_to_set, list_elem_of_fmap in Hh
        as (ep & -> & Hep).
      apply elem_of_dom. now apply Hall.
    + rewrite size_dom, size_list_to_set, length_fmap by assumption. lia.
  - intros Hdom. split.
    + intros ep Hep. apply elem_of_dom. rewrite Hdom.
      apply elem_of_list_to_set, list_elem_of_fmap. now exists ep.
    + rewrite <- size_dom, Hdom, size_list_to_set, length_fmap by assumption.
      reflexivity.
Qed.

(** After an [update] in which no build failed, [hasChanged] finds no
    change for the same roster (one that names no endpoint twice): the
    next refresh with an unchanged roster does not update again. *)
Theorem update_then_unchanged (config : list serviceEndpoint) (c : cluster')
    (b : B) :
  closed c = false ->
  shouldUpdateRoutes (locals config c b) = true ->
  NoDup (hostPortOf <$> config) ->
  changed' config (fst (fst (update' config c b))) = false.
Proof.
  intros Hc Hs Hnd.
  apply (proj2 (hasChanged_spec config _) Hnd).
  now destruct (update_success config c b Hc Hs) as (Hdom & _).
Qed.

(** [onHealthCheckFailed] for an active endpoint.  When the new client
    is built, it takes the place of the old one under the same endpoint
    record, every other endpoint is untouched, the routes are the
    clients of the active endpoints, and the old client, and no other,
    is closed.  When the build fails, the cluster is as it was and no
    client is closed. *)
Theorem health_check_failed_known_host (host : hostPort) (c : cluster')
    (b b' : B) (old : clientAndConfig) (cli : DaxAPI) :
  active c !! host = Some old ->
  let r := failed' host c b in
  let c' := fst (fst r) in
  (newClient (address (cfg old)) (ep_port (cfg old)) b = ((cli, None), b') ->
   active c' !! host = Some (mkClientAndConfig cli (cfg old))
   /\ (forall h, h <> host -> active c' !! h = active c !! h)
   /\ dom (active c') = dom (active c)
   /\ (exists routes,
         routeManager c' = setRoutes routes (routeManager c)
         /\ length routes = size (active c)
         /\ forall cl, cl ∈ routes <->
                       exists h cc, active c' !! h = Some cc
                                    /\ cc_client cc = cl)
   /\ closedClients (snd r) = closer (cc_client old)
   /\ snd (fst r) = b')
  /\ (forall e,
        newClient (address (cfg old)) (ep_port (cfg old)) b
          = ((cli, Some e), b') ->
        r = (c, b', startHealthChecks cli host)
        /\ closedClients (snd r) = []).
Proof.
  intros Hold r c'. subst c' r. unfold onHealthCheckFailed, newSingleClient.
  rewrite Hold. split.
  - intros ->. simpl. repeat split.
    + apply lookup_insert_eq.
    + intros h Hne. now apply lookup_insert_ne.
    + rewrite dom_insert_L. apply elem_of_dom_2 in Hold.
      apply subseteq_union_1_L. now apply singleton_subseteq_l.
    + eexists. split; [reflexivity|]. split.
      * rewrite !length_fmap, length_map_to_list.
        apply map_size_insert_Some. now exists old.
      * intros cl. rewrite list_elem_of_fmap. split.
        -- intros (cc & -> & Hcc). apply list_elem_of_fmap in Hcc
             as ([h cc'] & -> & Hin).
           apply elem_of_map_to_list in Hin. now exists h, cc'.
        -- intros (h & cc & Hin & <-). exists cc. split; [reflexivity|].
           apply list_elem_of_fmap. exists (h, cc). split; [reflexivity|].
           now apply elem_of_map_to_list.
    + rewrite closedClients_app, closedClients_startHealthChecks.
      apply closedClients_closeClient.
  - intros e ->. simpl. split; [reflexivity|].
    apply closedClients_startHealthChecks.
Qed.

Variable closedRouteManager : RouteManager -> RouteManager.

Abbreviation Close' := (Close RouteManager closedRouteManager).

(** [Close] closes the client of every active endpoint (those that can
    be closed) and nothing else, and leaves the cluster closed with no
    active endpoint; from then on [update] and [onHealthCheckFailed] do
    nothing: they build no client and close none. *)
Theorem close_then_nothing (c : cluster') :
  let r := Close' c in
  closed (fst r) = true
  /\ active (fst r) = ∅
  /\ (forall cl, cl ∈ closedClients (snd r) <->
                 exists h cc, active c !! h = Some cc
                              /\ cl ∈ closer (cc_client cc))
  /\ (forall config b, update' config (fst r) b = (fst r, b, []))
  /\ (forall host b, failed' host (fst r) b = (fst r, b, [])).
Proof.
  simpl. repeat split.
  - rewrite closedClients_closers. intros Hin.
    apply elem_of_concat in Hin as (cls & Hcl & Hcls).
    apply list_elem_of_fmap in Hcls as (cc & -> & Hcc).
    apply list_elem_of_fmap in Hcc as ([h cc'] & -> & Hin).
    apply elem_of_map_to_list in Hin. now exists h, cc'.
  - intros (h & cc & Hin & Hcl). rewrite closedClients_closers.
    apply elem_of_concat. exists (closer (cc_client cc)).
    split; [exact Hcl|]. apply list_elem_of_fmap. exists cc.
    split; [reflexivity|]. apply list_elem_of_fmap. exists (h, cc).
    split; [reflexivity|]. now apply elem_of_map_to_list.
Qed.

End RosterProperties.

(** The first roster [{A, B}] of the scenario, given to an empty
    cluster. *)
Lemma update_success_witness :
  dom (Cluster.active Cluster.Scenario.c1)
  = Cluster.rosterKeys Cluster.ipv4_String
      [Cluster.Scenario.epA; Cluster.Scenario.epB]
  /\ Cluster.closedClients (snd Cluster.Scenario.clusterAB) = [].
Proof.
  destruct (update_success Cluster.ipv4_String (list DaxAPI)
              Cluster.Scenario.setRoutes nat Cluster.Scenario.newClient
              [Cluster.Scenario.epA; Cluster.Scenario.epB]
              Cluster.Scenario.emptyCluster 0%nat)
    as (Hdom & _ & _ & _ & Hclosed);
    [reflexivity | vm_compute; reflexivity |].
  split; [exact Hdom|].
  etransitivity; [exact Hclosed | vm_compute; reflexivity].
Defined.


Lemma scenario_roster_NoDup :
  NoDup (Cluster.endpoint_hostPort Cluster.ipv4_String
         <$> [Cluster.Scenario.epA; Cluster.Scenario.epB]).
Proof. apply (bool_decide_eq_true_1 _). vm_compute. reflexivity. Qed.

Lemma hasChanged_spec_witness :
  Cluster.hasChanged Cluster.ipv4_String (list DaxAPI)
    [Cluster.Scenario.epA; Cluster.Scenario.epB] Cluster.Scenario.c1 = false.
Proof.
  apply (proj2 (hasChanged_spec Cluster.ipv4_String (list DaxAPI)
                  [Cluster.Scenario.epA; Cluster.Scenario.epB]
                  Cluster.Scenario.c1) scenario_roster_NoDup).
  vm_compute. reflexivity.
Defined.

Lemma update_then_unchanged_witness :
  Cluster.hasChanged Cluster.ipv4_String (list DaxAPI)
    [Cluster.Scenario.epA; Cluster.Scenario.epB]
    (fst (fst (Cluster.Scenario.update
                 [Cluster.Scenario.epA; Cluster.Scenario.epB]
                 Cluster.Scenario.emptyCluster 0%nat)))
  = false.
Proof.
  apply (update_then_unchanged Cluster.ipv4_String (list DaxAPI)
           Cluster.Scenario.setRoutes nat Cluster.Scenario.newClient).
  - reflexivity.
  - vm_compute. reflexivity.
  - exact scenario_roster_NoDup.
Defined.

(** Node A fails its health check and is rebuilt. *)
Lemma health_check_failed_known_host_witness :
  let r := Cluster.onHealthCheckFailed (list DaxAPI)
             Cluster.Scenario.setRoutes nat Cluster.Scenario.newClient
             (Cluster.Scenario.hp Cluster.Scenario.epA)
             Cluster.Scenario.c1 Cluster.Scenario.b1 in
  Cluster.active (fst (fst r)) !! Cluster.Scenario.hp Cluster.Scenario.epA
  = Some (Cluster.mkClientAndConfig (Some (mkClient 2 true true))
            Cluster.Scenario.epA)
  /\ Cluster.closedClients (snd r) = [Cluster.Scenario.clientA].
Proof.
  intros r.
  destruct (health_check_failed_known_host (list DaxAPI)
              Cluster.Scenario.setRoutes nat Cluster.Scenario.newClient
              (Cluster.Scenario.hp Cluster.Scenario.epA)
              Cluster.Scenario.c1 Cluster.Scenario.b1 3%nat
              (Cluster.mkClientAndConfig (Some Cluster.Scenario.clientA)
                 Cluster.Scenario.epA)
              (Some (mkClient 2 true true)))
    as [Hbuilt _]; [vm_compute; reflexivity|].
  destruct Hbuilt as (Hnew & _ & _ & _ & Hclosed & _);
    [vm_compute; reflexivity|].
  split; [exact Hnew | exact Hclosed].
Defined.

(** ** Refreshing the roster: discovery, the threshold, the shuffle *)

Section RefreshProperties.

Import Seeds Cluster ClusterLife Single Refresh.

Variable W : Type.
Variable LookupIP : string -> W -> result (list (list byte)) * W.
Variable rand_Intn : Z -> W -> Z * W.
Variable time_Now_UnixNano : W -> Z * W.
Variable newClient : bool -> list byte -> Z -> W -> (DaxAPI * option error) * W.
Variable client_endpoints :
  DaxAPI -> RequestOptions -> W -> (list serviceEndpoint * option error) * W.
Variable IP_String : list byte -> string.
Variable RouteManager : Type.
Variable setRoutes : list DaxAPI -> RouteManager -> RouteManager.

Abbreviation pullFrom := (pullEndpointsFrom W newClient client_endpoints).
Abbreviation pullIps := (pull_ips W newClient client_endpoints).
Abbreviation pullSeeds :=
  (pull_seeds W LookupIP rand_Intn newClient client_endpoints).
Abbreviation pull :=
  (pullEndpoints W LookupIP rand_Intn newClient client_endpoints).
Abbreviation refreshNow' :=
  (refreshNow W LookupIP rand_Intn newClient client_endpoints IP_String
     RouteManager setRoutes).
Abbreviation refresh' :=
  (refresh W LookupIP rand_Intn time_Now_UnixNano newClient client_endpoints
     IP_String RouteManager setRoutes).
Abbreviation safeRefresh' :=
  (safeRefresh W LookupIP rand_Intn time_Now_UnixNano newClient
     client_endpoints IP_String RouteManager setRoutes).

(** *** The shuffle *)

Lemma swap_Permutation {A : Type} (k j : nat) (l : list A) : swap k j l ≡ₚ l.
Proof.
  unfold swap.
  destruct (l !! k) as [a|] eqn:Hk; [|reflexivity].
  destruct (l !! j) as [b|] eqn:Hj; [|reflexivity].
  pose proof (lookup_lt_Some _ _ _ Hk) as Hklt.
  pose proof (lookup_lt_Some _ _ _ Hj) as Hjlt.
  apply Permutation_inj. split; [now rewrite !length_insert|].
  exists (fun i => if decide (i = k) then j
                   else if decide (i = j) then k else i).
  split.
  - intros x y.
    repeat (destruct (decide _)); intros; subst; congruence.
  - intros i. destruct (decide (i = k)) as [->|Hik].
    + rewrite list_lookup_insert_eq by (rewrite length_insert; lia).
      now rewrite Hj.
    + rewrite list_lookup_insert_ne by congruence.
      destruct (decide (i = j)) as [->|Hij].
      * rewrite list_lookup_insert_eq by lia. now rewrite Hk.
      * now rewrite list_lookup_insert_ne by congruence.
Qed.

(** With [rand.Intn] keeping to its range, the in-place shuffle of the
    addresses of a seed returns a rearrangement of them: every address is
    still there, as often as before. *)
Theorem shuffle_is_a_permutation (ips : list (list byte)) (w : W) :
  (forall n v, 0 < n -> 0 <= fst (rand_Intn n v) < n) ->
  fst (shuffle W rand_Intn ips w) ≡ₚ ips
  /\ length (fst (shuffle W rand_Intn ips w)) = length ips.
Proof.
  intros _.
  assert (fst (shuffle W rand_Intn ips w) ≡ₚ ips) as Hperm.
  { unfold shuffle. destruct (Nat.ltb 1 (length ips)); [|reflexivity].
    generalize (length ips - 1)%nat as j. intros j. revert ips w.
    induction j as [|j IH]; intros ips w; [reflexivity|].
    cbn [shuffle_loop].
    destruct (rand_Intn (Z.of_nat (S j) + 1) w) as [k w'].
    rewrite IH. apply swap_Permutation. }
  split; [exact Hperm | now apply Permutation_length].
Qed.

(** *** Discovery *)

Lemma built_app t1 t2 : built (t1 ++ t2) = built t1 ++ built t2.
Proof. unfold built. apply omap_app. Qed.

Lemma asked_app t1 t2 : asked (t1 ++ t2) = asked t1 ++ asked t2.
Proof. unfold asked. apply omap_app. Qed.

Lemma effects_app t1 t2 : effects (t1 ++ t2) = effects t1 ++ effects t2.
Proof. unfold effects. apply omap_app. Qed.

Lemma effects_Did es : effects (Did <$> es) = es.
Proof. induction es as [|e es IH]; [reflexivity|]. simpl. f_equal. exact IH. Qed.

Lemma built_Did es : built (Did <$> es) = [].
Proof. induction es as [|e es IH]; [reflexivity|]. exact IH. Qed.

Lemma asked_Did es : asked (Did <$> es) = [].
Proof. induction es as [|e es IH]; [reflexivity|]. exact IH. Qed.

Lemma emitAll_trace es (w : W) tr : emitAll W es w tr = (tt, w, tr ++ es).
Proof.
  revert tr. induction es as [|e es IH]; intros tr; simpl.
  - unfold Eff.ret. now rewrite app_nil_r.
  - unfold Eff.bind, Eff.emit. rewrite IH. now rewrite <- app_assoc.
Qed.

Lemma discovers_nil : discovers [].
Proof. split; reflexivity. Qed.

Lemma discovers_app t1 t2 : discovers t1 -> discovers t2 -> discovers (t1 ++ t2).
Proof.
  intros [Ha1 He1] [Ha2 He2]. split.
  - now rewrite asked_app, built_app, fmap_app, Ha1, Ha2.
  - now rewrite effects_app, built_app, fmap_app, concat_app, He1, He2.
Qed.

Lemma pullEndpointsFrom_trace ip port w tr :
  exists r w' new,
    pullFrom ip port w tr = (r, w', tr ++ new) /\ discovers new.
Proof.
  unfold pullEndpointsFrom, Eff.bind, Eff.lift, Eff.emit, Eff.ret.
  destruct (newClient false ip port w) as [[client [e|]] w1].
  - eexists _, _, []. rewrite app_nil_r. split; [reflexivity|].
    apply discovers_nil.
  - destruct (client_endpoints client discoveryOptions w1) as [r w2].
    rewrite emitAll_trace.
    eexists _, _, ([Built client; AskedEndpoints client discoveryOptions]
                   ++ (Did <$> closeClient client)).
    split; [now rewrite <- !app_assoc|].
    split.
    + rewrite asked_app, built_app, asked_Did, built_Did. reflexivity.
    + rewrite effects_app, built_app, effects_Did, built_Did. simpl.
      now rewrite app_nil_r.
Qed.

Lemma pull_ips_trace ips port :
  forall lastErr w tr,
    exists found err w' new,
      pullIps ips port lastErr w tr = ((found, err), w', tr ++ new)
      /\ discovers new
      /\ (forall eps, found = Some eps -> eps <> []).
Proof.
  induction ips as [|ip ips IH]; intros lastErr w tr; simpl.
  - eexists _, _, _, []. unfold Eff.ret. rewrite app_nil_r.
    split; [reflexivity|]. split; [apply discovers_nil | discriminate].
  - unfold Eff.bind at 1.
    destruct (pullEndpointsFrom_trace ip port w tr)
      as ([eps err] & w1 & new1 & -> & Hd1).
    assert (forall lastErr',
              exists found err' w' new,
                pullIps ips port lastErr' w1 (tr ++ new1)
                  = ((found, err'), w', tr ++ new)
                /\ discovers new
                /\ (forall eps, found = Some eps -> eps <> [])) as Hnext.
    { intros lastErr'.
      destruct (IH lastErr' w1 (tr ++ new1))
        as (found & err' & w' & new2 & -> & Hd2 & Hne).
      exists found, err', w', (new1 ++ new2). rewrite app_assoc.
      split; [reflexivity|]. split; [now apply discovers_app | exact Hne]. }
    destruct err as [e|]; [apply Hnext|].
    destruct eps as [|ep eps]; simpl; [apply Hnext|].
    eexists _, _, _, new1. unfold Eff.ret. split; [reflexivity|].
    split; [exact Hd1|]. intros eps' [= <-]. discriminate.
Qed.

Lemma pull_seeds_trace seeds :
  forall lastErr w tr,
    exists eps err w' new,
      pullSeeds seeds lastErr w tr = ((eps, err), w', tr ++ new)
      /\ discovers new
      /\ (eps <> [] -> err = None).
Proof.
  induction seeds as [|s seeds IH]; intros lastErr w tr; simpl.
  - eexists _, _, _, []. unfold Eff.ret. rewrite app_nil_r.
    split; [reflexivity|]. split; [apply discovers_nil|].
    intros H. now elim H.
  - unfold Eff.bind at 1. unfold Eff.lift at 1.
    destruct (LookupIP (host s) w) as [[ips|e] w1]; [|apply IH].
    unfold Eff.bind at 1. unfold Eff.lift at 1.
    destruct (shuffle W rand_Intn ips w1) as [ips' w2].
    unfold Eff.bind at 1.
    destruct (pull_ips_trace ips' (port s) lastErr w2 tr)
      as (found & err & w3 & new1 & -> & Hd1 & Hne).
    destruct found as [eps|].
    + eexists _, _, _, new1. unfold Eff.ret. split; [reflexivity|].
      split; [exact Hd1 | reflexivity].
    + destruct (IH err w3 (tr ++ new1))
        as (eps & err' & w' & new2 & -> & Hd2 & Hshape).
      exists eps, err', w', (new1 ++ new2). rewrite app_assoc.
      split; [reflexivity|]. split; [now apply discovers_app | exact Hshape].
Qed.

(** Discovery leaks no client: whatever name resolution, the builder
    and the nodes do, every client that [pullEndpoints] builds is asked
    for the endpoints exactly once, with [RetryMaxAttempts = 2], and is
    closed when it can be closed; the clients are asked and closed in
    the order they were built, and nothing is done to any other client.
    The endpoints returned are either a list that is not empty, with a
    nil error, or no endpoint at all. *)
Theorem discovery_closes_what_it_builds (seeds : list hostPort) (w : W)
    (tr : list event) :
  exists eps err w' new,
    pull seeds w tr = ((eps, err), w', tr ++ new)
    /\ asked new = (fun c => (c, discoveryOptions)) <$> built new
    /\ effects new = concat ((fun c => closeClient c) <$> built new)
    /\ RetryMaxAttempts discoveryOptions = 2
    /\ (eps <> [] -> err = None).
Proof.
  destruct (pull_seeds_trace seeds None w tr)
    as (eps & err & w' & new & Hrun & [Ha He] & Hshape).
  now exists eps, err, w', new.
Qed.

(** *** The threshold, and what [refreshNow] does with the answer *)

(** An unforced [refresh] that comes no later than the threshold after
    the last one does nothing: no name is resolved, no client is built
    or closed, and the cluster and [lastUpdateNs] are as they were.  A
    refresh that runs stores the time it ran at, so that the refresh
    after it is held back in turn. *)
Theorem refresh_respects_threshold (threshold : Z) (seeds : list hostPort)
    (force : bool) (s : refresher RouteManager) (w w1 : W) (now : Z)
    (tr : list event) :
  time_Now_UnixNano w = (now, w1) ->
  (force = false -> int_wrap (now - lastUpdateNs s) <= threshold ->
   refresh' threshold seeds force s w tr = ((None, s), w1, tr))
  /\ (force = true \/ threshold < int_wrap (now - lastUpdateNs s) ->
      let r := refresh' threshold seeds force s w tr in
      lastUpdateNs (snd (fst (fst r))) = now
      /\ forall v v1 now' tr',
           time_Now_UnixNano v = (now', v1) ->
           int_wrap (now' - now) <= threshold ->
           refresh' threshold seeds false (snd (fst (fst r))) v tr'
           = ((None, snd (fst (fst r))), v1, tr')).
Proof.
  intros Hnow.
  assert (forall s0 v v1 now0 tr0,
            time_Now_UnixNano v = (now0, v1) ->
            int_wrap (now0 - lastUpdateNs s0) <= threshold ->
            refresh' threshold seeds false s0 v tr0 = ((None, s0), v1, tr0))
    as Hskip.
  { intros s0 v v1 now0 tr0 Hn Hle.
    unfold refresh, Eff.bind, Eff.lift, Eff.ret. rewrite Hn.
    destruct (Z.gtb_spec (int_wrap (now0 - lastUpdateNs s0)) threshold);
      [lia | reflexivity]. }
  split.
  - intros -> Hle. exact (Hskip s w w1 now tr Hnow Hle).
  - intros Hrun r.
    assert (lastUpdateNs (snd (fst (fst r))) = now) as Hlast.
    { subst r. unfold refresh. unfold Eff.bind at 1. unfold Eff.lift at 1.
      rewrite Hnow.
      assert ((int_wrap (now - lastUpdateNs s) >? threshold) || force = true)
        as ->.
      { destruct Hrun as [->|Hgt]; [apply orb_true_r|].
        apply orb_true_iff. left. apply Z.gtb_lt. lia. }
      unfold Eff.bind, Eff.ret.
      destruct (refreshNow' seeds (cl s) w1 tr) as [[[err c'] w2] tr2].
      reflexivity. }
    split; [exact Hlast|].
    intros v v1 now' tr' Hn Hle. apply (Hskip _ v v1 now' tr' Hn).
    now rewrite Hlast.
Qed.

(** [safeRefresh] stores the outcome of [refresh] as the last refresh
    error, and a refresh that is held back by the threshold has the
    outcome nil: it leaves the endpoints, the routes and [lastUpdateNs]
    alone but clears the error of the refresh before it. *)
Theorem skipped_refresh_clears_last_error (threshold : Z)
    (seeds : list hostPort) (s : refresher RouteManager) (w w1 : W) (now : Z)
    (tr : list event) :
  time_Now_UnixNano w = (now, w1) ->
  int_wrap (now - lastUpdateNs s) <= threshold ->
  let r := safeRefresh' threshold seeds false s w tr in
  let s' := fst (fst r) in
  snd r = tr /\ snd (fst r) = w1
  /\ active (cl s') = active (cl s)
  /\ routeManager (cl s') = routeManager (cl s)
  /\ closed (cl s') = closed (cl s)
  /\ lastUpdateNs s' = lastUpdateNs s
  /\ lastRefreshErr (cl s') = None.
Proof.
  intros Hnow Hle r s'.
  destruct (refresh_respects_threshold threshold seeds false s w w1 now tr Hnow)
    as [Hskip _].
  assert (r = (mkRefresher
                 {| active := active (cl s);
                    routeManager := routeManager (cl s);
                    closed := closed (cl s);
                    lastRefreshErr := None |}
                 (lastUpdateNs s), w1, tr)) as Hr.
  { subst r. unfold safeRefresh. unfold Eff.bind at 1.
    now rewrite (Hskip eq_refl Hle). }
  subst s'. rewrite Hr. simpl. repeat split.
Qed.

(** What [refreshNow] does with the answer of discovery.  An error is
    returned and the cluster is left alone.  A roster in which
    [hasChanged] finds no change leads to no update: no client of the
    roster is built or closed.  An empty answer without error, on an open
    cluster with active endpoints, is a change like any other: every
    active client is closed and the cluster is left without endpoints
    and routes. *)
Theorem refreshNow_outcomes (seeds : list hostPort)
    (c : cluster RouteManager) (w w1 : W) (tr tr1 : list event)
    (cfg : list serviceEndpoint) (err : option error) :
  pull seeds w tr = ((cfg, err), w1, tr1) ->
  (forall e, err = Some e -> refreshNow' seeds c w tr = ((Some e, c), w1, tr1))
  /\ (err = None -> hasChanged IP_String RouteManager cfg c = false ->
      refreshNow' seeds c w tr = ((None, c), w1, tr1))
  /\ (err = None -> cfg = [] -> closed c = false -> active c <> ∅ ->
      let r := refreshNow' seeds c w tr in
      let c' := snd (fst (fst r)) in
      fst (fst (fst r)) = None
      /\ active c' = ∅
      /\ routeManager c' = setRoutes [] (routeManager c)
      /\ snd r
         = tr1 ++ (Did <$> concat ((fun cc => closeClient (cc_client cc))
                                   <$> (map_to_list (active c)).*2))).
Proof.
  intros Hpull.
  assert (refreshNow' seeds c w tr
          = match err with
            | Some e => ((Some e, c), w1, tr1)
            | None =>
                if negb (hasChanged IP_String RouteManager cfg c)
                then ((None, c), w1, tr1)
                else
                  let '(c', w', effs) :=
                    update IP_String RouteManager setRoutes W (newClient true)
                      cfg c w1 in
                  ((None, c'), w', tr1 ++ (Did <$> effs))
            end) as Heq.
  { unfold refreshNow. unfold Eff.bind at 1. rewrite Hpull.
    destruct err as [e|]; [reflexivity|].
    destruct (negb _); [reflexivity|].
    unfold Eff.bind, runUpdate, Eff.ret.
    now destruct (update _ _ _ _ _ cfg c w1) as [[c' w'] effs]. }
  split; [|split].
  - intros e ->. exact Heq.
  - intros -> Hsame. rewrite Heq, Hsame. reflexivity.
  - intros -> -> Hopen Hne r c'. subst c' r. rewrite Heq.
    assert (hasChanged IP_String RouteManager [] c = true) as ->.
    { unfold hasChanged. simpl.
      destruct (size (active c)) eqn:Hz; [|reflexivity].
      apply map_size_empty_iff in Hz. contradiction. }
    simpl. unfold update. rewrite Hopen. simpl.
    repeat split.
    do 3 f_equal. unfold leftRoster.
    do 3 f_equal. apply map_filter_id. intros k x _. simpl.
    apply not_elem_of_empty.
Qed.

End RefreshProperties.

Lemma shuffle_is_a_permutation_witness :
  let ips := [[x0a; x00; x00; x01]; [x0a; x00; x00; x02]; [x0a; x00; x00; x03]] in
  fst (Refresh.shuffle nat RefreshScenario.rand_Intn ips 0%nat) ≡ₚ ips
  /\ fst (Refresh.shuffle nat RefreshScenario.rand_Intn ips 0%nat)
     = [[x0a; x00; x00; x02]; [x0a; x00; x00; x03]; [x0a; x00; x00; x01]].
Proof.
  intros ips. split; [|reflexivity].
  apply (shuffle_is_a_permutation nat RefreshScenario.rand_Intn ips 0%nat).
  intros n v Hn. simpl. lia.
Defined.

(** A refresh 100 ns after the last one, with a threshold of 125 ns. *)
Lemma refresh_respects_threshold_witness :
  RefreshScenario.refresh 125 RefreshScenario.seeds false
    RefreshScenario.lastFailed 2%nat []
  = ((None, RefreshScenario.lastFailed), 2%nat, []).
Proof.
  apply (proj1 (refresh_respects_threshold nat RefreshScenario.LookupIP
                  RefreshScenario.rand_Intn RefreshScenario.time_Now_UnixNano
                  RefreshScenario.newClient RefreshScenario.client_endpoints
                  Cluster.ipv4_String (list DaxAPI) Cluster.Scenario.setRoutes
                  125 RefreshScenario.seeds false RefreshScenario.lastFailed
                  2%nat 2%nat RefreshScenario.clockNs [] eq_refl)).
  - reflexivity.
  - vm_compute. discriminate.
Defined.

Lemma skipped_refresh_clears_last_error_witness :
  let r := RefreshScenario.safeRefresh 125 RefreshScenario.seeds false
             RefreshScenario.lastFailed 2%nat [] in
  Cluster.lastRefreshErr (Refresh.cl RefreshScenario.lastFailed) <> None
  /\ Cluster.lastRefreshErr (Refresh.cl (fst (fst r))) = None
  /\ snd r = [].
Proof.
  intros r. split; [discriminate|].
  destruct (skipped_refresh_clears_last_error nat RefreshScenario.LookupIP
              RefreshScenario.rand_Intn RefreshScenario.time_Now_UnixNano
              RefreshScenario.newClient RefreshScenario.client_endpoints
              Cluster.ipv4_String (list DaxAPI) Cluster.Scenario.setRoutes
              125 RefreshScenario.seeds RefreshScenario.lastFailed
              2%nat 2%nat RefreshScenario.clockNs [] eq_refl)
    as (Htr & _ & _ & _ & _ & _ & Herr); [vm_compute; discriminate|].
  split; [exact Herr | exact Htr].
Defined.

(** Discovery finds the roster the cluster already has: a client is
    built for the first address tried, asked, and closed, and nothing else
    happens. *)
Lemma refreshNow_outcomes_witness :
  RefreshScenario.refreshNow RefreshScenario.seeds Cluster.Scenario.c1
    Cluster.Scenario.b1 []
  = ((None, Cluster.Scenario.c1), 3%nat,
     [Refresh.Built (Some (mkClient 2 true true));
      Refresh.AskedEndpoints (Some (mkClient 2 true true))
        Refresh.discoveryOptions;
      Refresh.Did (Cluster.Close (mkClient 2 true true))]).
Proof.
  apply (proj1 (proj2 (refreshNow_outcomes nat RefreshScenario.LookupIP
                  RefreshScenario.rand_Intn RefreshScenario.newClient
                  RefreshScenario.client_endpoints
                  Cluster.ipv4_String (list DaxAPI) Cluster.Scenario.setRoutes
                  RefreshScenario.seeds Cluster.Scenario.c1
                  Cluster.Scenario.b1 3%nat [] _
                  [Cluster.Scenario.epA; Cluster.Scenario.epB] None
                  ltac:(vm_compute; reflexivity)))).
  - reflexivity.
  - vm_compute. reflexivity.
Defined.

(** ** The cluster retry loop: what a run looks like *)

Section RetryRuns.

Import Single ClusterClient RetryTrace.

Context {W : Type} (env : ClusterClient.collaborators W).

Lemma acted_on_app t1 t2 : acted_on (t1 ++ t2) = acted_on t1 ++ acted_on t2.
Proof. unfold acted_on. apply omap_app. Qed.

Lemma backoffs_of_app t1 t2 :
  backoffs_of (t1 ++ t2) = backoffs_of t1 ++ backoffs_of t2.
Proof. unfold backoffs_of. apply omap_app. Qed.

(** One pass through the head of the loop body, in full. *)
Lemma attempt_cases op action opt client w tr :
  (exists w1 txt,
     getRoute env client w = (None, w1)
     /\ attempt env op action opt client w tr
        = ((None,
            Some (OperationError (service env) op
                    (ErrorString
                       ("no routes found. lastRefreshError: " ++ txt)%string))),
           w1, tr))
  \/ (exists c w1,
        getRoute env client w = (Some c, w1)
        /\ attempt env op action opt client w tr
           = ((Some c, fst (action (Some c) opt w1)),
              snd (action (Some c) opt w1),
              tr ++ [Action (Some c) opt])).
Proof.
  unfold attempt, cluster_client, Eff.bind, Eff.lift, Eff.read, Eff.ret,
    Eff.emit.
  destruct (getRoute env client w) as [[c|] w1].
  - right. exists c, w1. split; [reflexivity|].
    now destruct (action (Some c) opt w1).
  - left. now exists w1, (lastRefreshErrorText env w1).
Qed.

Lemma retry_loop_shape n i attempts op action opt client err w tr :
  i + Z.of_nat n = attempts + 1 ->
  exists new,
    snd (retry_loop env n i attempts op action opt client err w tr)
      = tr ++ new
    /\ Forall (fun cl => cl <> None) (acted_on new)
    /\ Forall (fun d => 0 < d) (backoffs_of new)
    /\ (length (backoffs_of new) <= Nat.pred n)%nat.
Proof.
  revert i client err w tr.
  induction n as [|n IH]; intros i client err w tr Hi.
  - exists []. simpl. unfold Eff.ret. simpl. rewrite app_nil_r.
    repeat split; constructor.
  - cbn [retry_loop]. unfold Eff.bind at 1.
    assert (exists client' e w1 new1,
              attempt env op action opt client w tr
                = ((client', e), w1, tr ++ new1)
              /\ Forall (fun cl => cl <> None) (acted_on new1)
              /\ backoffs_of new1 = []) as (client' & e & w1 & new1 & -> & Hc1 & Hb1).
    { destruct (attempt_cases op action opt client w tr)
        as [(w1 & txt & _ & ->)|(c & w1 & _ & ->)].
      - eexists _, _, w1, []. rewrite app_nil_r.
        repeat split; constructor.
      - eexists _, _, _, [_]. repeat split. repeat constructor. discriminate. }
    assert (forall err',
              exists new,
                snd (retry_loop env n (i + 1) attempts op action opt client'
                       err' w1 (tr ++ new1)) = tr ++ new
                /\ Forall (fun cl => cl <> None) (acted_on new)
                /\ Forall (fun d => 0 < d) (backoffs_of new)
                /\ (length (backoffs_of new) <= Nat.pred n)%nat) as Hnext.
    { intros err'.
      destruct (IH (i + 1) client' err' w1 (tr ++ new1) ltac:(lia))
        as (new2 & -> & Hc2 & Hd2 & Hb2).
      exists (new1 ++ new2). rewrite app_assoc.
      rewrite acted_on_app, backoffs_of_app, Hb1. simpl.
      repeat split; auto. now apply Forall_app. }
    assert (exists new,
              tr ++ new1 = tr ++ new
              /\ Forall (fun cl => cl <> None) (acted_on new)
              /\ Forall (fun d => 0 < d) (backoffs_of new)
              /\ (length (backoffs_of new) <= Nat.pred (S n))%nat) as Hstop.
    { exists new1. rewrite Hb1. repeat split; auto; simpl; solve [constructor | lia]. }
    destruct e as [e|]; [|exact Hstop].
    destruct (isRetryable env opt e); simpl; [|exact Hstop].
    destruct (Z.eqb_spec i attempts) as [->|Hne]; simpl.
    + (* the last iteration: no sleep *)
      assert (n = 0%nat) as -> by lia. simpl. exact Hstop.
    + assert (n <> 0%nat) as Hn by lia.
      destruct (Hnext (Some e)) as (new & Hnew & Hc & Hd & Hb).
      destruct (Z.ltb_spec 0 (if Retryer_RetryDelay opt (i + 1) e =? 0
                              then RetryDelay opt
                              else Retryer_RetryDelay opt (i + 1) e))
        as [Hpos|Hzero].
      * unfold Eff.bind, Eff.emit, Eff.lift.
        destruct (SleepWithContext env op _ w1) as [[se|] w2].
        -- exists (new1 ++ [Backoff op
                     (if Retryer_RetryDelay opt (i + 1) e =? 0
                      then RetryDelay opt
                      else Retryer_RetryDelay opt (i + 1) e)]).
           simpl. rewrite app_assoc.
           rewrite acted_on_app, backoffs_of_app, Hb1. simpl.
           rewrite app_nil_r.
           repeat split; auto; solve [repeat constructor; lia | simpl; lia].
        -- destruct (IH (i + 1) client' None w2
                       ((tr ++ new1) ++ [Backoff op
                          (if Retryer_RetryDelay opt (i + 1) e =? 0
                           then RetryDelay opt
                           else Retryer_RetryDelay opt (i + 1) e)])
                       ltac:(lia)) as (new2 & -> & Hc2 & Hd2 & Hb2).
           exists ((new1 ++ [Backoff op
                      (if Retryer_RetryDelay opt (i + 1) e =? 0
                       then RetryDelay opt
                       else Retryer_RetryDelay opt (i + 1) e)]) ++ new2).
           rewrite !app_assoc.
           rewrite !acted_on_app, !backoffs_of_app, Hb1. simpl.
           rewrite app_nil_r.
           split; [reflexivity|]. split; [now apply Forall_app|].
           split; [constructor; [lia | exact Hd2] | simpl; lia].
      * exists new. repeat split; auto. lia.
Qed.

(** Whatever the collaborators do, a run of [retry] only extends the
    trace; the action is never run on a nil client (an attempt for which
    the cluster has no route runs no action); the loop never sleeps for
    a delay that is not positive; and, for a budget that is not
    negative, it sleeps at most [RetryMaxAttempts] times: there is no
    sleep after the last attempt. *)
Theorem retry_run_shape (op : string)
    (action : DaxAPI -> RequestOptions -> W -> option error * W)
    (opt : RequestOptions) (w : W) (tr : list ClusterClient.event) :
  0 <= RetryMaxAttempts opt ->
  exists new,
    snd (retry env op action opt w tr) = tr ++ new
    /\ Forall (fun cl => cl <> None) (acted_on new)
    /\ Forall (fun d => 0 < d) (backoffs_of new)
    /\ Z.of_nat (length (backoffs_of new)) <= RetryMaxAttempts opt.
Proof.
  intros Hn. unfold retry, Eff.bind, Eff.ret.
  destruct (retry_loop_shape (Z.to_nat (RetryMaxAttempts opt + 1)) 0
              (RetryMaxAttempts opt) op action
              (set_RetryMaxAttempts 0 opt) None None w tr ltac:(lia))
    as (new & Hnew & Hc & Hd & Hb).
  destruct (retry_loop _ _ _ _ _ _ _ _ _ _ _) as [[err w'] tr'].
  simpl in *. exists new. repeat split; auto. lia.
Qed.

(** With a negative [RetryMaxAttempts] the loop body never runs: [retry]
    asks for no route, runs no action, does not sleep, and returns nil as
    if the operation had succeeded. *)
Lemma retry_negative_budget (op : string)
    (action : DaxAPI -> RequestOptions -> W -> option error * W)
    (opt : RequestOptions) (w : W) (tr : list ClusterClient.event) :
  RetryMaxAttempts opt < 0 ->
  retry env op action opt w tr = (None, w, tr).
Proof.
  intros Hn. unfold retry.
  replace (Z.to_nat (RetryMaxAttempts opt + 1)) with 0%nat by lia.
  reflexivity.
Qed.

(** When the first attempt finds a route and the action succeeds on it,
    [retry] returns nil after that one action, without sleeping. *)
Lemma retry_first_success (op : string)
    (action : DaxAPI -> RequestOptions -> W -> option error * W)
    (opt : RequestOptions) (w w1 w2 : W) (tr : list ClusterClient.event)
    (c : client) :
  0 <= RetryMaxAttempts opt ->
  getRoute env None w = (Some c, w1) ->
  action (Some c) (set_RetryMaxAttempts 0 opt) w1 = (None, w2) ->
  retry env op action opt w tr
  = (None, w2, tr ++ [Action (Some c) (set_RetryMaxAttempts 0 opt)]).
Proof.
  intros Hn Hroute Hact. unfold retry.
  replace (Z.to_nat (RetryMaxAttempts opt + 1))
    with (S (Z.to_nat (RetryMaxAttempts opt))) by lia.
  cbn [retry_loop]. unfold Eff.bind at 1 2.
  destruct (attempt_cases op action (set_RetryMaxAttempts 0 opt) None w tr)
    as [(w1' & txt & Hr & _)|(c' & w1' & Hr & ->)]; [congruence|].
  rewrite Hroute in Hr. inversion Hr. subst c' w1'. rewrite Hact. reflexivity.
Qed.

Lemma retry_loop_exhausts (action : DaxAPI -> RequestOptions -> W -> option error * W)
    (opt : RequestOptions) (op : string) (e : error) (attempts : Z) :
  (forall prev w, fst (getRoute env prev w) <> None) ->
  (forall cl w, fst (action cl opt w) = Some e) ->
  isRetryable env opt e = true ->
  (forall d w, fst (SleepWithContext env op d w) = None) ->
  forall n i client err w tr,
    i + Z.of_nat n = attempts + 1 -> (1 <= n)%nat ->
    exists new w',
      retry_loop env n i attempts op action opt client err w tr
        = (Some e, w', tr ++ new)
      /\ length (acted_on new) = n.
Proof.
  intros Hroute Hfail Hretry Hsleep.
  induction n as [|n IH]; intros i client err w tr Hi Hn; [lia|].
  cbn [retry_loop]. unfold Eff.bind at 1.
  destruct (attempt_cases op action opt client w tr)
    as [(w1 & txt & Hr & _)|(c & w1 & Hr & ->)].
  { specialize (Hroute client w). rewrite Hr in Hroute. now elim Hroute. }
  rewrite Hfail, Hretry. simpl.
  destruct (Z.eqb_spec i attempts) as [->|Hne]; simpl.
  - assert (n = 0%nat) as -> by lia. simpl. unfold Eff.ret.
    eexists [_], _. split; reflexivity.
  - assert (1 <= n)%nat as Hn' by lia.
    assert (forall err' w2 tr2,
              exists new w',
                retry_loop env n (i + 1) attempts op action opt (Some c) err'
                  w2 ((tr ++ [Action (Some c) opt]) ++ tr2)
                = (Some e, w', tr ++ Action (Some c) opt :: tr2 ++ new)
                /\ length (acted_on new) = n) as Hnext.
    { intros err' w2 tr2.
      destruct (IH (i + 1) (Some c) err' w2
                  ((tr ++ [Action (Some c) opt]) ++ tr2) ltac:(lia) Hn')
        as (new & w' & -> & Hlen).
      exists new, w'. split; [|exact Hlen].
      now rewrite <- !app_assoc. }
    destruct (0 <? _) eqn:Hd.
    + unfold Eff.bind, Eff.emit, Eff.lift.
      pose proof (Hsleep
                    (if Retryer_RetryDelay opt (i + 1) e =? 0
                     then RetryDelay opt
                     else Retryer_RetryDelay opt (i + 1) e)
                    (snd (action (Some c) opt w1))) as Hs.
      destruct (SleepWithContext env op _ _) as [se w2]. simpl in Hs. subst se.
      destruct (Hnext None w2 [Backoff op
                     (if Retryer_RetryDelay opt (i + 1) e =? 0
                      then RetryDelay opt
                      else Retryer_RetryDelay opt (i + 1) e)])
        as (new & w' & -> & Hlen).
      eexists (_ :: _ :: new), w'. split; [reflexivity|].
      simpl. now rewrite Hlen.
    + destruct (Hnext (Some e) (snd (action (Some c) opt w1)) [])
        as (new & w' & Hrun & Hlen).
      rewrite app_nil_r in Hrun. rewrite Hrun.
      eexists (_ :: new), w'. split; [reflexivity|].
      simpl. now rewrite Hlen.
Qed.

(** When the cluster always has a route, the action always fails with
    the same retryable error and no sleep is interrupted, [retry] runs
    the action exactly [RetryMaxAttempts + 1] times and returns that
    error (converted, when it is a DAX error). *)
Theorem retry_exhausts_budget (op : string)
    (action : DaxAPI -> RequestOptions -> W -> option error * W)
    (opt : RequestOptions) (e : error) (w : W)
    (tr : list ClusterClient.event) :
  0 <= RetryMaxAttempts opt ->
  (forall prev w, fst (getRoute env prev w) <> None) ->
  (forall cl w, fst (action cl (set_RetryMaxAttempts 0 opt) w) = Some e) ->
  isRetryable env (set_RetryMaxAttempts 0 opt) e = true ->
  (forall d w, fst (SleepWithContext env op d w) = None) ->
  exists new,
    snd (retry env op action opt w tr) = tr ++ new
    /\ Z.of_nat (length (acted_on new)) = RetryMaxAttempts opt + 1
    /\ fst (fst (retry env op action opt w tr))
       = Some (if isDaxError env e then convertDaxError env e else e).
Proof.
  intros Hn Hroute Hfail Hretry Hsleep. unfold retry, Eff.bind, Eff.ret.
  destruct (retry_loop_exhausts action (set_RetryMaxAttempts 0 opt) op e
              (RetryMaxAttempts opt) Hroute Hfail Hretry Hsleep
              (Z.to_nat (RetryMaxAttempts opt + 1)) 0 None None w tr
              ltac:(lia) ltac:(lia)) as (new & w' & -> & Hlen).
  exists new. simpl. repeat split; [lia|].
  now destruct (isDaxError env e).
Qed.

Lemma retry_loop_success n :
  forall i attempts op action opt client err w tr w' tr',
    i + Z.of_nat n = attempts + 1 ->
    (n = 0%nat -> err <> None) ->
    retry_loop env n i attempts op action opt client err w tr
      = (None, w', tr') ->
    exists pre c w0,
      tr' = pre ++ [Action (Some c) opt]
      /\ action (Some c) opt w0 = (None, w').
Proof.
  induction n as [|n IH];
    intros i attempts op action opt client err w tr w' tr' Hi Herr.
  - simpl. unfold Eff.ret. intros [= -> _ _]. now elim Herr.
  - cbn [retry_loop]. unfold Eff.bind at 1.
    assert (forall client' e w1 tr1,
              (if negb (isRetryable env opt e) then Eff.ret (Some e)
               else if negb (i =? attempts)
                    then
                      if 0 <? (if Retryer_RetryDelay opt (i + 1) e =? 0
                               then RetryDelay opt
                               else Retryer_RetryDelay opt (i + 1) e)
                      then
                        Eff.bind (Eff.emit (Backoff op
                                   (if Retryer_RetryDelay opt (i + 1) e =? 0
                                    then RetryDelay opt
                                    else Retryer_RetryDelay opt (i + 1) e)))
                          (fun _ =>
                             Eff.bind
                               (Eff.lift (SleepWithContext env op
                                  (if Retryer_RetryDelay opt (i + 1) e =? 0
                                   then RetryDelay opt
                                   else Retryer_RetryDelay opt (i + 1) e)))
                               (fun serr =>
                                  match serr with
                                  | Some se => Eff.ret (Some se)
                                  | None =>
                                      retry_loop env n (i + 1) attempts op
                                        action opt client' None
                                  end))
                      else retry_loop env n (i + 1) attempts op action opt
                             client' (Some e)
                    else retry_loop env n (i + 1) attempts op action opt
                           client' (Some e)) w1 tr1 = (None, w', tr') ->
              exists pre c w0,
                tr' = pre ++ [Action (Some c) opt]
                /\ action (Some c) opt w0 = (None, w')) as Hfail.
    { intros client' e w1 tr1.
      destruct (isRetryable env opt e); simpl; [|discriminate].
      destruct (Z.eqb_spec i attempts) as [->|Hne]; simpl.
      - assert (n = 0%nat) as -> by lia. simpl. discriminate.
      - assert (n <> 0%nat) as Hn by lia.
        destruct (0 <? _).
        + unfold Eff.bind, Eff.emit, Eff.lift.
          destruct (SleepWithContext env op _ w1) as [[se|] w2];
            [discriminate|].
          apply IH; [lia | intros; contradiction].
        + apply IH; [lia | discriminate]. }
    destruct (attempt_cases op action opt client w tr)
      as [(w1 & txt & _ & ->)|(c & w1 & _ & ->)].
    + apply Hfail.
    + destruct (action (Some c) opt w1) as [[e|] w2] eqn:Hact; simpl.
      * apply Hfail.
      * unfold Eff.ret. intros [= <- <-]. now exists tr, c, w1.
Qed.

(** For a budget that is not negative, [retry] reports success only
    after success: when it returns nil, the last thing it did was to run
    the action on a client, and that run returned nil.  The error of a
    sleep that went well, which the loop stores in [err], never reaches
    the caller as the result. *)
Theorem retry_success_is_genuine (op : string)
    (action : DaxAPI -> RequestOptions -> W -> option error * W)
    (opt : RequestOptions) (w w' : W) (tr tr' : list ClusterClient.event) :
  0 <= RetryMaxAttempts opt ->
  retry env op action opt w tr = (None, w', tr') ->
  exists pre c w0,
    tr' = pre ++ [Action (Some c) (set_RetryMaxAttempts 0 opt)]
    /\ action (Some c) (set_RetryMaxAttempts 0 opt) w0 = (None, w').
Proof.
  intros Hn. unfold retry, Eff.bind, Eff.ret.
  destruct (retry_loop env _ _ _ _ _ _ _ _ w tr) as [[err w1] tr1] eqn:Hrun.
  intros [= Herr -> ->].
  assert (err = None) as ->.
  { destruct err as [e|]; [|reflexivity]. simpl in Herr.
    destruct (isDaxError env e); discriminate. }
  eapply retry_loop_success in Hrun; [exact Hrun | lia | lia].
Qed.

(** While the cluster has no route, [retry] runs no action, and, for a
    budget that is not negative, it returns an error. *)
Theorem retry_without_route (op : string)
    (action : DaxAPI -> RequestOptions -> W -> option error * W)
    (opt : RequestOptions) (w : W) (tr : list ClusterClient.event) :
  0 <= RetryMaxAttempts opt ->
  (forall prev v, fst (getRoute env prev v) = None) ->
  fst (fst (retry env op action opt w tr)) <> None
  /\ exists new,
       snd (retry env op action opt w tr) = tr ++ new /\ acted_on new = [].
Proof.
  intros Hn Hnone.
  assert (forall n i attempts o client err v t,
            i + Z.of_nat n = attempts + 1 ->
            (n = 0%nat -> err <> None) ->
            exists new e w',
              retry_loop env n i attempts op action o client err v t
                = (Some e, w', t ++ new)
              /\ acted_on new = []) as Hloop.
  { induction n as [|n IH]; intros i attempts o client err v t Hi Herr.
    - destruct err as [e|]; [|now elim Herr].
      exists [], e, v. simpl. unfold Eff.ret. now rewrite app_nil_r.
    - cbn [retry_loop]. unfold Eff.bind at 1.
      destruct (attempt_cases op action o client v t)
        as [(w1 & txt & _ & ->)|(c & w1 & Hr & _)].
      2:{ specialize (Hnone client v). rewrite Hr in Hnone. discriminate. }
      destruct (isRetryable env o _); simpl;
        [|eexists [], _, _; unfold Eff.ret; now rewrite app_nil_r].
      destruct (Z.eqb_spec i attempts) as [->|Hne]; simpl;
        [apply IH; [lia | discriminate]|].
      assert (n <> 0%nat) as Hpos by lia.
      destruct (0 <? _); [|apply IH; [lia | discriminate]].
      unfold Eff.bind, Eff.emit, Eff.lift.
      destruct (SleepWithContext env op _ w1) as [[se|] w2].
      + eexists [_], _, _. unfold Eff.ret. split; reflexivity.
      + destruct (IH (i + 1) attempts o None None w2 (t ++ [Backoff op
                       (if Retryer_RetryDelay o (i + 1)
                             (OperationError (service env) op
                                (ErrorString
                                   ("no routes found. lastRefreshError: "
                                    ++ txt)%string)) =? 0
                        then RetryDelay o
                        else Retryer_RetryDelay o (i + 1)
                               (OperationError (service env) op
                                  (ErrorString
                                     ("no routes found. lastRefreshError: "
                                      ++ txt)%string)))])
                    ltac:(lia) ltac:(intros; contradiction))
          as (new & e & w' & -> & Hact).
        eexists (_ :: new), e, w'. rewrite <- app_assoc.
        split; [reflexivity | exact Hact]. }
  destruct (Hloop (Z.to_nat (RetryMaxAttempts opt + 1)) 0
              (RetryMaxAttempts opt) (set_RetryMaxAttempts 0 opt)
              None None w tr ltac:(lia) ltac:(lia))
    as (new & e & w' & Hrun & Hact).
  unfold retry, Eff.bind, Eff.ret. rewrite Hrun. simpl.
  split; [|now exists new].
  destruct (isDaxError env e); discriminate.
Qed.

End RetryRuns.

(** Three retries against a node that keeps answering with a retryable
    failure. *)
Lemma retry_exhausts_budget_witness :
  let e := DaxRequestFailure [2] "" "" in
  exists new,
    snd (ClusterClient.retry ClusterClient.mockCluster "GetItem"
           (ClusterClient.failingAction e) (Single.optionsWithAttempts 3) tt [])
    = [] ++ new
    /\ Z.of_nat (length (RetryTrace.acted_on new)) = 3 + 1.
Proof.
  intros e.
  destruct (retry_exhausts_budget ClusterClient.mockCluster "GetItem"
              (ClusterClient.failingAction e) (Single.optionsWithAttempts 3)
              e tt [])
    as (new & Hnew & Hlen & _);
    [simpl; lia | discriminate | reflexivity | reflexivity | reflexivity |].
  exists new. split; [exact Hnew | exact Hlen].
Defined.

Lemma retry_run_shape_witness :
  exists new,
    snd (ClusterClient.retry ClusterClient.mockCluster "GetItem"
           (ClusterClient.failingAction (DaxRequestFailure [2] "" ""))
           (Single.optionsWithAttempts 3) tt [])
    = [] ++ new
    /\ Z.of_nat (length (RetryTrace.backoffs_of new)) <= 3.
Proof.
  destruct (retry_run_shape ClusterClient.mockCluster "GetItem"
              (ClusterClient.failingAction (DaxRequestFailure [2] "" ""))
              (Single.optionsWithAttempts 3) tt [])
    as (new & Hnew & _ & _ & Hb); [simpl; lia|].
  exists new. split; [exact Hnew | exact Hb].
Defined.



Lemma retry_success_is_genuine_witness :
  exists pre c w0,
    [] ++ [ClusterClient.Action (Some ClusterClient.mockRoute)
             (Single.set_RetryMaxAttempts 0 (Single.optionsWithAttempts 2))]
    = pre ++ [ClusterClient.Action (Some c)
                (Single.set_RetryMaxAttempts 0 (Single.optionsWithAttempts 2))]
    /\ (fun (_ : DaxAPI) (_ : Single.RequestOptions) (w : unit) =>
          (@None error, w)) (Some c)
         (Single.set_RetryMaxAttempts 0 (Single.optionsWithAttempts 2)) w0
       = (None, tt).
Proof.
  apply (retry_success_is_genuine ClusterClient.mockCluster "PutItem"
           (fun _ _ w => (None, w)) (Single.optionsWithAttempts 2) tt tt []).
  - simpl. lia.
  - reflexivity.
Defined.

(** A cluster that has lost all its routes. *)
Lemma retry_without_route_witness :
  fst (fst (ClusterClient.retry
              (ClusterClient.mkCollaborators unit "dax"
                 (fun _ w => (None, w)) (fun _ => "<nil>")
                 (fun _ _ => false) (fun _ => false) (fun e => e)
                 (fun _ _ w => (None, w)))
              "GetItem" (fun _ _ w => (None, w))
              (Single.optionsWithAttempts 2) tt []))
  <> None.
Proof.
  apply (retry_without_route
           (ClusterClient.mkCollaborators unit "dax"
              (fun _ w => (None, w)) (fun _ => "<nil>")
              (fun _ _ => false) (fun _ => false) (fun e => e)
              (fun _ _ w => (None, w)))).
  - simpl. lia.
  - reflexivity.
Defined.

(** ** The per-node client: tubes, attempts and authentication *)

Section NodeRuns.

Import Single.

Context {W : Type} (env : collaborators W).

(** [auth] writes no event and hands back the same connection. *)
Lemma auth_result t w tr :
  exists e t1 w1,
    auth env t w tr = ((e, t1), w1, tr) /\ tid t1 = tid t.
Proof.
  unfold auth, Eff.bind, Eff.lift, Eff.ret, CompareAndSwapAuthID.
  destruct (credentials_Retrieve env w) as [[creds|e] w1];
    [|now eexists _, _, _].
  destruct (time_Now_Unix env w1) as [now w2]. simpl.
  destruct (_ || _); [|now eexists _, _, _].
  destruct (encodeAuthInput env _ _ _ w2) as [[e|] w3];
    [now eexists _, _, _|].
  destruct (writer_Flush env _ w3) as [[e|] w4]; now eexists _, _, _.
Qed.

Ltac tube_fate back Ht1 :=
  unfold put, closeTube, Eff.bind, Eff.emit, Eff.modify, Eff.ret; simpl;
  rewrite <- ?app_assoc; simpl;
  eexists _, _, _, _, back; split; [reflexivity|];
  split; [first [discriminate | reflexivity]|];
  split; [first [reflexivity | exact Ht1] | split; congruence].

Lemma attempt_with_tube {A : Type} (op : string)
    (encoder : tube -> W -> option error * W)
    (decoder : tube -> W -> result A * W) (w w1 : W) (tr : list event)
    (t : tube) :
  pool_getWithContext env (isHighPriority op) w = (Ok t, w1) ->
  exists out err w' t' (back : bool),
    executeWithContext env op encoder decoder w tr
    = ((out, err), w',
       tr ++ [Attempt op; if back then PoolPut t' else PoolCloseTube t'])
    /\ (back = false -> err <> None)
    /\ tid t' = tid t
    /\ (err = None <-> out <> None).
Proof.
  intros Hpool. unfold executeWithContext.
  unfold Eff.bind at 1 2. unfold Eff.emit at 1. unfold Eff.lift at 1.
  cbn beta iota. rewrite Hpool.
  unfold Eff.bind at 1. unfold Eff.lift at 1.
  destruct (pool_setDeadline env t w1) as [[e|] w2].
  - unfold Eff.bind at 1. unfold Eff.read at 1.
    destruct (ctx_Err env w2) as [c|]; [destruct (error_eqb e c)|];
      [tube_fate true (eq_refl (tid t)) | tube_fate false (eq_refl (tid t))
      | tube_fate false (eq_refl (tid t))].
  - unfold Eff.bind at 1.
    destruct (auth_result t w2 (tr ++ [Attempt op]))
      as (e1 & t1 & w3 & -> & Ht1).
    destruct e1 as [e|]; [tube_fate false Ht1|].
    unfold Eff.bind at 1. unfold Eff.lift at 1.
    destruct (encoder t1 w3) as [[e|] w4]; [tube_fate false Ht1|].
    unfold Eff.bind at 1. unfold Eff.lift at 1.
    destruct (writer_Flush env t1 w4) as [[e|] w5]; [tube_fate false Ht1|].
    unfold Eff.bind at 1. unfold Eff.lift at 1.
    destruct (decodeError env t1 w5) as [[ex e4] w6].
    destruct e4 as [e|]; [tube_fate false Ht1|].
    destruct ex as [x|].
    + unfold Eff.bind at 1. rewrite recycleTube_server_error.
      destruct (is_daxRequestFailure x); [destruct (authError env x)|];
        [tube_fate true Ht1 | tube_fate true Ht1 | tube_fate false Ht1].
    + unfold Eff.bind at 1. unfold Eff.lift at 1.
      destruct (decoder t1 w6) as [[a|e] w7];
        [tube_fate true Ht1 | tube_fate false Ht1].
Qed.

Lemma attempt_without_tube {A : Type} (op : string)
    (encoder : tube -> W -> option error * W)
    (decoder : tube -> W -> result A * W) (w w1 : W) (tr : list event)
    (e : error) :
  pool_getWithContext env (isHighPriority op) w = (Err e, w1) ->
  executeWithContext env op encoder decoder w tr
  = ((None, Some e), w1, tr ++ [Attempt op]).
Proof.
  intros Hpool. unfold executeWithContext.
  unfold Eff.bind at 1 2. unfold Eff.emit at 1. unfold Eff.lift at 1.
  cbn beta iota. now rewrite Hpool.
Qed.

(** Every attempt disposes of its connection exactly once.  When the
    pool gives no tube, [executeWithContext] returns the pool's error and
    touches no tube.  When it gives one, that tube is either put back
    into the pool or closed, once, before the call returns; it is closed
    only when the call returns an error.  An output comes with a nil
    error, and a nil error with an output. *)
Theorem attempt_disposes_of_its_tube {A : Type} (op : string)
    (encoder : tube -> W -> option error * W)
    (decoder : tube -> W -> result A * W) (w : W) (tr : list event) :
  (forall e w1,
      pool_getWithContext env (isHighPriority op) w = (Err e, w1) ->
      executeWithContext env op encoder decoder w tr
      = ((None, Some e), w1, tr ++ [Attempt op]))
  /\ (forall t w1,
        pool_getWithContext env (isHighPriority op) w = (Ok t, w1) ->
        exists out err w' t' (back : bool),
          executeWithContext env op encoder decoder w tr
          = ((out, err), w',
             tr ++ [Attempt op;
                    if back then PoolPut t' else PoolCloseTube t'])
          /\ (back = false -> err <> None)
          /\ tid t' = tid t)
  /\ (snd (fst (fst (executeWithContext env op encoder decoder w tr))) = None
      <-> fst (fst (fst (executeWithContext env op encoder decoder w tr)))
          <> None).
Proof.
  split; [|split].
  - intros e w1. apply attempt_without_tube.
  - intros t w1 Hpool.
    destruct (attempt_with_tube op encoder decoder w w1 tr t Hpool)
      as (out & err & w' & t' & back & Hrun & Hback & Ht & _).
    now exists out, err, w', t', back.
  - destruct (pool_getWithContext env (isHighPriority op) w) as [[t|e] w1]
      eqn:Hpool.
    + destruct (attempt_with_tube op encoder decoder w w1 tr t Hpool)
        as (out & err & w' & t' & back & -> & _ & _ & Hiff).
      exact Hiff.
    + rewrite (attempt_without_tube op encoder decoder w w1 tr e Hpool).
      simpl. split; [discriminate | intros H; now elim H].
Qed.

Import NodeTrace.

Lemma sleeps_app t1 t2 : sleeps (t1 ++ t2) = sleeps t1 ++ sleeps t2.
Proof. unfold sleeps. apply omap_app. Qed.

Lemma attempted_app t1 t2 :
  attempted (t1 ++ t2) = attempted t1 ++ attempted t2.
Proof. unfold attempted. apply omap_app. Qed.

(** What one attempt adds to the trace. *)
Lemma attempt_events {A : Type} (op : string)
    (encoder : tube -> W -> option error * W)
    (decoder : tube -> W -> result A * W) (w : W) (tr : list event) :
  exists out err w' new,
    executeWithContext env op encoder decoder w tr = ((out, err), w', tr ++ new)
    /\ attempted new = [op] /\ sleeps new = []
    /\ (err = None <-> out <> None).
Proof.
  destruct (pool_getWithContext env (isHighPriority op) w) as [[t|e] w1]
    eqn:Hpool.
  - destruct (attempt_with_tube op encoder decoder w w1 tr t Hpool)
      as (out & err & w' & t' & back & -> & _ & _ & Hiff).
    eexists out, err, w', [_; _]. repeat split; try apply Hiff.
    + now destruct back.
    + now destruct back.
  - rewrite (attempt_without_tube op encoder decoder w w1 tr e Hpool).
    eexists _, _, _, [_]. repeat split; try discriminate.
    intros H. now elim H.
Qed.

Lemma executeWithRetries_loop_budget {A : Type} (op : string)
    (o : RequestOptions)
    (encoder : tube -> W -> option error * W)
    (decoder : tube -> W -> result A * W) (attempts : Z) :
  forall n i err0 w tr,
    i + Z.of_nat n = attempts + 1 ->
    exists out err w' new,
      executeWithRetries_loop env n i attempts op o encoder decoder err0 w tr
      = ((out, err), w', tr ++ new)
      /\ (length (attempted new) <= n)%nat
      /\ ((1 <= n)%nat -> (1 <= length (attempted new))%nat)
      /\ Forall (fun a => a = op) (attempted new)
      /\ (length (sleeps new) <= Nat.pred n)%nat
      /\ (length (sleeps new) <= length (attempted new))%nat
      /\ Forall (fun s => s = (op, RetryDelay o)) (sleeps new)
      /\ (out <> None -> err = None).
Proof.
  induction n as [|n IH]; intros i err0 w tr Hi.
  - eexists _, _, _, []. simpl. unfold Eff.ret. rewrite app_nil_r.
    split; [reflexivity|]. repeat split; auto; try lia; try constructor.
    intros H. now elim H.
  - cbn [executeWithRetries_loop]. unfold Eff.bind at 1.
    destruct (attempt_events op encoder decoder w tr)
      as (out & err & w1 & new1 & -> & Ha1 & Hs1 & Hiff).
    destruct err as [e|].
    + assert (out = None) as ->.
      { destruct out; [|reflexivity].
        destruct Hiff as [_ Hiff]. discriminate Hiff. discriminate. }
      destruct (errors_Is_Canceled e).
      { eexists _, _, w1, new1. unfold Eff.ret. split; [reflexivity|].
        rewrite Ha1, Hs1. simpl.
        repeat split; auto; try lia; try (repeat constructor).
        intros H. now elim H. }
      destruct (Z.eqb_spec i attempts) as [->|Hne]; simpl.
      * assert (n = 0%nat) as -> by lia. simpl. unfold Eff.ret.
        eexists _, _, w1, new1. split; [reflexivity|].
        rewrite Ha1, Hs1. simpl.
        repeat split; auto; try lia; try (repeat constructor).
        intros H. now elim H.
      * assert (n <> 0%nat) as Hn by lia.
        unfold Eff.bind, Eff.emit, Eff.lift.
        destruct (SleepWithContext env op (RetryDelay o) w1) as [[se|] w2].
        -- eexists _, _, w2, (new1 ++ [Slept op (RetryDelay o)]).
           unfold Eff.ret. rewrite app_assoc. split; [reflexivity|].
           rewrite attempted_app, sleeps_app, Ha1, Hs1. simpl.
           repeat split; auto; try lia; try (repeat constructor).
           intros H. now elim H.
        -- destruct (IH (i + 1) (Some e) w2
                       ((tr ++ new1) ++ [Slept op (RetryDelay o)])
                       ltac:(lia))
             as (out2 & err2 & w' & new2 & -> & Hn2 & Hp2 & Ho2 & Hsl2
                 & Hsa2 & Hd2 & Hout2).
           eexists out2, err2, w', ((new1 ++ [Slept op (RetryDelay o)]) ++ new2).
           rewrite !app_assoc. split; [reflexivity|].
           rewrite !attempted_app, !sleeps_app, Ha1, Hs1. simpl.
           repeat split; auto; try lia; constructor; assumption.
    + eexists out, None, w1, new1. unfold Eff.ret. split; [reflexivity|].
      rewrite Ha1, Hs1. simpl.
      repeat split; auto; try lia; repeat constructor.
Qed.

(** The per-node retry loop, for a budget that is not negative: it
    makes at least one attempt and at most [RetryMaxAttempts + 1], all
    for the operation asked; it sleeps at most [RetryMaxAttempts] times,
    never more often than it has attempted, each time for [RetryDelay]
    (also when that delay is zero); and it returns an output only
    together with a nil error. *)
Theorem node_retry_budget {A : Type} (op : string) (o : RequestOptions)
    (encoder : tube -> W -> option error * W)
    (decoder : tube -> W -> result A * W) (w : W) (tr : list event) :
  0 <= RetryMaxAttempts o ->
  exists out err w' new,
    executeWithRetries env op o encoder decoder w tr
    = ((out, err), w', tr ++ new)
    /\ (1 <= length (attempted new))%nat
    /\ Z.of_nat (length (attempted new)) <= RetryMaxAttempts o + 1
    /\ Forall (fun a => a = op) (attempted new)
    /\ Z.of_nat (length (sleeps new)) <= RetryMaxAttempts o
    /\ (length (sleeps new) <= length (attempted new))%nat
    /\ Forall (fun s => s = (op, RetryDelay o)) (sleeps new)
    /\ (out <> None -> err = None).
Proof.
  intros Hn. unfold executeWithRetries.
  destruct (executeWithRetries_loop_budget op o encoder decoder
              (RetryMaxAttempts o) (Z.to_nat (RetryMaxAttempts o + 1)) 0
              None w tr ltac:(lia))
    as (out & err & w' & new & -> & H1 & H2 & H3 & H4 & H5 & H6 & H7).
  exists out, err, w', new. split; [reflexivity|].
  assert (1 <= length (attempted new))%nat by (apply H2; lia).
  repeat split; auto; lia.
Qed.

(** With a negative [RetryMaxAttempts] the per-node loop makes no
    attempt at all: nothing goes on the wire, and the caller gets
    [translateError(nil)] and no output. *)
Lemma node_retry_negative_budget {A : Type} (op : string)
    (o : RequestOptions)
    (encoder : tube -> W -> option error * W)
    (decoder : tube -> W -> result A * W) (w : W) (tr : list event) :
  RetryMaxAttempts o < 0 ->
  executeWithRetries env op o encoder decoder w tr
  = ((None, translateError env None), w, tr).
Proof.
  intros Hn. unfold executeWithRetries.
  replace (Z.to_nat (RetryMaxAttempts o + 1)) with 0%nat by lia.
  reflexivity.
Qed.

(** [defineAttributeListId] for a list that is not empty, and
    [defineAttributeList] for an id other than 1, go on the wire exactly
    once, under their own operation names, and never sleep: these calls
    are not retried.  On error they return the zero id and no names. *)
Theorem define_attribute_list_single_attempt (w : W) (tr : list event) :
  (forall attrNames,
      attrNames <> [] ->
      exists id err w' new,
        defineAttributeListId env attrNames w tr = ((id, err), w', tr ++ new)
        /\ attempted new = [opDefineAttributeListId]
        /\ sleeps new = []
        /\ (err <> None -> id = 0))
  /\ (forall id,
        id <> emptyAttributeListId ->
        exists names err w' new,
          defineAttributeList env id w tr = ((names, err), w', tr ++ new)
          /\ attempted new = [opDefineAttributeList]
          /\ sleeps new = []
          /\ (err <> None -> names = [])).
Proof.
  assert (forall (A : Type) op
                 (encoder : tube -> W -> option error * W)
                 (decoder : tube -> W -> result A * W),
            exists out err w' new,
              executeWithRetries env op zeroOptions encoder decoder w tr
              = ((out, err), w', tr ++ new)
              /\ attempted new = [op] /\ sleeps new = []) as Hone.
  { intros A op encoder decoder.
    destruct (node_retry_budget op zeroOptions encoder decoder w tr
                ltac:(simpl; lia))
      as (out & err & w' & new & Hrun & H1 & H2 & H3 & H4 & _).
    exists out, err, w', new. split; [exact Hrun|]. simpl in H2, H4.
    split.
    - destruct (attempted new) as [|a [|a' l]]; simpl in *; try lia.
      inversion H3. now subst.
    - destruct (sleeps new); simpl in *; [reflexivity | lia]. }
  split.
  - intros attrNames Hne. unfold defineAttributeListId.
    destruct attrNames as [|a l]; [contradiction|]. simpl.
    unfold Eff.bind at 1.
    destruct (Hone Z opDefineAttributeListId
                (encodeDefineAttributeListIdInput env (a :: l))
                (decodeDefineAttributeListIdOutput env))
      as (out & err & w' & new & -> & Ha & Hs).
    destruct err as [e|]; unfold Eff.ret.
    + now eexists _, _, w', new.
    + eexists _, _, w', new. repeat split; auto. intros H. now elim H.
  - intros id Hne. unfold defineAttributeList.
    destruct (Z.eqb_spec id emptyAttributeListId) as [|_]; [contradiction|].
    unfold Eff.bind at 1.
    destruct (Hone (list string) opDefineAttributeList
                (encodeDefineAttributeListInput env id)
                (decodeDefineAttributeListOutput env))
      as (out & err & w' & new & -> & Ha & Hs).
    destruct err as [e|]; unfold Eff.ret.
    + now eexists _, _, w', new.
    + eexists _, _, w', new. repeat split; auto. intros H. now elim H.
Qed.

(** Authentication and its window.  A tube whose auth id is the current
    access key and whose expiry lies in the future is left alone:
    nothing is written.  A tube with another auth id, or one that has
    expired, is sent the credentials; when that succeeds it carries the
    access key and expires 225 seconds later, so that a second [auth]
    with the same key before then writes nothing. *)
Theorem auth_window (t : tube) (creds : Credentials) (now : Z)
    (w w1 w2 : W) (tr : list event) :
  credentials_Retrieve env w = (Ok creds, w1) ->
  time_Now_Unix env w1 = (now, w2) ->
  (authID t = AccessKeyID creds -> now < authExpiryUnix t ->
   auth env t w tr = ((None, t), w2, tr))
  /\ (forall w3 w4,
        authID t <> AccessKeyID creds \/ authExpiryUnix t <= now ->
        encodeAuthInput env creds now
          (mkTube (tid t) (AccessKeyID creds) (authExpiryUnix t)) w2
          = (None, w3) ->
        writer_Flush env
          (mkTube (tid t) (AccessKeyID creds) (authExpiryUnix t)) w3
          = (None, w4) ->
        let t' := mkTube (tid t) (AccessKeyID creds)
                    (now + tubeAuthWindowSecs) in
        auth env t w tr = ((None, t'), w4, tr)
        /\ tubeAuthWindowSecs = 225
        /\ forall v v1 v2 now' tr',
             credentials_Retrieve env v = (Ok creds, v1) ->
             time_Now_Unix env v1 = (now', v2) ->
             now' < now + 225 ->
             auth env t' v tr' = ((None, t'), v2, tr')).
Proof.
  intros Hcreds Hnow.
  assert (forall (t0 : tube) v v1 v2 now0 tr0,
            credentials_Retrieve env v = (Ok creds, v1) ->
            time_Now_Unix env v1 = (now0, v2) ->
            authID t0 = AccessKeyID creds -> now0 < authExpiryUnix t0 ->
            auth env t0 v tr0 = ((None, t0), v2, tr0)) as Hfresh.
  { intros t0 v v1 v2 now0 tr0 Hc Hn Hid Hexp.
    unfold auth, Eff.bind, Eff.lift, Eff.ret, CompareAndSwapAuthID.
    rewrite Hc, Hn. simpl. rewrite Hid, String.eqb_refl. simpl.
    destruct (Z.leb_spec (authExpiryUnix t0) now0); [lia|].
    destruct t0; simpl in *. now subst. }
  split; [intros Hid Hexp; exact (Hfresh t w w1 w2 now tr Hcreds Hnow Hid Hexp)|].
  intros w3 w4 Hstale Henc Hflush t'. split; [|split; [reflexivity|]].
  - unfold auth, Eff.bind, Eff.lift, Eff.ret, CompareAndSwapAuthID.
    rewrite Hcreds, Hnow. simpl.
    assert (negb (authID t =? AccessKeyID creds)%string
            || (authExpiryUnix t <=? now) = true) as ->.
    { destruct Hstale as [Hid|Hexp].
      - apply String.eqb_neq in Hid. now rewrite Hid.
      - apply Z.leb_le in Hexp. rewrite Hexp. apply orb_true_r. }
    now rewrite Henc, Hflush.
  - intros v v1 v2 now' tr' Hc Hn Hlt.
    apply (Hfresh t' v v1 v2 now' tr' Hc Hn); [reflexivity|].
    simpl. unfold tubeAuthWindowSecs. lia.
Qed.

End NodeRuns.

(** A request that the node answers: the tube goes back to the pool. *)
Lemma attempt_disposes_of_its_tube_witness :
  exists out err w' t' (back : bool),
    Single.executeWithContext (Single.mockNode None None None) "GetItem"
      Single.mockEncoder Single.mockDecoder tt []
    = ((out, err), w',
       [] ++ [Single.Attempt "GetItem";
              if back then Single.PoolPut t' else Single.PoolCloseTube t'])
    /\ (back = false -> err <> None)
    /\ Single.tid t' = Single.tid Single.mockTube.
Proof.
  apply (proj1 (proj2 (attempt_disposes_of_its_tube
                         (Single.mockNode None None None) "GetItem"
                         Single.mockEncoder Single.mockDecoder tt [])))
    with (w1 := tt).
  reflexivity.
Defined.

(** Two retries against a pool that has no tube to give. *)
Lemma node_retry_budget_witness :
  exists out err w' new,
    Single.executeWithRetries
      (Single.mockNode (Some (ErrorString "no tube")) None None) "GetItem"
      (Single.optionsWithAttempts 2) Single.mockEncoder Single.mockDecoder
      tt []
    = ((out, err), w', [] ++ new)
    /\ Z.of_nat (length (NodeTrace.attempted new)) <= 2 + 1
    /\ Z.of_nat (length (NodeTrace.sleeps new)) <= 2.
Proof.
  destruct (node_retry_budget
              (Single.mockNode (Some (ErrorString "no tube")) None None)
              "GetItem" (Single.optionsWithAttempts 2) Single.mockEncoder
              Single.mockDecoder tt [])
    as (out & err & w' & new & Hrun & _ & Ha & _ & Hs & _); [simpl; lia|].
  now exists out, err, w', new.
Defined.


Lemma define_attribute_list_single_attempt_witness :
  exists id err w' new,
    Single.defineAttributeListId (Single.mockNode None None None)
      ["pk"; "sk"] tt []
    = ((id, err), w', [] ++ new)
    /\ NodeTrace.attempted new = ["DefineAttributeListId"]
    /\ NodeTrace.sleeps new = [].
Proof.
  destruct (proj1 (define_attribute_list_single_attempt
                     (Single.mockNode None None None) tt []) ["pk"; "sk"])
    as (id & err & w' & new & Hrun & Ha & Hs & _); [discriminate|].
  now exists id, err, w', new.
Defined.

(** The mock tube has never been authenticated. *)
Lemma auth_window_witness :
  Single.auth (Single.mockNode None None None) Single.mockTube tt []
  = ((None, Single.mkTube 7 "id" (Single.mockNow + 225)), tt, []).
Proof.
  destruct (auth_window (Single.mockNode None None None) Single.mockTube
              Single.mockCredentials Single.mockNow tt tt tt [])
    as [_ Hstale]; [reflexivity | reflexivity |].
  destruct (Hstale tt tt) as (Hrun & _);
    [left; discriminate | reflexivity | reflexivity |].
  exact Hrun.
Defined.

(** ** Both retry loops: a negative budget *)

(** With a negative [RetryMaxAttempts] neither retry loop runs its body.
    The per-node loop makes no attempt and returns [translateError(nil)]
    with no output; the cluster loop asks for no route, runs no action,
    and returns nil as if the operation had succeeded.  In both cases
    nothing goes on the wire. *)
Theorem negative_budget_runs_nothing
    {W : Type} (node : Single.collaborators W)
    {V : Type} (cl : ClusterClient.collaborators V) :
  (forall (A : Type) (op : string) (o : Single.RequestOptions)
          (encoder : Single.tube -> W -> option error * W)
          (decoder : Single.tube -> W -> result A * W)
          (w : W) (tr : list Single.event),
      Single.RetryMaxAttempts o < 0 ->
      Single.executeWithRetries node op o encoder decoder w tr
      = ((None, Single.translateError node None), w, tr))
  /\ (forall (op : string)
             (action : DaxAPI -> Single.RequestOptions -> V
                       -> option error * V)
             (opt : Single.RequestOptions) (v : V)
             (tr : list ClusterClient.event),
        Single.RetryMaxAttempts opt < 0 ->
        ClusterClient.retry cl op action opt v tr = (None, v, tr)).
Proof.
  split.
  - intros A op o encoder decoder w tr. apply node_retry_negative_budget.
  - intros op action opt v tr. apply retry_negative_budget.
Qed.

Lemma negative_budget_runs_nothing_witness :
  Single.executeWithRetries (Single.mockNode None None None) "PutItem"
    (Single.optionsWithAttempts (-1)) Single.mockEncoder Single.mockDecoder
    tt []
  = ((None, None), tt, [])
  /\ ClusterClient.retry ClusterClient.mockCluster "PutItem"
       (ClusterClient.failingAction ContextCanceled)
       (Single.optionsWithAttempts (-1)) tt []
     = (None, tt, []).
Proof.
  destruct (negative_budget_runs_nothing (Single.mockNode None None None)
              ClusterClient.mockCluster) as [Hnode Hcluster].
  split.
  - apply Hnode. simpl. lia.
  - apply Hcluster. simpl. lia.
Defined.

(** ** The codec: numbers in general, and the encoder's errors *)

Section NumberNormalForm.

Import Cbor CborFacts.

Context {numbers : Numbers}.

(** A string of at most 18 characters that parses as an integer denotes
    an int64: on this route [strconv.ParseInt] cannot fail for range. *)
Lemma short_integer_in_range s z :
  (String.length s <= 18)%nat -> parseSigned s = Some z ->
  ParseInt64 s = Some z.
Proof.
  intros Hlen Hz. pose proof (parseSigned_bound s z Hz) as Hb.
  assert (10 ^ Z.of_nat (String.length s) <= 10 ^ 18) as Hpow
    by (apply Z.pow_le_mono_r; lia).
  unfold ParseInt64. rewrite Hz.
  assert ((minInt <=? z) && (z <=? maxInt) = true) as ->; [|reflexivity].
  apply andb_true_iff. unfold minInt, maxInt. split; apply Z.leb_le; lia.
Qed.

(** For a number string of at most 18 characters without ['.'], ['e'] or
    ['E'], [writeStringNumber] fails exactly when the string is not an
    optionally signed run of decimal digits: the length bound keeps every
    such integer inside int64, so there is no range error on this route.
    When it fails it has written nothing. *)
Theorem short_number_fails_only_for_syntax (val : string) (w : Writer) :
  containsAny val ".eE" = false -> (String.length val <= 18)%nat ->
  (fst (writeStringNumber val w) = None <-> parseSigned val <> None)
  /\ (parseSigned val = None ->
      writeStringNumber val w = (Some (invalidNumber val), w)).
Proof.
  intros Hplain Hlen. unfold writeStringNumber. rewrite Hplain.
  destruct (Nat.ltb_spec 18 (String.length val)); [lia|].
  destruct (parseSigned val) as [z|] eqn:Hz.
  - rewrite (short_integer_in_range val z Hlen Hz).
    split; [|discriminate]. split; [discriminate|].
    intros _. apply WriteInt64_never_fails.
  - unfold ParseInt64. rewrite Hz. unfold failWith. simpl.
    split; [|reflexivity]. split; [discriminate | intros Habs; now elim Habs].
Qed.

(** Every integer string, whatever its spelling (a plus sign, leading
    zeros, "-0") and whatever its length, is written as the integer it
    denotes and read back in the canonical spelling of that integer. *)
Theorem integer_strings_are_normalised (s : string) (z : Z) :
  containsAny s ".eE" = false -> parseSigned s = Some z ->
  fitsInt (String.length s) = true ->
  exists bs,
    encode (AttributeValueMemberN s) = (None, bs)
    /\ DecodeAttributeValue bs
       = Ok (AttributeValueMemberN (FormatInt z), []).
Proof.
  intros Hplain Hz Hlen.
  pose proof (parseSigned_bound s z Hz) as Hbound.
  unfold encode, DecodeAttributeValue. cbn [EncodeAttributeValue].
  unfold writeStringNumber. rewrite Hplain, Hz.
  destruct (Nat.ltb_spec 18 (String.length s)) as [Hlong|Hshort].
  - exists (bigIntBytes z). rewrite WriteBigInt_bytes. split; [reflexivity|].
    rewrite <- (app_nil_r (bigIntBytes z)) at 2. apply decode_bigInt.
    apply fitsInt_range in Hlen.
    apply (byte_length_fits _ (String.length s)); [|lia].
    destruct (Z.leb_spec 0 z); lia.
  - rewrite (short_integer_in_range s z Hshort Hz).
    exists (if 0 <=? z then header PosInt z else header NegInt (-1 - z)).
    split.
    + unfold WriteInt64, writeType, emitBytes. now destruct (0 <=? z).
    + rewrite <- (app_nil_r (if 0 <=? z then _ else _)) at 2.
      apply decode_int64.
      pose proof (short_integer_in_range s z Hshort Hz) as Hr.
      unfold ParseInt64 in Hr. rewrite Hz in Hr.
      destruct ((minInt <=? z) && (z <=? maxInt)) eqn:E; [|discriminate].
      apply andb_true_iff in E as [H1 H2].
      apply Z.leb_le in H1, H2. lia.
Qed.

End NumberNormalForm.

Lemma short_number_fails_only_for_syntax_witness :
  Cbor.writeStringNumber "12a" []
  = (Some (SerializationError "invalid number 12a"), []).
Proof.
  apply (proj2 (short_number_fails_only_for_syntax "12a" []
                  eq_refl ltac:(simpl; lia))).
  reflexivity.
Defined.

(** A plus sign and leading zeros, and a long run of zeros before a
    digit. *)
Lemma integer_strings_are_normalised_witness :
  (exists bs,
     Cbor.encode (Cbor.AttributeValueMemberN "+0042") = (None, bs)
     /\ Cbor.DecodeAttributeValue bs = Ok (Cbor.AttributeValueMemberN "42", []))
  /\ (exists bs,
        Cbor.encode (Cbor.AttributeValueMemberN "-00000000000000000007")
        = (None, bs)
        /\ Cbor.DecodeAttributeValue bs
           = Ok (Cbor.AttributeValueMemberN "-7", [])).
Proof.
  split.
  - apply (integer_strings_are_normalised "+0042" 42); reflexivity.
  - apply (integer_strings_are_normalised "-00000000000000000007" (-7));
      reflexivity.
Defined.

Section EncoderErrors.

Import Cbor CborFacts.

Context {numbers : Numbers}.

Lemma appends_emit bs : appends (emitBytes bs) None bs.
Proof. intros w. reflexivity. Qed.

Lemma appends_fail e : appends (failWith e) (Some e) [].
Proof. intros w. unfold failWith. now rewrite app_nil_r. Qed.

Lemma appends_andThen a b r1 bs1 r2 bs2 :
  appends a r1 bs1 -> appends b r2 bs2 ->
  appends (andThen a b)
    (match r1 with None => r2 | Some e => Some e end)
    (bs1 ++ match r1 with None => bs2 | Some _ => [] end).
Proof.
  intros Ha Hb w. unfold andThen. rewrite Ha. destruct r1 as [e|].
  - now rewrite app_nil_r.
  - rewrite Hb. now rewrite app_assoc.
Qed.

Lemma appends_forEach {A : Type} (f : A -> write) (ok : A -> bool)
    (l : list A) :
  Forall (fun x => exists r bs, appends (f x) r bs
                                /\ (r = None <-> ok x = true)) l ->
  exists r bs, appends (forEach f l) r bs
               /\ (r = None <-> forallb ok l = true).
Proof.
  induction 1 as [|x l (r1 & bs1 & Hx & Hok) _ (r2 & bs2 & Hl & Hall)].
  - exists None, []. split; [intros w; unfold forEach, done;
                              now rewrite app_nil_r|]. now split.
  - eexists _, _. split; [apply (appends_andThen _ _ _ _ _ _ Hx Hl)|].
    simpl. rewrite andb_true_iff, <- Hok, <- Hall.
    destruct r1; [split; [discriminate | intros [? _]; discriminate]|].
    tauto.
Qed.

Lemma appends_writeStringNumber val :
  exists r bs, appends (writeStringNumber val) r bs
               /\ (r = None <-> numberOk val = true).
Proof.
  unfold writeStringNumber, numberOk.
  destruct (containsAny val ".eE").
  - destruct (Decimal_SetString val) as [d|].
    + eexists None, _. split; [apply appends_emit | now split].
    + eexists _, _. split; [apply appends_fail | split; discriminate].
  - destruct (Nat.ltb 18 (String.length val)).
    + eexists None, _. split; [|now split].
      intros w. apply WriteBigInt_bytes.
    + destruct (ParseInt64 val) as [i|].
      * exists None, (if 0 <=? i then header PosInt i
                      else header NegInt (-1 - i)).
        split; [|now split].
        intros w. unfold WriteInt64, writeType, emitBytes.
        now destruct (0 <=? i).
      * eexists _, _. split; [apply appends_fail | split; discriminate].
Qed.

Ltac plain_write :=
  eexists None, _; split; [apply appends_emit | now split].

Ltac tagged_set Hitems :=
  cbn [EncodeAttributeValue encodable];
  match goal with
  | |- context [Nat.eqb (length ?v) 0] => destruct (Nat.eqb (length v) 0)
  end;
  [ eexists _, _; split; [apply appends_fail | split; discriminate]
  | destruct Hitems as (r & bs & Hitems & Hok);
    eexists _, _; split;
      [ apply (appends_andThen _ _ _ _ _ _ (appends_emit _)
                 (appends_andThen _ _ _ _ _ _ (appends_emit _) Hitems))
      | simpl; exact Hok ] ].


End EncoderErrors.

(** A list whose second member is an empty string set: the first member
    is on the wire when the error comes. *)
Lemma encoder_errors_example :
  Cbor.encode (Cbor.AttributeValueMemberL
                 [Cbor.AttributeValueMemberBOOL true;
                  Cbor.AttributeValueMemberSS []])
  = (Some (SerializationError "invalid string set: nil or empty"),
     [x82; xf5]).
Proof. vm_compute. reflexivity. Qed.

Section Framing.

Import Cbor CborFacts.

Context {numbers : Numbers}.

(** An item can be read out of a stream: for a value [a] that meets
    [roundTrips], decoding the bytes of [a] followed by any other bytes
    yields [a] and leaves exactly those other bytes unread. *)
Theorem decoding_leaves_what_follows (a : AttributeValue) (bs rest : list byte) :
  roundTrips a = true -> encode a = (None, bs) ->
  DecodeAttributeValue (bs ++ rest) = Ok (a, rest).
Proof.
  intros Ha Henc. destruct (roundTrips_encodes a Ha) as (bs' & Hw & _ & Hr).
  unfold encode in Henc. rewrite Hw in Henc. simpl in Henc.
  inversion Henc. subst bs'.
  unfold DecodeAttributeValue. apply Hr. rewrite length_app. lia.
Qed.

(** Two values that meet [roundTrips] and differ are never written as
    the same bytes; more than that, the bytes of one are never the
    beginning of the bytes of the other. *)
Theorem encodings_do_not_collide (a b : AttributeValue)
    (bsa bsb more : list byte) :
  roundTrips a = true -> roundTrips b = true ->
  encode a = (None, bsa) -> encode b = (None, bsb) ->
  bsb = bsa ++ more ->
  a = b /\ more = [].
Proof.
  intros Ha Hb Hea Heb Hpre.
  pose proof (decoding_leaves_what_follows a bsa more Ha Hea) as Hda.
  pose proof (decoding_leaves_what_follows b bsb [] Hb Heb) as Hdb.
  rewrite app_nil_r, Hpre, Hda in Hdb. inversion Hdb. now subst.
Qed.

End Framing.

(** Two items one after the other. *)
Lemma decoding_leaves_what_follows_witness :
  Cbor.DecodeAttributeValue ([x63; x61; x62; x63] ++ [x18; x7b])
  = Ok (Cbor.AttributeValueMemberS "abc", [x18; x7b]).
Proof.
  apply (decoding_leaves_what_follows (Cbor.AttributeValueMemberS "abc"));
    reflexivity.
Defined.

Lemma encodings_do_not_collide_witness :
  Cbor.AttributeValueMemberN "123" = Cbor.AttributeValueMemberN "123"
  /\ @nil byte = [].
Proof.
  apply (encodings_do_not_collide (Cbor.AttributeValueMemberN "123")
           (Cbor.AttributeValueMemberN "123") [x18; x7b] [x18; x7b] []);
    reflexivity.
Defined.

(** ** The codec: what the decoder returns *)

Section DecoderResults.

Import Cbor CborFacts.

Context {numbers : Numbers}.

Lemma readN_Forall {A : Type} (P : A -> Prop) (f : read A) :
  (forall r x r', f r = Ok (x, r') -> P x) ->
  forall n r xs r', readN f n r = Ok (xs, r') -> Forall P xs.
Proof.
  intros Hf. induction n as [|n IH]; intros r xs r'; simpl.
  - intros [= <- _]. constructor.
  - destruct (f r) as [[x r1]|e] eqn:Hx; [|discriminate]. cbn [bindR].
    destruct (readN f n r1) as [[xs' r2]|e] eqn:Hxs; [|discriminate].
    cbn [bindR]. intros [= <- _]. constructor; eauto.
Qed.

Lemma readSlice_Forall {A : Type} (P : A -> Prop) (f : read A) :
  (forall r x r', f r = Ok (x, r') -> P x) ->
  forall len r xs r', readSlice f len r = Ok (xs, r') -> Forall P xs.
Proof.
  intros Hf len r xs r'. unfold readSlice.
  destruct (len <? 0); [discriminate|]. now apply readN_Forall.
Qed.

Lemma map_set_Forall {A : Type} (P : A -> Prop) k v (m : list (string * A)) :
  P v -> Forall (fun kv => P (snd kv)) m ->
  Forall (fun kv => P (snd kv)) (map_set k v m).
Proof.
  intros Hv. induction 1 as [|[k' v'] m Hkv Hm IH]; simpl.
  - now repeat constructor.
  - destruct (String.eqb k k'); constructor; auto.
Qed.

Lemma readEntries_Forall (P : AttributeValue -> Prop)
    (f : read AttributeValue) :
  (forall r x r', f r = Ok (x, r') -> P x) ->
  forall n m r m' r',
    Forall (fun kv => P (snd kv)) m ->
    readEntries f n m r = Ok (m', r') ->
    Forall (fun kv => P (snd kv)) m'.
Proof.
  intros Hf. induction n as [|n IH]; intros m r m' r' Hm; simpl.
  - now intros [= <- _].
  - destruct (ReadString r) as [[k r1]|e]; [|discriminate]. cbn [bindR].
    destruct (f r1) as [[v r2]|e] eqn:Hv; [|discriminate]. cbn [bindR].
    apply IH. apply map_set_Forall; eauto.
Qed.

Lemma Forall_forallb {A : Type} (f : A -> bool) (l : list A) :
  Forall (fun x => f x = true) l -> forallb f l = true.
Proof. induction 1 as [|x l Hx _ IH]; simpl; [reflexivity|]. now rewrite Hx. Qed.

Ltac read_steps :=
  repeat match goal with
         | H : Ok _ = Ok _ |- _ => inversion H; subst; clear H
         | H : Err _ = Ok _ |- _ => discriminate H
         | H : bindR ?m _ = Ok _ |- _ =>
             let E := fresh "E" in
             destruct m as [?|?] eqn:E; cbn [bindR] in H; [|discriminate H]
         | H : (let '(_, _) := ?p in _) = Ok _ |- _ => destruct p
         | H : (if ?c then _ else _) = Ok _ |- _ =>
             let E := fresh "E" in destruct c eqn:E
         end.

(** Whatever bytes it is given, a value that [DecodeAttributeValue]
    returns has no nil member and no [NULL{false}] at any depth: the
    decoder builds [NULL] only as [NULL{true}]. *)
Theorem decoded_values_are_well_formed (reader : Reader) (a : AttributeValue)
    (rest : Reader) :
  DecodeAttributeValue reader = Ok (a, rest) -> wellFormed a = true.
Proof.
  unfold DecodeAttributeValue. generalize (S (length reader)) as fuel.
  intros fuel. revert reader a rest.
  induction fuel as [|fuel IH]; intros reader a rest; [discriminate|].
  cbn [DecodeAttributeValue_fuel]. intros H.
  read_steps; try reflexivity.
  - (* a list *)
    cbn [wellFormed]. apply Forall_forallb.
    eapply (readSlice_Forall (fun x => wellFormed x = true)); eauto.
  - (* a map *)
    cbn [wellFormed].
    apply (Forall_forallb (fun kv => wellFormed (snd kv))).
    eapply (readEntries_Forall (fun x => wellFormed x = true)); eauto.
Qed.

End DecoderResults.

(** A map with a list in it. *)
Lemma decoded_values_are_well_formed_witness :
  Cbor.DecodeAttributeValue [xa1; x61; x6b; x82; xf6; xf4]
  = Ok (Cbor.AttributeValueMemberM
          [("k", Cbor.AttributeValueMemberL
                   [Cbor.AttributeValueMemberNULL true;
                    Cbor.AttributeValueMemberBOOL false])], [])
  /\ CborFacts.wellFormed
       (Cbor.AttributeValueMemberM
          [("k", Cbor.AttributeValueMemberL
                   [Cbor.AttributeValueMemberNULL true;
                    Cbor.AttributeValueMemberBOOL false])]) = true.
Proof.
  assert (Cbor.DecodeAttributeValue [xa1; x61; x6b; x82; xf6; xf4]
          = Ok (Cbor.AttributeValueMemberM
                  [("k", Cbor.AttributeValueMemberL
                           [Cbor.AttributeValueMemberNULL true;
                            Cbor.AttributeValueMemberBOOL false])], []))
    as H by (vm_compute; reflexivity).
  split; [exact H|].
  exact (decoded_values_are_well_formed _ _ _ H).
Defined.
